(** * Lazy virtual stacks over multi-page TIFF files

    A shallow embedding of the notebook code of
    [docs/80_image_analysis_with_dask]: the file scan that fixes the time
    axis, the dask array [ims] stacked from delayed single-page reads, the
    depth projection [ims.max(1)], block-wise filtering with an overlap
    margin ([da.map_overlap]) and the slider-driven viewer [browse_images].

    The notebook is glue around glob, tifffile, dask and ipywidgets.  The
    routines of these libraries that the notebook calls are modelled here by
    their behaviour on the values the notebook passes; each such definition
    says which call it stands for. *)

From Stdlib Require Import String Ascii DecimalString.
From Stdlib Require Import List ZArith Arith Bool Lia Sorted Permutation.
Import ListNotations.
Local Open Scope string_scope.
Local Open Scope nat_scope.
Local Open Scope list_scope.

(** ** Python values and exceptions *)

Module Py.

(** The exceptions the modelled calls can raise. *)
Inductive pyexn : Type :=
| ValueError (msg : string)
| IndexError (msg : string)
| FileNotFoundError (path : string).

(** A call either returns or raises. *)
Inductive result (A : Type) : Type :=
| Ok (a : A)
| Raise (e : pyexn).
Arguments Ok {A} a.
Arguments Raise {A} e.

Definition rbind {A B} (r : result A) (k : A -> result B) : result B :=
  match r with
  | Ok a => k a
  | Raise e => Raise e
  end.

(** [a < b] on [str]: lexicographic on the characters' codes, a proper
    prefix first.  A [string] here holds the bytes of the path; on UTF-8
    the order by bytes is the order by code points. *)
Fixpoint str_lt (a b : string) : bool :=
  match a, b with
  | EmptyString, EmptyString => false
  | EmptyString, String _ _ => true
  | String _ _, EmptyString => false
  | String x a', String y b' =>
      if Nat.ltb (nat_of_ascii x) (nat_of_ascii y) then true
      else if Nat.ltb (nat_of_ascii y) (nat_of_ascii x) then false
      else str_lt a' b'
  end.

(** [sorted(l)] on a list of [str]: a stable sort that compares with [<]
    only. *)
Fixpoint insort (x : string) (l : list string) : list string :=
  match l with
  | [] => [x]
  | y :: l' => if str_lt y x then y :: insort x l' else x :: y :: l'
  end.

Definition sorted (l : list string) : list string :=
  fold_right insort [] l.

(** ['%s' % n] for a non-negative [int]: its decimal digits. *)
Definition str_of_nat (n : nat) : string :=
  NilZero.string_of_uint (Nat.to_uint n).

(** [seq[i]] with Python's negative indices: [i] counts from the end when
    negative, and an index outside [-len, len - 1] raises. *)
Definition norm_index (i : Z) (len : nat) : result nat :=
  let j := if (i <? 0)%Z then (i + Z.of_nat len)%Z else i in
  if ((0 <=? j)%Z && (j <? Z.of_nat len)%Z)%bool
  then Ok (Z.to_nat j)
  else Raise (IndexError "index out of range").

Definition getitem {A} (l : list A) (i : Z) : result A :=
  rbind (norm_index i (length l))
        (fun j => match nth_error l j with
                  | Some a => Ok a
                  | None => Raise (IndexError "index out of range")
                  end).

End Py.
Import Py.

(** Lexicographic order of path strings, stated on its own: the order the
    sorted file list is compared against. *)
Inductive lex_lt : string -> string -> Prop :=
| lex_prefix c s : lex_lt EmptyString (String c s)
| lex_head c d s t :
    nat_of_ascii c < nat_of_ascii d -> lex_lt (String c s) (String d t)
| lex_tail c s t : lex_lt s t -> lex_lt (String c s) (String c t).

Definition lex_le (a b : string) : Prop := a = b \/ lex_lt a b.

(** ** Images, TIFF files and the file system *)

(** Element types of the arrays ([numpy.dtype]). *)
Inductive dtype : Type := uint8 | uint16 | int32 | float64.

Definition dtype_eqb (a b : dtype) : bool :=
  match a, b with
  | uint8, uint8 | uint16, uint16 | int32, int32 | float64, float64 => true
  | _, _ => false
  end.

(** A 2-D array, row by row. *)
Definition image : Type := list (list Z).

Definition nrows (a : image) : nat := length a.
Definition ncols (a : image) : nat := length (hd [] a).

(** [a[r, c]] for indices inside the array. *)
Definition pix (a : image) (r c : nat) : Z := nth c (nth r a []) 0%Z.

(** An array of [R] rows and [C] columns filled from [f]. *)
Definition tabulate (R C : nat) (f : nat -> nat -> Z) : image :=
  map (fun r => map (fun c => f r c) (seq 0 C)) (seq 0 R).

(** Every row has [C] entries and there are [R] rows: what a numpy array of
    shape [(R, C)] always satisfies. *)
Definition has_shape (R C : nat) (a : image) : Prop :=
  length a = R /\ Forall (fun row => length row = C) a.

(** A TIFF file of grey pages, at least one.  [tif_axes] holds the extents
    that the first series of the file has ahead of the two page axes, as
    tifffile reads them from the metadata of the file: [[n]] for a stack
    written from a 3-D array of [n] planes (also when [n] is 1), [[]] for a
    single 2-D image, [[a; b]] for a 4-D series.  The pages of the file are
    those of the first series followed by those of any further series. *)
Record tiff : Type := mkTiff {
  tif_dtype : dtype;
  tif_axes : list nat;
  tif_page0 : image;
  tif_more : list image
}.

Definition tif_pages (f : tiff) : list image := tif_page0 f :: tif_more f.

(** What the scan and the reads depend on: the files by path, in the order
    a directory listing returns them; the file-name matching of [glob]; and
    the order in which a tifffile file sequence holds the paths it is
    given. *)
Record world : Type := mkWorld {
  w_files : list (string * tiff);
  w_fnmatch : string -> string -> bool;
  w_seq_order : list string -> list string
}.

(** The file sequence holds exactly the paths it was given. *)
Definition world_ok (w : world) : Prop :=
  forall l, Permutation (w_seq_order w l) l.

Fixpoint lookup (p : string) (fs : list (string * tiff)) : option tiff :=
  match fs with
  | [] => None
  | (q, f) :: fs' => if String.eqb p q then Some f else lookup p fs'
  end.

(** [glob(pattern)]: the paths that match, in listing order. *)
Definition glob (w : world) (pattern : string) : list string :=
  filter (w_fnmatch w pattern) (map fst (w_files w)).

(** ** Frame Locator: the scan cell *)

Definition page_shape (f : tiff) : nat * nat :=
  (nrows (tif_page0 f), ncols (tif_page0 f)).

(** The shape tifffile reports for one file: that of its first series,
    the extents ahead of the page axes followed by the page shape.  It is
    read from the metadata, not counted from the pages. *)
Definition series_shape (f : tiff) : list nat :=
  tif_axes f ++ [fst (page_shape f); snd (page_shape f)].

Definition open_tiff (w : world) (p : string) : result tiff :=
  match lookup p (w_files w) with
  | Some f => Ok f
  | None => Raise (FileNotFoundError p)
  end.

(** [zarr.open(tifffile.imread(pattern, aszarr=True))], as far as its
    [shape] and [dtype] go.  tifffile expands the pattern with glob; no
    match raises [ValueError('no files found')]; a single match is opened
    as one file; several matches make a file sequence whose shape is the
    number of files followed by the shape read from the first file the
    sequence holds, and whose dtype is that file's.  No other file is
    looked at.  A single match with a 4-D series therefore has a shape of
    four extents as well. *)
Definition imread_aszarr (w : world) (pattern : string)
  : result (list nat * dtype) :=
  match glob w pattern with
  | [] => Raise (ValueError "no files found")
  | [p] => rbind (open_tiff w p)
                 (fun f => Ok (series_shape f, tif_dtype f))
  | ps => rbind (open_tiff w (hd EmptyString (w_seq_order w ps)))
                (fun f => Ok (length ps :: series_shape f, tif_dtype f))
  end.

(** What the scan cell leaves behind: the sorted paths and the unpacked
    shape and dtype. *)
Record frame_index : Type := mkIndex {
  files : list string;
  N_t : nat;
  N_z : nat;
  N_x : nat;
  N_y : nat;
  fi_dtype : dtype
}.

(** The scan cell:
<<
    files = sorted(glob(file_pattern))
    zarr_arr = zarr.open(tifffile.imread(file_pattern, aszarr=True))
    N_t, N_z, N_x, N_y = zarr_arr.shape
    dtype = zarr_arr.dtype
>>
    Unpacking a shape that does not have four entries raises. *)
Definition scan (w : world) (pattern : string) : result frame_index :=
  let fl := sorted (glob w pattern) in
  rbind (imread_aszarr w pattern)
        (fun '(shp, dt) =>
           match shp with
           | [a; b; c; d] => Ok (mkIndex fl a b c d dt)
           | _ => Raise (ValueError "wrong number of values to unpack")
           end).

(** ** Reads and their log *)

(** One page of one file was decoded. *)
Inductive event : Type :=
| PageRead (path : string) (z : nat).

(** A computation that touches the disk: its outcome and the reads it
    made.  One task logs its reads in the order it makes them.  The reads
    of the independent tasks of one graph are listed in the order of the
    graph, the order in which the synchronous scheduler runs them; the
    threaded scheduler runs independent tasks in any order, so of the log
    of several tasks only the content says something about the program,
    not the order. *)
Definition io (A : Type) : Type := result A * list event.

Definition io_ret {A} (a : A) : io A := (Ok a, []).
Definition io_raise {A} (e : pyexn) : io A := (Raise e, []).
Definition io_emit (e : event) : io unit := (Ok tt, [e]).
Definition io_lift {A} (r : result A) : io A := (r, []).

Definition io_bind {A B} (m : io A) (k : A -> io B) : io B :=
  match fst m with
  | Ok a => (fst (k a), snd m ++ snd (k a))
  | Raise e => (Raise e, snd m)
  end.

Declare Scope io_scope.
Delimit Scope io_scope with io.
Notation "x <- m ;; k" := (io_bind m (fun x => k))
  (at level 61, m at next level, right associativity) : io_scope.
Local Open Scope io_scope.

Fixpoint io_mapM {A B} (f : A -> io B) (l : list A) : io (list B) :=
  match l with
  | [] => io_ret []
  | a :: l' => b <- f a ;; bs <- io_mapM f l' ;; io_ret (b :: bs)
  end.

(** The custom reader:
<<
    def load_2d(t, z):
        return tifffile.TiffFile(files[t]).pages[z].asarray()
>>
    [t] and [z] come from [range], so they are not negative. *)
Definition load_2d (w : world) (fl : list string) (t z : nat) : io image :=
  p <- io_lift (getitem fl (Z.of_nat t)) ;;
  f <- io_lift (open_tiff w p) ;;
  img <- io_lift (getitem (tif_pages f) (Z.of_nat z)) ;;
  _ <- io_emit (PageRead p z) ;;
  io_ret img.

(** ** numpy on 2-D blocks *)

(** [a[y0:y1, x0:x1]] for non-negative bounds; bounds past the end are
    clipped, as slicing does. *)
Definition crop (a : image) (y0 y1 x0 x1 : nat) : image :=
  map (fun row => firstn (x1 - x0) (skipn x0 row))
      (firstn (y1 - y0) (skipn y0 a)).

(** [a.T] *)
Definition transpose (a : image) : image :=
  tabulate (ncols a) (nrows a) (fun i j => pix a j i).

Fixpoint zip_with {A} (f : A -> A -> A) (l1 l2 : list A) : list A :=
  match l1, l2 with
  | x :: l1', y :: l2' => f x y :: zip_with f l1' l2'
  | _, _ => []
  end.

Definition same_shape (a b : image) : bool :=
  (length a =? length b) &&
  forallb (fun r => length r =? ncols a) a &&
  forallb (fun r => length r =? ncols a) b.

(** The element-wise maximum of two blocks of one shape. *)
Definition maximum (a b : image) : image := zip_with (zip_with Z.max) a b.

(** [np.max] along the axis on which the blocks of [group] are
    concatenated: nothing to reduce raises, blocks of different shapes do
    not concatenate. *)
Definition amax (group : list image) : result image :=
  match group with
  | [] => Raise (ValueError "zero-size array to reduction operation")
  | a :: rest =>
      if forallb (same_shape a) rest
      then Ok (fold_left maximum rest a)
      else Raise (ValueError "array dimensions for concatenation must match")
  end.

(** ** dask arrays *)

(** The tasks of the graphs the notebook builds.  Each yields one 2-D
    block. *)
#[warnings="-register-all"]
Inductive task : Type :=
| load_2d_call (t z : nat)
| amax_blocks (group : list task)
| getitem_block (a : task) (y0 y1 x0 x1 : nat).

(** Running a task with its dependencies, the members of a group in the
    order of the graph (see [io] for what their order means). *)
Fixpoint run_task (w : world) (fl : list string) (k : task) {struct k}
  : io image :=
  match k with
  | load_2d_call t z => load_2d w fl t z
  | amax_blocks group =>
      imgs <- (fix run_all (l : list task) : io (list image) :=
                 match l with
                 | [] => io_ret []
                 | a :: l' =>
                     b <- run_task w fl a ;;
                     bs <- run_all l' ;;
                     io_ret (b :: bs)
                 end) group ;;
      io_lift (amax imgs)
  | getitem_block a y0 y1 x0 x1 =>
      img <- run_task w fl a ;;
      io_ret (crop img y0 y1 x0 x1)
  end.

(** A dask array: its grid of block tasks (nested once per stacked axis,
    one block per index there), its shape and element type. *)
Record darr (C : Type) : Type := mkDarr {
  blocks : C;
  shape : list nat;
  da_dtype : dtype
}.
Arguments mkDarr {C} _ _ _.
Arguments blocks {C} _.
Arguments shape {C} _.
Arguments da_dtype {C} _.

Definition shape_eqb (s1 s2 : list nat) : bool :=
  if list_eq_dec Nat.eq_dec s1 s2 then true else false.

(** [da.from_delayed(value, shape=..., dtype=...)]: one block, with the
    shape and dtype the caller declares. *)
Definition from_delayed (value : task) (shp : nat * nat) (dt : dtype)
  : darr task :=
  mkDarr value [fst shp; snd shp] dt.

(** [da.stack(seq)] along a new first axis: an empty sequence raises, and
    so do arrays of different shapes.  The notebook stacks arrays of one
    dtype. *)
Definition da_stack {C} (sq : list (darr C)) : result (darr (list C)) :=
  match sq with
  | [] => Raise (ValueError "Need array(s) to stack")
  | x :: _ =>
      if forallb (fun y => shape_eqb (shape y) (shape x)) sq
      then Ok (mkDarr (map blocks sq) (length sq :: shape x) (da_dtype x))
      else Raise (ValueError "Stacked arrays must have the same shape")
  end.

(** A list comprehension whose items may raise. *)
Fixpoint collect {A} (l : list (result A)) : result (list A) :=
  match l with
  | [] => Ok []
  | r :: l' => rbind r (fun a => rbind (collect l') (fun l'' => Ok (a :: l'')))
  end.

(** The lazy volume:
<<
    ims = da.stack([
            da.stack([
                da.from_delayed(load_2d(t, z), shape=(N_x, N_y), dtype=dtype)
                for z in range(N_z)])
            for t in range(N_t)])
>>
    with [load_2d = delayed(load_2d)], so that [load_2d(t, z)] is a task. *)
Definition ims (idx : frame_index) : result (darr (list (list task))) :=
  rbind
    (collect
       (map (fun t =>
               da_stack
                 (map (fun z =>
                         from_delayed (load_2d_call t z)
                                      (N_x idx, N_y idx) (fi_dtype idx))
                      (seq 0 (N_z idx))))
            (seq 0 (N_t idx))))
    da_stack.

(** [a[i]] with an integer on the first, stacked axis.  The result keeps
    the blocks the index selects and no others: the tasks of the other
    blocks are not part of its graph, so computing it does not run them. *)
Definition da_getitem {C} (a : darr (list C)) (i : Z) : result (darr C) :=
  rbind (getitem (blocks a) i)
        (fun b => Ok (mkDarr b (tl (shape a)) (da_dtype a))).

(** The length of [lo:hi] on an axis of extent [n]. *)
Definition slice_len (lo hi n : nat) : nat := Nat.min hi n - Nat.min lo n.

(** [a[y0:y1, x0:x1]] on a single 2-D block. *)
Definition da_getitem_yx (a : darr task) (y0 y1 x0 x1 : nat) : darr task :=
  mkDarr (getitem_block (blocks a) y0 y1 x0 x1)
         [slice_len y0 y1 (nth 0 (shape a) 0);
          slice_len x0 x1 (nth 1 (shape a) 0)]
         (da_dtype a).

(** [a[t0:t1, y0:y1, x0:x1]] on a stack of 2-D blocks. *)
Definition da_getitem_tyx (a : darr (list task)) (t0 t1 y0 y1 x0 x1 : nat)
  : darr (list task) :=
  mkDarr (map (fun b => getitem_block b y0 y1 x0 x1)
              (firstn (t1 - t0) (skipn t0 (blocks a))))
         [slice_len t0 t1 (nth 0 (shape a) 0);
          slice_len y0 y1 (nth 1 (shape a) 0);
          slice_len x0 x1 (nth 2 (shape a) 0)]
         (da_dtype a).

(** [a.compute()] *)
Definition compute (w : world) (fl : list string) (a : darr task)
  : io image :=
  run_task w fl (blocks a).

Definition compute_stack (w : world) (fl : list string)
  (a : darr (list task)) : io (list image) :=
  io_mapM (run_task w fl) (blocks a).

(** ** The depth projection [ims.max(1)] *)

(** An axis argument counted from the end when negative: [ims.max(-3)] and
    [ims.max(1)] name the same axis of a 4-D array. *)
Definition normalize_axis (axis : Z) (ndim : nat) : result nat :=
  norm_index axis ndim.

(** dask's default fan-in of a tree reduction over one axis. *)
Definition split_every : nat := 4.

(** Consecutive groups of at most [n] items ([partition_all]). *)
Fixpoint partition_all {A} (fuel n : nat) (l : list A) : list (list A) :=
  match fuel with
  | 0 => []
  | S fuel' =>
      match l with
      | [] => []
      | _ :: _ => firstn n l :: partition_all fuel' n (skipn n l)
      end
  end.

(** One level of the tree: every group of neighbouring blocks along the
    reduced axis becomes one block, their maximum. *)
Definition partial_reduce (l : list task) : list task :=
  map amax_blocks (partition_all (length l) split_every l).

(** The least [d] with [b ^ d >= n], for [n >= 1]: [ceil(log(n, b))]. *)
Fixpoint ceil_log (fuel b n : nat) : nat :=
  match fuel with
  | 0 => 0
  | S fuel' =>
      if n <=? 1 then 0 else S (ceil_log fuel' b ((n + b - 1) / b))
  end.

(** The number of levels dask plans for [n] blocks along the axis. *)
Definition tree_depth (n : nat) : nat :=
  Nat.max 1 (ceil_log n split_every n).

(** The blocks of one time point after the reduction over depth: the
    per-block maximum first, then [tree_depth] levels of grouping (the last
    one being the aggregation). *)
Definition reduce_depth (planes : list task) : list task :=
  Nat.iter (tree_depth (length planes)) partial_reduce
           (map (fun b => amax_blocks [b]) planes).

(** [a.max(1)] on the 4-D volume: the depth axis is reduced within each
    time point and dropped from the shape. *)
Definition da_max_axis1 (a : darr (list (list task))) : darr (list task) :=
  mkDarr (concat (map reduce_depth (blocks a)))
         (match shape a with
          | t :: _ :: rest => t :: rest
          | s => s
          end)
         (da_dtype a).

(** The maximum of a non-empty list of numbers, and the pointwise maximum
    over a slab of planes on the window [y0:y1, x0:x1]: what the projection
    is compared against. *)
Definition Zmax_list (first : Z) (rest : list Z) : Z :=
  fold_right Z.max first rest.

Definition slab_max (first : image) (rest : list image)
  (y0 y1 x0 x1 : nat) : image :=
  tabulate (y1 - y0) (x1 - x0)
           (fun y x => Zmax_list (pix first (y0 + y) (x0 + x))
                                 (map (fun p => pix p (y0 + y) (x0 + x)) rest)).

(** ** Block-wise filtering with an overlap margin *)

Module Overlap.
Section Stencil.

(** Pixels of any kind, and the result of the filter at one position. *)
Variables A B : Type.

(** A 2-D array as its shape and its rows. *)
Definition grid : Type := list (list A).

(** [a[r, c]] when the position is inside the array, nothing outside. *)
Definition at_pos (a : grid) (r c : Z) : option A :=
  if ((0 <=? r)%Z && (0 <=? c)%Z)%bool
  then match nth_error a (Z.to_nat r) with
       | Some row => nth_error row (Z.to_nat c)
       | None => None
       end
  else None.

(** A neighbourhood transform: the value at a position is computed from the
    array as seen from that position, offsets counted from it; what it does
    with offsets that fall off the array is its border policy. *)
Definition stencil : Type := (Z -> Z -> option A) -> B.

(** The support of the transform lies within [r] positions on each axis. *)
Definition support_within (k : stencil) (r : nat) : Prop :=
  forall v v' : Z -> Z -> option A,
    (forall dy dx : Z,
        (Z.abs dy <= Z.of_nat r)%Z -> (Z.abs dx <= Z.of_nat r)%Z ->
        v dy dx = v' dy dx) ->
    k v = k v'.

(** The transform applied to a whole array of shape [(R, C)]. *)
Definition apply_filter (k : stencil) (R C : nat) (a : grid)
  : list (list B) :=
  map (fun i =>
         map (fun j =>
                k (fun dy dx => at_pos a (Z.of_nat i + dy) (Z.of_nat j + dx)))
             (seq 0 C))
      (seq 0 R).

Definition window {X} (a : list (list X)) (y0 y1 x0 x1 : nat)
  : list (list X) :=
  map (fun row => firstn (x1 - x0) (skipn x0 row))
      (firstn (y1 - y0) (skipn y0 a)).

(** One region [y0:y1, x0:x1] of [da.map_overlap(f, a, depth=m)] on an
    array of shape [(R, C)]: the region is fetched with [m] more positions
    on every side, as far as the array goes; the transform runs on that
    block; the added margin is trimmed off. *)
Definition map_overlap_region (k : stencil) (m R C : nat) (a : grid)
  (y0 y1 x0 x1 : nat) : list (list B) :=
  let ylo := y0 - m in
  let yhi := Nat.min R (y1 + m) in
  let xlo := x0 - m in
  let xhi := Nat.min C (x1 + m) in
  let padded := window a ylo yhi xlo xhi in
  let filtered := apply_filter k (yhi - ylo) (xhi - xlo) padded in
  window filtered (y0 - ylo) (y1 - ylo) (x0 - xlo) (x1 - xlo).

End Stencil.

Arguments at_pos {A} a r c.
Arguments support_within {A B} k r.
Arguments apply_filter {A B} k R C a.
Arguments map_overlap_region {A B} k m R C a y0 y1 x0 x1.

(** A filter for the examples: the greatest value in the 3 x 3
    neighbourhood, positions off the array counting as 0 (a maximum filter
    of size 3 with a constant border). *)
Definition or_zero (o : option Z) : Z :=
  match o with Some x => x | None => 0%Z end.

Definition max3x3 : stencil Z Z :=
  fun v =>
    fold_right Z.max 0%Z
      (map (fun d => or_zero (v (fst d) (snd d)))
           (list_prod [(-1)%Z; 0%Z; 1%Z] [(-1)%Z; 0%Z; 1%Z])).

End Overlap.

(** ** The viewer [browse_images] *)

(** What [browse_images] needs of its argument: the extents of the axes
    before the last two ([ims.shape[:-2]]), and the plane [ims[pos]] for a
    tuple of integers over those axes, as the display call materializes
    it. *)
Record arraylike : Type := mkArraylike {
  scroll_shape : list nat;
  plane_at : list Z -> io image
}.

(** [shape[:-2]] *)
Definition leading_axes (shp : list nat) : list nat :=
  firstn (length shp - 2) shp.

(** The 4-D volume as the viewer sees it. *)
Definition volume_view (w : world) (fl : list string)
  (a : darr (list (list task))) : arraylike :=
  mkArraylike
    (leading_axes (shape a))
    (fun pos =>
       match pos with
       | [t; z] =>
           b <- io_lift (rbind (da_getitem a t) (fun r => da_getitem r z)) ;;
           compute w fl b
       | _ => io_raise (IndexError "unsupported index")
       end).

(** The 3-D projection as the viewer sees it. *)
Definition projection_view (w : world) (fl : list string)
  (a : darr (list task)) : arraylike :=
  mkArraylike
    (leading_axes (shape a))
    (fun pos =>
       match pos with
       | [t] => b <- io_lift (da_getitem a t) ;; compute w fl b
       | _ => io_raise (IndexError "unsupported index")
       end).

(** [kwargs[dim]] for a key of the dict. *)
Fixpoint dict_get (kwargs : list (string * Z)) (dim : string) : Z :=
  match kwargs with
  | [] => 0%Z
  | (k, v) :: rest => if String.eqb dim k then v else dict_get rest dim
  end.

(** The index tuple of [view_image]:
    [pos = tuple(kwargs[dim] for dim in sorted(kwargs))]. *)
Definition view_pos (kwargs : list (string * Z)) : list Z :=
  map (dict_get kwargs) (sorted (map fst kwargs)).

(** The callback:
<<
    def view_image( **kwargs ):
        pos = tuple(kwargs[dim] for dim in sorted(kwargs))
        plt.imshow(ims[tuple(pos)].T, ...)
>>
    The result is the array handed to [imshow]. *)
Definition view_image (a : arraylike) (kwargs : list (string * Z))
  : io image :=
  img <- plane_at a (view_pos kwargs) ;;
  io_ret (transpose img).

(** An integer slider of ipywidgets. *)
Record slider : Type := mkSlider {
  sl_name : string;
  sl_min : Z;
  sl_max : Z;
  sl_value : Z
}.

(** The name of the slider of axis [dim]: ['dim %s' % dim]. *)
Definition dim_name (dim : nat) : string :=
  String.append "dim " (str_of_nat dim).

(** The slider [interact] builds for axis [dim] from the abbreviation
    [(0, s - 1)]: it ranges over [0 .. s-1] and starts at
    [0 + (s - 1) // 2], the middle of its range.  For an axis without
    entries that value is -1, outside the range, and the widget is refused
    with a [ValueError]. *)
Definition make_slider (dim s : nat) : result slider :=
  let hi := (Z.of_nat s - 1)%Z in
  let v := (hi / 2)%Z in
  if ((0 <=? v)%Z && (v <=? hi)%Z)%bool
  then Ok (mkSlider (dim_name dim) 0 hi v)
  else Raise (ValueError "value must be between min and max").

(** The sliders [interact] builds from
    [{'dim %s' % dim: (0, s-1) for dim, s in enumerate(scroll_shape)}]:
    one per leading axis. *)
Definition make_sliders (scroll : list nat) : result (list slider) :=
  collect (map (fun '(dim, s) => make_slider dim s)
               (combine (seq 0 (length scroll)) scroll)).

(** The keyword arguments [interact] calls the callback with: every
    slider's current value under its name. *)
Definition slider_kwargs (st : list slider) : list (string * Z) :=
  map (fun s => (sl_name s, sl_value s)) st.

(** A bounded slider keeps its value inside its range: a value outside is
    replaced by the nearest bound. *)
Definition clamp (lo hi v : Z) : Z := Z.min (Z.max v lo) hi.

Definition slider_set (s : slider) (v : Z) : slider :=
  mkSlider (sl_name s) (sl_min s) (sl_max s) (clamp (sl_min s) (sl_max s) v).

Fixpoint update_nth {X} (n : nat) (f : X -> X) (l : list X) : list X :=
  match n, l with
  | _, [] => []
  | 0, x :: l' => f x :: l'
  | S n', x :: l' => x :: update_nth n' f l'
  end.

(** The browser's state is its sliders; [browse_images] fails where
    [interact] does. *)
Definition attach (a : arraylike) : result (list slider) :=
  make_sliders (scroll_shape a).

(** Moving the slider of [axis] to [v]: the slider takes the value, clamped
    to its range, and when that changes its value [interact] calls
    [view_image] with the values of all sliders; a slider set to the value
    it has notifies nobody, so nothing is displayed.  There is no slider
    to move for an axis past the leading ones. *)
Definition set_index (a : arraylike) (st : list slider) (axis : nat) (v : Z)
  : option (list slider * option (io image)) :=
  match nth_error st axis with
  | Some sl =>
      let st' := update_nth axis (fun s => slider_set s v) st in
      Some (st',
            if (sl_value (slider_set sl v) =? sl_value sl)%Z
            then None
            else Some (view_image a (slider_kwargs st')))
  | None => None
  end.

(** The positions the state holds, axis by axis. *)
Definition positions (st : list slider) : list Z := map sl_value st.

(** A concrete file-name matcher for the examples: [*] matches any run of
    characters, [?] one character, anything else itself. *)
Fixpoint wildcard (pat : list ascii) (s : list ascii) {struct pat} : bool :=
  match pat with
  | [] => match s with [] => true | _ => false end
  | c :: pat' =>
      if Ascii.eqb c "*"%char
      then (fix star (s : list ascii) : bool :=
              wildcard pat' s ||
              match s with [] => false | _ :: s' => star s' end) s
      else match s with
           | [] => false
           | d :: s' =>
               (Ascii.eqb c "?"%char || Ascii.eqb c d) && wildcard pat' s'
           end
  end.

Definition fnmatch (pattern name : string) : bool :=
  wildcard (list_ascii_of_string pattern) (list_ascii_of_string name).

(** ** Example datasets *)

Definition path_of (t : nat) : string :=
  String.append "data/large_3d_dataset_tp00"
                (String.append (str_of_nat t) ".tif").

Definition file_pattern : string := "data/large_3d_dataset_tp*.tif".

(** A stack of [Z] planes of shape [(Y, X)] whose pixels encode where they
    sit. *)
Definition synth_tiff (t Z Y X : nat) : tiff :=
  let plane z :=
    tabulate Y X (fun y x => Z.of_nat (1000 * t + 100 * z + 10 * y + x)) in
  mkTiff uint16 [Z] (plane 0) (map plane (seq 1 (Z - 1))).

(** Five files of three planes of shape 10 x 10 (and one stray file the
    pattern does not match), listed out of order. *)
Definition demo_world : world :=
  mkWorld
    [ (path_of 3, synth_tiff 3 3 10 10);
      (path_of 0, synth_tiff 0 3 10 10);
      ("data/notes.txt", synth_tiff 9 1 1 1);
      (path_of 4, synth_tiff 4 3 10 10);
      (path_of 1, synth_tiff 1 3 10 10);
      (path_of 2, synth_tiff 2 3 10 10) ]
    fnmatch
    (fun l => l).

(** The same five files, the third one with planes of shape 10 x 12. *)
Definition odd_world : world :=
  mkWorld
    [ (path_of 0, synth_tiff 0 3 10 10);
      (path_of 1, synth_tiff 1 3 10 10);
      (path_of 2, synth_tiff 2 3 10 12);
      (path_of 3, synth_tiff 3 3 10 10);
      (path_of 4, synth_tiff 4 3 10 10) ]
    fnmatch
    (fun l => l).

(** A directory without a matching file. *)
Definition empty_world : world :=
  mkWorld [ ("data/notes.txt", synth_tiff 9 1 1 1) ] fnmatch (fun l => l).

(** The scan result and the volume of [demo_world]. *)
Definition demo_index : frame_index :=
  mkIndex (map path_of (seq 0 5)) 5 3 10 10 uint16.

Definition demo_ims : darr (list (list task)) :=
  mkDarr (map (fun t => map (fun z => load_2d_call t z) (seq 0 3)) (seq 0 5))
         [5; 3; 10; 10] uint16.

(** What a consistency check over the matched files would compare: the
    page shape and element type of two files. *)
Definition plane_meta (f : tiff) : nat * nat * dtype :=
  (page_shape f, tif_dtype f).

Definition disagree (w : world) (p q : string) : Prop :=
  exists f g,
    lookup p (w_files w) = Some f /\ lookup q (w_files w) = Some g /\
    plane_meta f <> plane_meta g.

(** Every matched file is a stack of [Z] planes of shape [(Y, X)], as
    [tifffile.imwrite] stores a 3-D array. *)
Definition uniform_dataset (w : world) (pattern : string) (Z Y X : nat)
  : Prop :=
  forall p f,
    In p (glob w pattern) -> lookup p (w_files w) = Some f ->
    tif_axes f = [Z] /\
    length (tif_pages f) = Z /\ Forall (has_shape Y X) (tif_pages f).

(** A state of the browser attached to [a]: one slider per leading axis,
    named after the axis and ranging over the axis. *)
Definition tracks (a : arraylike) (st : list slider) : Prop :=
  map sl_name st = map dim_name (seq 0 (length (scroll_shape a))) /\
  map (fun s => (sl_min s, sl_max s)) st
  = map (fun s => (0%Z, (Z.of_nat s - 1)%Z)) (scroll_shape a).

(** The demo volume in the viewer. *)
Definition demo_view : arraylike :=
  volume_view demo_world (files demo_index) demo_ims.

(** The sliders of the demo volume as [interact] builds them. *)
Definition demo_sliders : list slider :=
  [ mkSlider "dim 0" 0 4 2; mkSlider "dim 1" 0 2 1 ].

(** [m] is the greatest of the numbers [l]. *)
Definition is_max (m : Z) (l : list Z) : Prop :=
  In m l /\ forall x, In x l -> (x <= m)%Z.

(** Running task [k] yields a block of shape [(Y, X)] that holds, at every
    position, the greatest value the planes [planes] have there. *)
Definition yields_max (w : world) (fl : list string) (Y X : nat)
  (k : task) (planes : list image) : Prop :=
  exists img,
    fst (run_task w fl k) = Ok img /\ has_shape Y X img /\
    forall y x, y < Y -> x < X ->
                is_max (pix img y x) (map (fun p => pix p y x) planes).

(** Running task [k] raises. *)
Definition fails (w : world) (fl : list string) (k : task) : Prop :=
  exists e, fst (run_task w fl k) = Raise e.

(** One level of grouping on block counts. *)
Definition ceil_div4 (n : nat) : nat := (n + split_every - 1) / split_every.

(** The block of time point [t] in the projection. *)
Definition projection_block (t nz : nat) : task :=
  hd (amax_blocks [])
     (reduce_depth (map (fun z => load_2d_call t z) (seq 0 nz))).

(** ** Writing the timelapse *)

(** ['%03d' % t]: the decimal digits of [t], padded with zeros on the left
    to three characters; longer numbers are printed in full. *)
Definition pad3 (t : nat) : string :=
  let digits := str_of_nat t in
  String.append
    (string_of_list_ascii (repeat "0"%char (3 - String.length digits)))
    digits.

(** [file_pattern % t] with
    [file_pattern = 'data/large_3d_dataset_tp%03d.tif']. *)
Definition tp_name (t : nat) : string :=
  String.append "data/large_3d_dataset_tp" (String.append (pad3 t) ".tif").

(** ** Browsing *)

(** Every position of the state lies on its axis. *)
Definition in_range (a : arraylike) (st : list slider) : Prop :=
  Forall2 (fun s v => (0 <= v <= Z.of_nat s - 1)%Z)
          (scroll_shape a) (positions st).

(** The array materializes a plane at every index tuple within the bounds
    of its leading axes. *)
Definition answers (a : arraylike) : Prop :=
  forall pos,
    Forall2 (fun s v => (0 <= v <= Z.of_nat s - 1)%Z) (scroll_shape a) pos ->
    exists img log, plane_at a pos = (Ok img, log).

(** A session with the viewer: the sliders are moved one after the other;
    a move addressed to an axis that has no slider moves nothing. *)
Fixpoint browse (a : arraylike) (st : list slider) (moves : list (nat * Z))
  : list slider :=
  match moves with
  | [] => st
  | (axis, v) :: rest =>
      match set_index a st axis v with
      | Some (st', _) => browse a st' rest
      | None => browse a st rest
      end
  end.

(** ** Local background subtraction *)

(** A value stored as [int32]: the arithmetic wraps around. *)
Definition wrap_int32 (v : Z) : Z :=
  ((v + 2 ^ 31) mod 2 ^ 32 - 2 ^ 31)%Z.

(** The border mode ['reflect'] of scipy's filters, the default: a position
    off an axis of [n] entries stands for its mirror image about the edge
    of the array (d c b a | a b c d | d c b a). *)
Definition reflect (i : Z) (n : nat) : nat :=
  let p := (i mod (2 * Z.of_nat n))%Z in
  Z.to_nat (if (p <? Z.of_nat n)%Z then p else (2 * Z.of_nat n - 1 - p)%Z).

(** The least of a list of numbers. *)
Definition Zmin_list (l : list Z) : Z :=
  match l with
  | [] => 0%Z
  | v :: vs => fold_left Z.min vs v
  end.

(** [minimum_filter(a, size=(sy, sx))] on one plane: every entry becomes
    the least value in the [sy] x [sx] window around it, which starts
    [size // 2] before the entry on each axis. *)
Definition minimum_filter (sy sx : nat) (a : image) : image :=
  tabulate (nrows a) (ncols a)
    (fun y x =>
       Zmin_list
         (flat_map
            (fun i =>
               map (fun j =>
                      pix a
                          (reflect (Z.of_nat y + Z.of_nat i
                                    - Z.of_nat (sy / 2)) (nrows a))
                          (reflect (Z.of_nat x + Z.of_nat j
                                    - Z.of_nat (sx / 2)) (ncols a)))
                   (seq 0 sx))
            (seq 0 sy))).

(** [a.astype(np.int32) - b] on planes of one shape. *)
Definition sub_int32 (a b : image) : image :=
  zip_with (zip_with (fun u v => wrap_int32 (wrap_int32 u - v))) a b.

(** [np.clip(a, lo, hi)] *)
Definition np_clip (lo hi : Z) (a : image) : image :=
  map (map (clamp lo hi)) a.

(** One plane of
<<
    ims_mod = ims.astype(np.int32) - ndfilters.minimum_filter(ims, size=(1, 1, 30, 30))
    ims_mod = np.clip(ims_mod, 0, 2**16 - 1)
>>
    The window has extent 1 along time and depth, so every plane is
    filtered on its own.  This describes planes of at least 15 x 15
    entries, the margin dask-image asks of a block for this window. *)
Definition background_subtracted (a : image) : image :=
  np_clip 0 (2 ^ 16 - 1) (sub_int32 a (minimum_filter 30 30 a)).

(** ** Arrays cut into chunks *)

Module Blocks.

(** The bounds [(lo, hi)] of the chunks of size [c] along an axis of [n]
    entries, from position [lo] on; the last chunk is shorter when [c]
    does not divide [n]. *)
Fixpoint chunk_bounds (fuel c lo n : nat) : list (nat * nat) :=
  match fuel with
  | 0 => []
  | S fuel' =>
      if lo <? n
      then (lo, Nat.min (lo + c) n) :: chunk_bounds fuel' c (lo + c) n
      else []
  end.

(** Blocks of equally many rows put side by side. *)
Fixpoint hstack {X} (blocks : list (list (list X))) : list (list X) :=
  match blocks with
  | [] => []
  | [b] => b
  | b :: bs => zip_with (@app X) b (hstack bs)
  end.

(** The array put together from its chunks: the chunks of a row of chunks
    side by side, the rows of chunks one below the other. *)
Definition assemble {X} (region : nat -> nat -> nat -> nat -> list (list X))
  (R C cy cx : nat) : list (list X) :=
  concat
    (map (fun ys =>
            hstack (map (fun xs => region (fst ys) (snd ys) (fst xs) (snd xs))
                        (chunk_bounds C cx 0 C)))
         (chunk_bounds R cy 0 R)).

Section Mapping.

Variables A B : Type.

(** One chunk [y0:y1, x0:x1] of [da.map_blocks(f, a)]: the transform runs
    on the chunk alone. *)
Definition map_blocks_region (k : Overlap.stencil A B)
  (a : Overlap.grid A) (y0 y1 x0 x1 : nat) : list (list B) :=
  Overlap.apply_filter k (y1 - y0) (x1 - x0) (Overlap.window a y0 y1 x0 x1).

(** [da.map_overlap(f, a, depth=m).compute()] on an array of shape
    [(R, C)] held in chunks of [cy] x [cx] entries. *)
Definition map_overlap (k : Overlap.stencil A B) (m R C : nat)
  (a : Overlap.grid A) (cy cx : nat) : list (list B) :=
  assemble (Overlap.map_overlap_region k m R C a) R C cy cx.

(** [da.map_blocks(f, a).compute()] *)
Definition map_blocks (k : Overlap.stencil A B) (R C : nat)
  (a : Overlap.grid A) (cy cx : nat) : list (list B) :=
  assemble (map_blocks_region k a) R C cy cx.

End Mapping.

Arguments map_blocks_region {A B} k a y0 y1 x0 x1.
Arguments map_overlap {A B} k m R C a cy cx.
Arguments map_blocks {A B} k R C a cy cx.

End Blocks.

(** ** The synthetic timelapse on disk *)

(** [img[:, :, a:b]] on a stack of planes. *)
Definition slice_columns (img : list image) (a b : nat) : list image :=
  map (map (fun row => firstn (b - a) (skipn a row))) img.

(** The stack of one time point:
    [curr_tp = img[:, :, dx * t: dx * t + N_xy]]. *)
Definition curr_tp (img : list image) (dx N_xy t : nat) : list image :=
  slice_columns img (dx * t) (dx * t + N_xy).

(** The file at [p] is created, or replaced where it is. *)
Fixpoint put_file (p : string) (f : tiff) (fs : list (string * tiff))
  : list (string * tiff) :=
  match fs with
  | [] => [(p, f)]
  | (q, g) :: fs' =>
      if String.eqb p q then (q, f) :: fs' else (q, g) :: put_file p f fs'
  end.

(** [tifffile.imwrite(path, data)] for a stack of grey planes: the file
    holds one page per plane and one series, of the shape of the stack.
    This describes the stacks tifffile stores
    that way whatever its version: those of which neither the number of
    planes nor the width is 3 or 4, which it can take for colour samples.
    A stack without planes has no file in this model and counts as a
    failed write. *)
Definition imwrite (w : world) (path : string) (dt : dtype)
  (data : list image) : result world :=
  match data with
  | [] => Raise (ValueError "cannot write an empty stack")
  | p0 :: more =>
      Ok (mkWorld (put_file path (mkTiff dt [length data] p0 more)
                            (w_files w))
                  (w_fnmatch w) (w_seq_order w))
  end.

(** The loop of the writing cell over the time points [ts]:
<<
    for t in tqdm(range(N_t)):
        curr_tp = img[:, :, dx * t: dx * t + N_xy]
        tifffile.imwrite(file_pattern %t, curr_tp)
>> *)
Fixpoint write_frames (w : world) (img : list image) (dt : dtype)
  (dx N_xy : nat) (ts : list nat) : result world :=
  match ts with
  | [] => Ok w
  | t :: ts' =>
      rbind (imwrite w (tp_name t) dt (curr_tp img dx N_xy t))
            (fun w' => write_frames w' img dt dx N_xy ts')
  end.

Definition write_timelapse (w : world) (img : list image) (dt : dtype)
  (dx N_xy N_t : nat) : result world :=
  write_frames w img dt dx N_xy (seq 0 N_t).

(** The file the loop writes for time point [t]. *)
Definition frame_file (img : list image) (dt : dtype) (dx N_xy t : nat)
  : tiff :=
  mkTiff dt [length img]
         (hd [] (curr_tp img dx N_xy t)) (tl (curr_tp img dx N_xy t)).

(** ** What the volume is compared against *)

(** Plane [z] of the [t]-th file of a path list, read directly: the path
    and the buffer, or nothing when the list has no [t]-th path, or the
    file is missing, or it has no page [z]. *)
Definition direct_read (w : world) (fl : list string) (t z : nat)
  : option (string * image) :=
  match nth_error fl t with
  | Some p =>
      match lookup p (w_files w) with
      | Some f =>
          match nth_error (tif_pages f) z with
          | Some img => Some (p, img)
          | None => None
          end
      | None => None
      end
  | None => None
  end.

(** Two stacks of 10 x 10 planes, the first of six planes and the second
    of five. *)
Definition short_world : world :=
  mkWorld
    [ (path_of 0, synth_tiff 0 6 10 10);
      (path_of 1, synth_tiff 1 5 10 10) ]
    fnmatch
    (fun l => l).

Definition short_index : frame_index :=
  mkIndex (map path_of (seq 0 2)) 2 6 10 10 uint16.

Definition short_ims : darr (list (list task)) :=
  mkDarr (map (fun t => map (fun z => load_2d_call t z) (seq 0 6)) (seq 0 2))
         [2; 6; 10; 10] uint16.

(** Two stacks of a single 10 x 10 plane each. *)
Definition thin_world : world :=
  mkWorld
    [ (path_of 0, synth_tiff 0 1 10 10);
      (path_of 1, synth_tiff 1 1 10 10) ]
    fnmatch
    (fun l => l).

Definition thin_index : frame_index :=
  mkIndex (map path_of (seq 0 2)) 2 1 10 10 uint16.

Definition thin_ims : darr (list (list task)) :=
  mkDarr (map (fun t => map (fun z => load_2d_call t z) (seq 0 1)) (seq 0 2))
         [2; 1; 10; 10] uint16.

(** One file whose first series is 4-D: two time points of three planes of
    shape 10 x 10, on six pages. *)
Definition hyper_tiff : tiff :=
  let plane z :=
    tabulate 10 10 (fun y x => Z.of_nat (100 * z + 10 * y + x)) in
  mkTiff uint16 [2; 3] (plane 0) (map plane (seq 1 5)).

Definition hyper_world : world :=
  mkWorld [ (path_of 0, hyper_tiff) ] fnmatch (fun l => l).

(** * Properties *)

(** ** String order and [sorted] *)

Lemma nat_of_ascii_inj (c d : ascii) :
  nat_of_ascii c = nat_of_ascii d -> c = d.
Proof.
  intros H.
  rewrite <- (ascii_nat_embedding c), <- (ascii_nat_embedding d).
  now rewrite H.
Qed.

Lemma str_lt_lex (a b : string) : str_lt a b = true -> lex_lt a b.
Proof.
  revert b; induction a as [|x a IH]; intros [|y b]; simpl; try discriminate.
  - intros _. constructor.
  - destruct (Nat.ltb_spec (nat_of_ascii x) (nat_of_ascii y)) as [Hlt|Hge].
    + intros _. now apply lex_head.
    + destruct (Nat.ltb_spec (nat_of_ascii y) (nat_of_ascii x)) as [Hgt|Hle];
        [discriminate|].
      intros H.
      assert (x = y) by (apply nat_of_ascii_inj; lia).
      subst y. apply lex_tail. now apply IH.
Qed.

Lemma str_lt_total (a b : string) : str_lt a b = false -> lex_le b a.
Proof.
  revert b; induction a as [|x a IH]; intros [|y b]; simpl; try discriminate.
  - intros _. now left.
  - intros _. right. constructor.
  - destruct (Nat.ltb_spec (nat_of_ascii x) (nat_of_ascii y)) as [Hlt|Hge];
      [discriminate|].
    destruct (Nat.ltb_spec (nat_of_ascii y) (nat_of_ascii x)) as [Hgt|Hle].
    + intros _. right. now apply lex_head.
    + intros H.
      assert (x = y) by (apply nat_of_ascii_inj; lia).
      subst y.
      destruct (IH b H) as [->|Hlt]; [now left|right; now apply lex_tail].
Qed.

Lemma lex_lt_trans (a b c : string) : lex_lt a b -> lex_lt b c -> lex_lt a c.
Proof.
  intros Hab; revert c.
  induction Hab as [x s|x y s t Hxy|x s t Hst IH]; intros c Hbc;
    inversion Hbc; subst.
  - constructor.
  - constructor.
  - apply lex_head; lia.
  - now apply lex_head.
  - now apply lex_head.
  - apply lex_tail. now apply IH.
Qed.

Lemma lex_le_trans (a b c : string) : lex_le a b -> lex_le b c -> lex_le a c.
Proof.
  intros [->|Hab] [->|Hbc]; try (now left); try (now right).
  right. eapply lex_lt_trans; eauto.
Qed.

Lemma insort_perm (x : string) (l : list string) :
  Permutation (insort x l) (x :: l).
Proof.
  induction l as [|y l IH]; simpl; [reflexivity|].
  destruct (str_lt y x); [|reflexivity].
  rewrite IH. apply perm_swap.
Qed.

Lemma insort_hd (x y : string) (l : list string) :
  lex_le y x -> HdRel lex_le y l -> HdRel lex_le y (insort x l).
Proof.
  intros Hyx Hl. destruct l as [|z l]; simpl.
  - now constructor.
  - destruct (str_lt z x); constructor; auto.
    now inversion Hl.
Qed.

Lemma insort_sorted (x : string) (l : list string) :
  Sorted lex_le l -> Sorted lex_le (insort x l).
Proof.
  induction 1 as [|y l Hs IH Hhd]; simpl.
  - repeat constructor.
  - destruct (str_lt y x) eqn:E.
    + constructor; [assumption|].
      apply insort_hd; [right; now apply str_lt_lex | assumption].
    + constructor; [now constructor|].
      constructor. now apply str_lt_total.
Qed.

Lemma sorted_perm (l : list string) : Permutation (sorted l) l.
Proof.
  induction l as [|x l IH]; simpl; [reflexivity|].
  rewrite insort_perm. now constructor.
Qed.

Lemma sorted_is_sorted (l : list string) : StronglySorted lex_le (sorted l).
Proof.
  apply Sorted_StronglySorted.
  - intros a b c. apply lex_le_trans.
  - induction l as [|x l IH]; simpl; [constructor|].
    now apply insort_sorted.
Qed.

Lemma sorted_length (l : list string) : length (sorted l) = length l.
Proof. apply Permutation_length, sorted_perm. Qed.

(** ** Indexing *)

Lemma getitem_nat {A} (l : list A) (n : nat) (a : A) :
  nth_error l n = Some a -> getitem l (Z.of_nat n) = Ok a.
Proof.
  intros H.
  assert (Hn : n < length l) by (apply nth_error_Some; congruence).
  unfold getitem, norm_index.
  destruct (Z.ltb_spec (Z.of_nat n) 0); [lia|].
  destruct (Z.leb_spec 0 (Z.of_nat n)); [|lia].
  destruct (Z.ltb_spec (Z.of_nat n) (Z.of_nat (length l))); [|lia].
  simpl. now rewrite Nat2Z.id, H.
Qed.

Lemma getitem_out_of_range {A} (l : list A) (i : Z) :
  (i < - Z.of_nat (length l) \/ Z.of_nat (length l) <= i)%Z ->
  getitem l i = Raise (IndexError "index out of range").
Proof.
  intros H. unfold getitem, norm_index.
  destruct (Z.ltb_spec i 0).
  - destruct (Z.leb_spec 0 (i + Z.of_nat (length l))); [lia|]. reflexivity.
  - destruct (Z.leb_spec 0 i); [|lia].
    destruct (Z.ltb_spec i (Z.of_nat (length l))); [lia|]. reflexivity.
Qed.

(** ** The scan *)

Lemma lookup_in (p : string) (fs : list (string * tiff)) :
  In p (map fst fs) -> exists f, lookup p fs = Some f.
Proof.
  induction fs as [|[q g] fs IH]; simpl; [tauto|].
  intros [<-|Hin].
  - rewrite String.eqb_refl. eauto.
  - destruct (String.eqb p q); eauto.
Qed.

Lemma glob_in (w : world) (pattern p : string) :
  In p (glob w pattern) -> exists f, lookup p (w_files w) = Some f.
Proof.
  unfold glob. intros H. apply filter_In in H. now apply lookup_in.
Qed.

Lemma sorted_glob_in (w : world) (pattern p : string) (t : nat) :
  nth_error (sorted (glob w pattern)) t = Some p ->
  exists f, lookup p (w_files w) = Some f.
Proof.
  intros H. apply nth_error_In in H.
  apply (glob_in w pattern).
  eapply Permutation_in; [apply sorted_perm|exact H].
Qed.

(** The file list of a scan that succeeds is the sorted list of the
    matching paths. *)
Lemma scan_files (w : world) (pattern : string) (idx : frame_index) :
  scan w pattern = Ok idx -> files idx = sorted (glob w pattern).
Proof.
  unfold scan. destruct (imread_aszarr w pattern) as [[shp dt]|e]; simpl;
    [|discriminate].
  destruct shp as [|a [|b [|c [|d [|e shp]]]]]; try discriminate.
  now intros [= <-].
Qed.

(** When the scan succeeds, either several files matched and the first
    series of the file the shape was read from is a stack, or one file
    matched and its first series is 4-D: otherwise the shape does not
    unpack into four names. *)
Lemma scan_ok_inv (w : world) (pattern : string) (idx : frame_index) :
  scan w pattern = Ok idx ->
  (exists f nz,
      2 <= length (glob w pattern) /\
      lookup (hd EmptyString (w_seq_order w (glob w pattern))) (w_files w)
        = Some f /\
      tif_axes f = [nz] /\
      idx = mkIndex (sorted (glob w pattern)) (length (glob w pattern))
                    nz (nrows (tif_page0 f)) (ncols (tif_page0 f))
                    (tif_dtype f)) \/
  (exists p f nt nz,
      glob w pattern = [p] /\ lookup p (w_files w) = Some f /\
      tif_axes f = [nt; nz] /\
      idx = mkIndex [p] nt nz (nrows (tif_page0 f)) (ncols (tif_page0 f))
                    (tif_dtype f)).
Proof.
  unfold scan, imread_aszarr.
  destruct (glob w pattern) as [|p [|q ps]] eqn:G; simpl.
  - discriminate.
  - unfold open_tiff. destruct (lookup p (w_files w)) as [f|] eqn:L; simpl;
      [|discriminate].
    unfold series_shape.
    destruct (tif_axes f) as [|a [|b [|c [|d [|e l]]]]] eqn:A; simpl;
      try discriminate.
    intros [= <-]. right. exists p, f, a, b. auto.
  - unfold open_tiff.
    destruct (lookup _ (w_files w)) as [f|] eqn:L; simpl; [|discriminate].
    unfold series_shape.
    destruct (tif_axes f) as [|a [|b [|c [|d l]]]] eqn:A; simpl;
      try discriminate.
    intros [= <-]. left. exists f, a.
    split; [lia|]. split; [reflexivity|]. split; [exact A|reflexivity].
Qed.

Lemma scan_ok_intro (w : world) (pattern : string) (f : tiff) (nz : nat) :
  2 <= length (glob w pattern) ->
  lookup (hd EmptyString (w_seq_order w (glob w pattern))) (w_files w)
    = Some f ->
  tif_axes f = [nz] ->
  scan w pattern =
  Ok (mkIndex (sorted (glob w pattern)) (length (glob w pattern))
              nz (nrows (tif_page0 f)) (ncols (tif_page0 f)) (tif_dtype f)).
Proof.
  unfold scan, imread_aszarr.
  destruct (glob w pattern) as [|p [|q ps]] eqn:G; simpl; try lia.
  intros _ L A. unfold open_tiff. rewrite L. simpl.
  unfold series_shape. rewrite A. reflexivity.
Qed.

(** The file the shape is read from is one of the matching files. *)
Lemma header_in_glob (w : world) (pattern : string) :
  world_ok w -> glob w pattern <> [] ->
  In (hd EmptyString (w_seq_order w (glob w pattern))) (glob w pattern).
Proof.
  intros Hw Hne. eapply Permutation_in; [apply Hw|].
  pose proof (Permutation_length (Hw (glob w pattern))) as HL.
  destruct (w_seq_order w (glob w pattern)); simpl in *; [|now left].
  destruct (glob w pattern); [congruence|discriminate].
Qed.

(** Over a dataset of stacks of one shape the scan reports that shape. *)
Lemma scan_uniform (w : world) (pattern : string) (idx : frame_index)
  (nz Y X : nat) :
  world_ok w -> scan w pattern = Ok idx ->
  1 <= Y -> uniform_dataset w pattern nz Y X ->
  2 <= length (glob w pattern) /\
  files idx = sorted (glob w pattern) /\
  N_t idx = length (glob w pattern) /\
  N_z idx = nz /\ N_x idx = Y /\ N_y idx = X /\ 1 <= nz.
Proof.
  intros Hw Hs HY HU.
  destruct (scan_ok_inv _ _ _ Hs)
    as [[f [n [H2 [Hf [Hax Hidx]]]]]|[p [f [nt [n [G [Hf [Hax _]]]]]]]].
  - assert (Hin : In (hd EmptyString (w_seq_order w (glob w pattern)))
                     (glob w pattern)).
    { apply header_in_glob; [assumption|].
      destruct (glob w pattern); [simpl in H2; lia|discriminate]. }
    destruct (HU _ _ Hin Hf) as [Hax' [HZ HP]].
    assert (Hp0 : has_shape Y X (tif_page0 f)) by now inversion HP.
    destruct Hp0 as [HL HR].
    assert (Hc : ncols (tif_page0 f) = X).
    { unfold ncols. destruct (tif_page0 f) as [|row img]; simpl in *; [lia|].
      now inversion HR. }
    assert (En : n = nz) by congruence.
    rewrite Hidx. simpl. unfold nrows.
    repeat split; try assumption.
    unfold tif_pages in HZ. simpl in HZ. lia.
  - assert (Hin : In p (glob w pattern)) by (rewrite G; now left).
    destruct (HU _ _ Hin Hf) as [Hax' _]. congruence.
Qed.

(** ** Building the volume *)

Lemma collect_map {A B} (f : A -> result B) (g : A -> B) (l : list A) :
  (forall x, In x l -> f x = Ok (g x)) ->
  collect (map f l) = Ok (map g l).
Proof.
  induction l as [|x l IH]; simpl; intros H; [reflexivity|].
  rewrite (H x (or_introl eq_refl)). simpl.
  rewrite IH by (intros; apply H; now right). reflexivity.
Qed.

Lemma shape_eqb_refl (s : list nat) : shape_eqb s s = true.
Proof. unfold shape_eqb. destruct (list_eq_dec Nat.eq_dec s s); congruence. Qed.

Lemma da_stack_uniform {C} (sq : list (darr C)) (s : list nat) (d : dtype) :
  sq <> [] ->
  (forall y, In y sq -> shape y = s /\ da_dtype y = d) ->
  da_stack sq = Ok (mkDarr (map blocks sq) (length sq :: s) d).
Proof.
  destruct sq as [|x sq]; [congruence|]. intros _ H.
  unfold da_stack.
  destruct (H x (or_introl eq_refl)) as [Hs Hd].
  replace (forallb _ (x :: sq)) with true.
  - now rewrite Hs, Hd.
  - symmetry. apply forallb_forall. intros y Hy.
    destruct (H y Hy) as [-> _]. rewrite Hs. apply shape_eqb_refl.
Qed.

Lemma seq_not_nil (n : nat) {A} (f : nat -> A) :
  1 <= n -> map f (seq 0 n) <> [].
Proof. destruct n; [lia|]. simpl. discriminate. Qed.

(** The grid of tasks of the volume and its shape. *)
Lemma ims_ok (idx : frame_index) :
  1 <= N_t idx -> 1 <= N_z idx ->
  ims idx =
  Ok (mkDarr (map (fun t => map (fun z => load_2d_call t z)
                                (seq 0 (N_z idx)))
                  (seq 0 (N_t idx)))
             [N_t idx; N_z idx; N_x idx; N_y idx]
             (fi_dtype idx)).
Proof.
  intros Ht Hz. unfold ims.
  rewrite (collect_map _
             (fun t => mkDarr (map (fun z => load_2d_call t z)
                                   (seq 0 (N_z idx)))
                              [N_z idx; N_x idx; N_y idx] (fi_dtype idx))).
  - simpl. rewrite (da_stack_uniform _ [N_z idx; N_x idx; N_y idx]
                                     (fi_dtype idx)).
    + now rewrite map_map, length_map, length_seq.
    + now apply seq_not_nil.
    + intros y Hy. apply in_map_iff in Hy. destruct Hy as [t [<- _]].
      now split.
  - intros t _.
    rewrite (da_stack_uniform _ [N_x idx; N_y idx] (fi_dtype idx)).
    + now rewrite map_map, length_map, length_seq.
    + now apply seq_not_nil.
    + intros y Hy. apply in_map_iff in Hy. destruct Hy as [z [<- _]].
      now split.
Qed.

Lemma nth_error_map_seq {A} (f : nat -> A) (n i : nat) :
  i < n -> nth_error (map f (seq 0 n)) i = Some (f i).
Proof.
  intros H. rewrite nth_error_map, nth_error_seq.
  destruct (Nat.ltb_spec i n); [reflexivity|lia].
Qed.

(** [ims[t, z]] is the block of the delayed call [load_2d(t, z)]. *)
Lemma ims_getitem (idx : frame_index) (a : darr (list (list task)))
  (t z : nat) :
  ims idx = Ok a -> t < N_t idx -> z < N_z idx ->
  rbind (da_getitem a (Z.of_nat t)) (fun r => da_getitem r (Z.of_nat z))
  = Ok (mkDarr (load_2d_call t z) [N_x idx; N_y idx] (fi_dtype idx)).
Proof.
  intros Ha Ht Hz. rewrite ims_ok in Ha by lia. injection Ha as <-.
  unfold da_getitem. simpl.
  erewrite getitem_nat
    by (rewrite nth_error_map_seq by assumption; reflexivity).
  simpl.
  erewrite getitem_nat
    by (rewrite nth_error_map_seq by assumption; reflexivity).
  reflexivity.
Qed.

(** One run of the reader: the page when the file has it, [IndexError]
    and no read otherwise. *)
Lemma load_2d_run (w : world) (fl : list string) (t z : nat) (p : string)
  (f : tiff) :
  nth_error fl t = Some p ->
  lookup p (w_files w) = Some f ->
  load_2d w fl t z =
  match nth_error (tif_pages f) z with
  | Some img => (Ok img, [PageRead p z])
  | None => (Raise (IndexError "index out of range"), [])
  end.
Proof.
  intros Hp Hf. unfold load_2d.
  rewrite (getitem_nat _ _ _ Hp).
  unfold io_bind at 1. simpl.
  unfold open_tiff. rewrite Hf.
  unfold io_bind at 1. simpl.
  destruct (nth_error (tif_pages f) z) as [img|] eqn:E.
  - rewrite (getitem_nat _ _ _ E). reflexivity.
  - rewrite getitem_out_of_range; [reflexivity|].
    apply nth_error_None in E. lia.
Qed.

(** ** Single planes of the volume *)

Lemma firstn_whole {A} (l : list A) (n : nat) : length l = n -> firstn n l = l.
Proof. intros <-. apply firstn_all. Qed.

Lemma crop_full (Y X : nat) (img : image) :
  has_shape Y X img -> crop img 0 Y 0 X = img.
Proof.
  intros [HY HX]. unfold crop. rewrite !Nat.sub_0_r. simpl.
  rewrite (firstn_whole _ _ HY).
  clear HY. induction HX as [|row img Hrow _ IH]; simpl; [reflexivity|].
  now rewrite (firstn_whole _ _ Hrow), IH.
Qed.

Lemma has_shape_ncols (Y X : nat) (img : image) :
  1 <= Y -> has_shape Y X img -> nrows img = Y /\ ncols img = X.
Proof.
  intros HY [HL HR]. split; [exact HL|].
  unfold ncols. destruct img as [|row img]; simpl in *; [lia|].
  now inversion HR.
Qed.

Lemma scan_files_nth (w : world) (pattern : string) (idx : frame_index)
  (t : nat) :
  scan w pattern = Ok idx -> 2 <= length (glob w pattern) -> t < N_t idx ->
  files idx = sorted (glob w pattern) /\
  exists p f, nth_error (files idx) t = Some p /\
              lookup p (w_files w) = Some f.
Proof.
  intros Hs H2 Ht. pose proof (scan_files _ _ _ Hs) as Hfl.
  split; [exact Hfl|]. rewrite Hfl.
  destruct (scan_ok_inv _ _ _ Hs)
    as [[f0 [n [_ [_ [_ Hidx]]]]]|[p [f0 [nt [n [G _]]]]]].
  - rewrite Hidx in Ht. simpl in Ht.
    destruct (nth_error (sorted (glob w pattern)) t) as [p|] eqn:E.
    + destruct (sorted_glob_in _ _ _ _ E) as [f Hf]. eauto.
    + apply nth_error_None in E. rewrite sorted_length in E. lia.
  - rewrite G in H2. simpl in H2. lia.
Qed.

(** One run of the reader over a list of paths that are all files: the
    page read directly, or [IndexError] and no read. *)
Lemma load_2d_direct (w : world) (fl : list string) (t z : nat) :
  (forall p, In p fl -> exists f, lookup p (w_files w) = Some f) ->
  load_2d w fl t z =
  match direct_read w fl t z with
  | Some (p, img) => (Ok img, [PageRead p z])
  | None => (Raise (IndexError "index out of range"), [])
  end.
Proof.
  intros Hfl. unfold direct_read.
  destruct (nth_error fl t) as [p|] eqn:Ep.
  - destruct (Hfl p (nth_error_In _ _ Ep)) as [f Hf].
    rewrite (load_2d_run _ _ _ _ _ _ Ep Hf), Hf.
    destruct (nth_error (tif_pages f) z); reflexivity.
  - unfold load_2d. rewrite getitem_out_of_range; [reflexivity|].
    apply nth_error_None in Ep. lia.
Qed.

Lemma sorted_glob_files (w : world) (pattern p : string) :
  In p (sorted (glob w pattern)) -> exists f, lookup p (w_files w) = Some f.
Proof.
  intros H. apply (glob_in w pattern).
  eapply Permutation_in; [apply sorted_perm|exact H].
Qed.

(** A volume is built only from a frame index with at least one time point
    and one plane. *)
Lemma ims_extents (idx : frame_index) (a : darr (list (list task))) :
  ims idx = Ok a -> 1 <= N_t idx /\ 1 <= N_z idx.
Proof.
  unfold ims. destruct (N_t idx) as [|nt] eqn:ET; [discriminate|].
  destruct (N_z idx) as [|nz] eqn:EZ; [discriminate|]. lia.
Qed.

(** C1, as the code has it.  For every [(t, z)] inside a built volume,
    computing [ims[t, z]] is one run of the reader on [(t, z)].  When the
    sorted path list has a [t]-th file and that file has a page [z], it
    returns the very buffer of that page and the log of the computation is
    the one read of that page of that file.  Otherwise it raises
    [IndexError] and reads nothing: the plane count of the volume comes
    from one file only, and with a single matching file so does the number
    of time points. *)
Theorem single_plane_compute (w : world) (pattern : string)
  (idx : frame_index) (a : darr (list (list task))) (t z : nat) :
  scan w pattern = Ok idx -> ims idx = Ok a ->
  t < N_t idx -> z < N_z idx ->
  exists b,
    rbind (da_getitem a (Z.of_nat t)) (fun r => da_getitem r (Z.of_nat z))
      = Ok b /\
    match direct_read w (sorted (glob w pattern)) t z with
    | Some (p, img) => compute w (files idx) b = (Ok img, [PageRead p z])
    | None => exists msg, compute w (files idx) b = (Raise (IndexError msg), [])
    end.
Proof.
  intros Hs Ha Ht Hz.
  eexists. split; [apply (ims_getitem idx); assumption|].
  unfold compute. cbn [blocks run_task].
  rewrite (scan_files _ _ _ Hs).
  rewrite (load_2d_direct w (sorted (glob w pattern)) t z)
    by apply sorted_glob_files.
  destruct (direct_read w (sorted (glob w pattern)) t z) as [[p img]|];
    [reflexivity|eauto].
Qed.

Lemma single_plane_compute_witness :
  exists b,
    rbind (da_getitem demo_ims 2) (fun r => da_getitem r 1) = Ok b /\
    compute demo_world (files demo_index) b
    = (Ok (tabulate 10 10
             (fun y x => Z.of_nat (1000 * 2 + 100 * 1 + 10 * y + x))),
       [PageRead (path_of 2) 1]).
Proof.
  destruct (single_plane_compute demo_world file_pattern demo_index demo_ims
              2 1) as [b [Hb Hc]].
  - vm_compute. reflexivity.
  - vm_compute. reflexivity.
  - simpl. lia.
  - simpl. lia.
  - exists b. split; [exact Hb|]. exact Hc.
Defined.

(** C1, as the claim has it, fails: over a first file of six planes and a
    second file of five the volume is built with six planes per time point;
    [(1, 5)] is within its bounds, and computing [ims[1, 5]] returns no
    buffer and reads no page. *)
Lemma single_plane_short_file :
  scan short_world file_pattern = Ok short_index /\
  ims short_index = Ok short_ims /\
  shape short_ims = [2; 6; 10; 10] /\
  1 < N_t short_index /\ 5 < N_z short_index /\
  exists b msg,
    rbind (da_getitem short_ims 1) (fun r => da_getitem r 5) = Ok b /\
    compute short_world (files short_index) b
    = (Raise (IndexError msg), []).
Proof.
  split; [vm_compute; reflexivity|]. split; [vm_compute; reflexivity|].
  split; [reflexivity|]. split; [simpl; lia|]. split; [simpl; lia|].
  do 2 eexists. split; vm_compute; reflexivity.
Qed.

(** C2.  When the scan has produced a frame index from [T] matched files
    of [Z] planes of shape [(Y, X)] each, the volume built from it has
    shape [(T, Z, Y, X)], and computing the region [t, z, 0:Y, 0:X] returns
    plane [z] of file [t] with a log of exactly that one page read. *)
Theorem volume_shape (w : world) (pattern : string) (idx : frame_index)
  (a : darr (list (list task))) (T Z Y X : nat) :
  world_ok w ->
  scan w pattern = Ok idx -> ims idx = Ok a ->
  length (glob w pattern) = T -> 1 <= Y ->
  uniform_dataset w pattern Z Y X ->
  shape a = [T; Z; Y; X] /\
  forall t z, t < T -> z < Z ->
    exists p f b img,
      nth_error (files idx) t = Some p /\
      lookup p (w_files w) = Some f /\
      nth_error (tif_pages f) z = Some img /\
      rbind (da_getitem a (Z.of_nat t)) (fun r => da_getitem r (Z.of_nat z))
        = Ok b /\
      compute w (files idx) (da_getitem_yx b 0 Y 0 X)
        = (Ok img, [PageRead p z]).
Proof.
  intros Hw Hs Ha HT HY HU.
  destruct (scan_uniform _ _ _ _ _ _ Hw Hs HY HU)
    as [H2 [Hfl [ET [EZ [EY [EX HZ1]]]]]].
  split.
  - rewrite ims_ok in Ha by lia. injection Ha as <-. simpl. congruence.
  - intros t z Ht Hz.
    assert (Ht' : t < N_t idx) by lia.
    destruct (scan_files_nth _ _ _ _ Hs H2 Ht') as [_ [p [f [Hp Hf]]]].
    assert (Hin : In p (glob w pattern)).
    { eapply Permutation_in; [apply sorted_perm|].
      rewrite <- Hfl. eapply nth_error_In; eauto. }
    destruct (HU _ _ Hin Hf) as [_ [HZ HP]].
    destruct (nth_error (tif_pages f) z) as [img|] eqn:E.
    2:{ apply nth_error_None in E. lia. }
    exists p, f. eexists. exists img. repeat split; try assumption.
    + apply (ims_getitem idx); [assumption|lia|lia].
    + unfold compute. simpl.
      rewrite (load_2d_run _ _ _ _ _ _ Hp Hf), E.
      unfold io_bind. simpl.
      rewrite crop_full; [reflexivity|].
      rewrite Forall_forall in HP. apply HP.
      eapply nth_error_In; eauto.
Qed.

Lemma demo_world_ok : world_ok demo_world.
Proof. intros l. apply Permutation_refl. Qed.

Lemma demo_uniform : uniform_dataset demo_world file_pattern 3 10 10.
Proof.
  intros p f Hin. vm_compute in Hin.
  repeat (destruct Hin as [<-|Hin]; [idtac|]); try contradiction;
    vm_compute; intros [= <-]; (split; [reflexivity|]);
    (split; [reflexivity|]);
    repeat (constructor; try reflexivity).
Qed.

Lemma thin_uniform : uniform_dataset thin_world file_pattern 1 10 10.
Proof.
  intros p f Hin. vm_compute in Hin.
  repeat (destruct Hin as [<-|Hin]; [idtac|]); try contradiction;
    vm_compute; intros [= <-]; (split; [reflexivity|]);
    (split; [reflexivity|]);
    repeat (constructor; try reflexivity).
Qed.

(** The scenario of five files of three planes, and two stacks of a single
    plane each. *)
Lemma volume_shape_witness :
  (shape demo_ims = [5; 3; 10; 10] /\
   forall t z, t < 5 -> z < 3 ->
     exists p f b img,
       nth_error (files demo_index) t = Some p /\
       lookup p (w_files demo_world) = Some f /\
       nth_error (tif_pages f) z = Some img /\
       rbind (da_getitem demo_ims (Z.of_nat t))
             (fun r => da_getitem r (Z.of_nat z)) = Ok b /\
       compute demo_world (files demo_index) (da_getitem_yx b 0 10 0 10)
         = (Ok img, [PageRead p z])) /\
  (shape thin_ims = [2; 1; 10; 10] /\
   forall t z, t < 2 -> z < 1 ->
     exists p f b img,
       nth_error (files thin_index) t = Some p /\
       lookup p (w_files thin_world) = Some f /\
       nth_error (tif_pages f) z = Some img /\
       rbind (da_getitem thin_ims (Z.of_nat t))
             (fun r => da_getitem r (Z.of_nat z)) = Ok b /\
       compute thin_world (files thin_index) (da_getitem_yx b 0 10 0 10)
         = (Ok img, [PageRead p z])).
Proof.
  split.
  - apply (volume_shape demo_world file_pattern demo_index demo_ims
             5 3 10 10).
    + exact demo_world_ok.
    + vm_compute. reflexivity.
    + vm_compute. reflexivity.
    + vm_compute. reflexivity.
    + lia.
    + exact demo_uniform.
  - apply (volume_shape thin_world file_pattern thin_index thin_ims
             2 1 10 10).
    + intros l. apply Permutation_refl.
    + vm_compute. reflexivity.
    + vm_compute. reflexivity.
    + vm_compute. reflexivity.
    + lia.
    + exact thin_uniform.
Defined.

(** ** The order of the files *)

(** C5.  The path list a scan leaves behind holds the matching paths, each
    as often as it matches, in lexicographic order of the path strings,
    whatever the directory and the pattern.  That order is the time axis of
    every volume built from the scan: when more than one file matches the
    volume has one time point per path, and the block at [(t, z)] is the
    read of page [z] of the [t]-th path of the list, of that page and of
    no other. *)
Theorem files_sorted_time_axis (w : world) (pattern : string)
  (idx : frame_index) :
  scan w pattern = Ok idx ->
  Permutation (files idx)
              (filter (w_fnmatch w pattern) (map fst (w_files w))) /\
  StronglySorted lex_le (files idx) /\
  (2 <= length (files idx) -> N_t idx = length (files idx)) /\
  forall a, ims idx = Ok a ->
    nth 0 (shape a) 0 = N_t idx /\
    forall t z, t < N_t idx -> z < N_z idx ->
      exists b,
        rbind (da_getitem a (Z.of_nat t))
              (fun r => da_getitem r (Z.of_nat z)) = Ok b /\
        match direct_read w (files idx) t z with
        | Some (p, img) =>
            compute w (files idx) b = (Ok img, [PageRead p z])
        | None =>
            exists msg,
              compute w (files idx) b = (Raise (IndexError msg), [])
        end.
Proof.
  intros Hs. pose proof (scan_files _ _ _ Hs) as Hfl.
  rewrite Hfl.
  split; [apply sorted_perm|]. split; [apply sorted_is_sorted|]. split.
  - intros H2. rewrite sorted_length in H2 |- *.
    destruct (scan_ok_inv _ _ _ Hs)
      as [[f0 [n [_ [_ [_ Hidx]]]]]|[p [f0 [nt [n [G _]]]]]].
    + rewrite Hidx. reflexivity.
    + rewrite G in H2. simpl in H2. lia.
  - intros a Ha. destruct (ims_extents _ _ Ha) as [HT HZ]. split.
    { rewrite ims_ok in Ha by assumption. injection Ha as <-. reflexivity. }
    intros t z Ht Hz.
    eexists. split; [apply (ims_getitem idx); assumption|].
    unfold compute. cbn [blocks run_task].
    rewrite (load_2d_direct w (sorted (glob w pattern)) t z)
      by apply sorted_glob_files.
    destruct (direct_read w (sorted (glob w pattern)) t z) as [[p img]|];
      [reflexivity|eauto].
Qed.

Lemma files_sorted_time_axis_witness :
  Permutation (files demo_index)
              (filter (w_fnmatch demo_world file_pattern)
                      (map fst (w_files demo_world))) /\
  StronglySorted lex_le (files demo_index) /\
  N_t demo_index = length (files demo_index) /\
  nth 0 (shape demo_ims) 0 = N_t demo_index /\
  exists b,
    rbind (da_getitem demo_ims 3) (fun r => da_getitem r 2) = Ok b /\
    compute demo_world (files demo_index) b
    = (Ok (tabulate 10 10
             (fun y x => Z.of_nat (1000 * 3 + 100 * 2 + 10 * y + x))),
       [PageRead (path_of 3) 2]).
Proof.
  destruct (files_sorted_time_axis demo_world file_pattern demo_index)
    as [HP [HS [HN HV]]].
  - vm_compute. reflexivity.
  - destruct (HV demo_ims) as [H0 HR]; [vm_compute; reflexivity|].
    split; [exact HP|]. split; [exact HS|].
    split; [apply HN; simpl; lia|]. split; [exact H0|].
    destruct (HR 3 2) as [b [Hb Hc]]; [simpl; lia|simpl; lia|].
    exists b. split; [exact Hb|]. exact Hc.
Defined.

(** ** Failures of the scan *)






(** ** The viewer *)

Lemma nth_map_seq {A} (f : nat -> A) (n i : nat) (d : A) :
  i < n -> nth i (map f (seq 0 n)) d = f i.
Proof.
  intros H. rewrite (nth_indep _ d (f 0)) by now rewrite length_map, length_seq.
  rewrite (map_nth f (seq 0 n) 0 i). now rewrite seq_nth.
Qed.

Lemma nth_tabulate_row (C : nat) (g : nat -> Z) (c : nat) :
  c < C -> nth c (map g (seq 0 C)) 0%Z = g c.
Proof.
  intros H. rewrite (nth_indep _ 0%Z (g 0)) by now rewrite length_map, length_seq.
  rewrite (map_nth g (seq 0 C) 0 c). now rewrite seq_nth.
Qed.

Lemma pix_tabulate (R C : nat) (f : nat -> nat -> Z) (r c : nat) :
  r < R -> c < C -> pix (tabulate R C f) r c = f r c.
Proof.
  intros Hr Hc. unfold pix, tabulate.
  rewrite (nth_indep _ [] ((fun r => map (fun c => f r c) (seq 0 C)) 0))
    by now rewrite length_map, length_seq.
  rewrite (map_nth (fun r => map (fun c => f r c) (seq 0 C)) (seq 0 R) 0 r).
  rewrite seq_nth by assumption. simpl.
  now apply nth_tabulate_row.
Qed.

Lemma tabulate_shape (R C : nat) (f : nat -> nat -> Z) :
  has_shape R C (tabulate R C f).
Proof.
  unfold has_shape, tabulate. split.
  - now rewrite length_map, length_seq.
  - apply Forall_forall. intros row Hrow.
    apply in_map_iff in Hrow. destruct Hrow as [r [<- _]].
    now rewrite length_map, length_seq.
Qed.

(** Up to ten sliders, sorting the names keeps the axes in order. *)
Lemma view_pos_in_axis_order (n : nat) (vs : list Z) :
  n <= 10 -> length vs = n ->
  view_pos (combine (map dim_name (seq 0 n)) vs) = vs.
Proof.
  intros Hn Hl.
  do 11 (destruct n as [|n];
         [ repeat (destruct vs as [|? vs]; simpl in Hl; try discriminate);
           reflexivity
         | ]).
  lia.
Qed.

Lemma slider_kwargs_combine (st : list slider) :
  slider_kwargs st = combine (map sl_name st) (positions st).
Proof.
  unfold slider_kwargs, positions.
  induction st as [|s st IH]; simpl; [reflexivity|]. now rewrite IH.
Qed.

Lemma tracks_length (a : arraylike) (st : list slider) :
  tracks a st -> length st = length (scroll_shape a).
Proof.
  intros [Hn _]. apply (f_equal (@length _)) in Hn.
  now rewrite !length_map, length_seq in Hn.
Qed.

Lemma tracks_view_pos (a : arraylike) (st : list slider) :
  tracks a st -> length (scroll_shape a) <= 10 ->
  view_pos (slider_kwargs st) = positions st.
Proof.
  intros Ht Hn. rewrite slider_kwargs_combine.
  destruct Ht as [Hnames Hr]. rewrite Hnames.
  apply view_pos_in_axis_order; [assumption|].
  unfold positions. rewrite length_map.
  apply (tracks_length a). now split.
Qed.

(** C10.  With at most ten leading axes the tuple [view_image] assembles
    from the sorted slider names lists the slider values in axis order, so
    its k-th entry is the position of leading axis k; with eleven axes the
    name of axis 10 sorts before the name of axis 2 and the tuple is no
    longer in axis order. *)
Theorem sorted_names_follow_axes :
  (forall (a : arraylike) (st : list slider) (k : nat),
      tracks a st -> length (scroll_shape a) <= 10 ->
      view_pos (slider_kwargs st) = positions st /\
      nth_error (view_pos (slider_kwargs st)) k
      = option_map sl_value (nth_error st k)) /\
  (exists st,
     make_sliders (repeat 30 11) = Ok st /\
     map sl_name st = map dim_name (seq 0 11) /\
     positions st = repeat 14%Z 11 /\
     forall v,
       view_pos (slider_kwargs (update_nth 10 (fun s => slider_set s v) st))
       = [14; 14; clamp 0 29 v; 14; 14; 14; 14; 14; 14; 14; 14]%Z).
Proof.
  split.
  - intros a st k Ht Hn.
    pose proof (tracks_view_pos a st Ht Hn) as E. split; [exact E|].
    rewrite E. unfold positions. apply nth_error_map.
  - eexists. split; [vm_compute; reflexivity|].
    split; [reflexivity|]. split; [reflexivity|].
    intros v. reflexivity.
Qed.

(** C9.  What [view_image] hands to the display is the transpose of the
    materialized plane: for a plane of shape [(R, C)] the displayed array
    has shape [(C, R)] and its entry at [(i, j)] is the plane's entry at row
    [j], column [i]. *)
Theorem view_image_transposed (a : arraylike) (kwargs : list (string * Z))
  (img : image) (R C : nat) :
  fst (plane_at a (view_pos kwargs)) = Ok img ->
  has_shape R C img -> 1 <= R ->
  exists shown,
    fst (view_image a kwargs) = Ok shown /\
    snd (view_image a kwargs) = snd (plane_at a (view_pos kwargs)) /\
    has_shape C R shown /\
    forall i j, i < C -> j < R -> pix shown i j = pix img j i.
Proof.
  intros Hp Hs HR.
  destruct (has_shape_ncols _ _ _ HR Hs) as [Hr Hc].
  exists (transpose img). unfold view_image, io_bind. rewrite Hp. simpl.
  unfold transpose. rewrite Hr, Hc.
  split; [reflexivity|]. split; [apply app_nil_r|].
  split; [apply tabulate_shape|].
  intros i j Hi Hj.
  now apply (pix_tabulate C R (fun i j => pix img j i)).
Qed.

Lemma view_image_transposed_witness :
  exists shown,
    fst (view_image demo_view [("dim 0", 2%Z); ("dim 1", 1%Z)]) = Ok shown /\
    snd (view_image demo_view [("dim 0", 2%Z); ("dim 1", 1%Z)])
    = snd (plane_at demo_view (view_pos [("dim 0", 2%Z); ("dim 1", 1%Z)])) /\
    has_shape 10 10 shown /\
    forall i j, i < 10 -> j < 10 ->
      pix shown i j
      = pix (tabulate 10 10
               (fun y x => Z.of_nat (1000 * 2 + 100 * 1 + 10 * y + x))) j i.
Proof.
  apply (view_image_transposed demo_view [("dim 0", 2%Z); ("dim 1", 1%Z)]
           (tabulate 10 10
              (fun y x => Z.of_nat (1000 * 2 + 100 * 1 + 10 * y + x)))
           10 10).
  - vm_compute. reflexivity.
  - vm_compute. repeat (constructor; try reflexivity).
  - lia.
Defined.

(** ** Moving a slider *)

Lemma update_nth_length {X} (n : nat) (f : X -> X) (l : list X) :
  length (update_nth n f l) = length l.
Proof.
  revert n; induction l as [|x l IH]; intros [|n]; simpl; auto.
Qed.

Lemma update_nth_map {X Y} (g : X -> Y) (n : nat) (f : X -> X) (l : list X) :
  (forall x, g (f x) = g x) ->
  map g (update_nth n f l) = map g l.
Proof.
  intros H. revert n; induction l as [|x l IH]; intros [|n]; simpl;
    try reflexivity.
  - now rewrite H.
  - now rewrite IH.
Qed.

Lemma update_nth_same {X} (n : nat) (f : X -> X) (l : list X) (x : X) :
  nth_error l n = Some x ->
  nth_error (update_nth n f l) n = Some (f x).
Proof.
  revert n; induction l as [|y l IH]; intros [|n]; simpl; try discriminate.
  - now intros [= ->].
  - apply IH.
Qed.

Lemma update_nth_other {X} (n k : nat) (f : X -> X) (l : list X) :
  k <> n -> nth_error (update_nth n f l) k = nth_error l k.
Proof.
  revert n k; induction l as [|y l IH]; intros [|n] [|k] H; simpl;
    try reflexivity; try congruence.
  apply IH. congruence.
Qed.

(** The sliders [interact] builds: there are some exactly when every
    leading axis has an entry, and then they are named after the axes,
    range over them and hold a value of their range. *)
Lemma make_sliders_from (b : nat) (scroll : list nat) (st : list slider) :
  collect (map (fun '(dim, s) => make_slider dim s)
               (combine (seq b (length scroll)) scroll)) = Ok st ->
  map sl_name st = map dim_name (seq b (length scroll)) /\
  map (fun s => (sl_min s, sl_max s)) st
  = map (fun s => (0%Z, (Z.of_nat s - 1)%Z)) scroll /\
  Forall (fun sl => (sl_min sl <= sl_value sl <= sl_max sl)%Z) st /\
  Forall (fun s => 1 <= s) scroll.
Proof.
  revert b st. induction scroll as [|s scroll IH]; intros b st; simpl.
  - intros [= <-]. repeat split; constructor.
  - unfold make_slider at 1.
    destruct ((0 <=? (Z.of_nat s - 1) / 2)%Z
              && ((Z.of_nat s - 1) / 2 <=? Z.of_nat s - 1)%Z)%bool eqn:B;
      simpl; [|discriminate].
    destruct (collect _) as [st'|e] eqn:C; simpl; [|discriminate].
    intros [= <-]. destruct (IH _ _ C) as [H1 [H2 [H3 H4]]].
    apply andb_true_iff in B. destruct B as [B1 B2].
    apply Z.leb_le in B1, B2.
    simpl. rewrite H1, H2. repeat split; try reflexivity.
    + constructor; [simpl; lia|assumption].
    + constructor; [|assumption].
      destruct s; [|lia]. simpl in B1. vm_compute in B1. congruence.
Qed.

Lemma make_sliders_some (b : nat) (scroll : list nat) :
  Forall (fun s => 1 <= s) scroll ->
  exists st,
    collect (map (fun '(dim, s) => make_slider dim s)
                 (combine (seq b (length scroll)) scroll)) = Ok st.
Proof.
  intros H. revert b. induction H as [|s scroll Hs _ IH]; intros b; simpl.
  - now exists [].
  - destruct (IH (S b)) as [st' ->]. unfold make_slider.
    pose proof (Z.div_mod (Z.of_nat s - 1) 2 ltac:(lia)) as D.
    pose proof (Z.mod_pos_bound (Z.of_nat s - 1) 2 ltac:(lia)) as M.
    destruct (Z.leb_spec 0 ((Z.of_nat s - 1) / 2)); [|lia].
    destruct (Z.leb_spec ((Z.of_nat s - 1) / 2) (Z.of_nat s - 1)); [|lia].
    simpl. eauto.
Qed.

Lemma attach_tracks (a : arraylike) (st : list slider) :
  attach a = Ok st -> tracks a st.
Proof.
  intros H. destruct (make_sliders_from 0 _ _ H) as [H1 [H2 _]]. now split.
Qed.

Lemma well_ranged_attach (a : arraylike) (st : list slider) :
  attach a = Ok st ->
  Forall (fun sl => (sl_min sl <= sl_value sl <= sl_max sl)%Z) st.
Proof. intros H. now destruct (make_sliders_from 0 _ _ H) as [_ [_ [H3 _]]]. Qed.

(** Attaching the browser succeeds exactly when every leading axis has an
    entry. *)
Lemma attach_ok_iff (a : arraylike) :
  (exists st, attach a = Ok st) <-> Forall (fun s => 1 <= s) (scroll_shape a).
Proof.
  split.
  - intros [st H]. now destruct (make_sliders_from 0 _ _ H) as [_ [_ [_ H4]]].
  - apply make_sliders_some.
Qed.

Lemma tracks_bounds (a : arraylike) (st : list slider) (axis s : nat) :
  tracks a st -> nth_error (scroll_shape a) axis = Some s ->
  exists sl, nth_error st axis = Some sl /\
             sl_min sl = 0%Z /\ sl_max sl = (Z.of_nat s - 1)%Z.
Proof.
  intros [_ Hr] Hs.
  apply (f_equal (fun l => nth_error l axis)) in Hr.
  rewrite !nth_error_map, Hs in Hr.
  destruct (nth_error st axis) as [sl|]; simpl in Hr; [|discriminate].
  exists sl. injection Hr as H1 H2. auto.
Qed.

Lemma clamp_in_range (lo hi v : Z) :
  (lo <= v <= hi)%Z -> clamp lo hi v = v.
Proof. unfold clamp. lia. Qed.

Lemma well_ranged_update (st : list slider) (axis : nat) (v : Z) :
  Forall (fun sl => (sl_min sl <= sl_value sl <= sl_max sl)%Z) st ->
  Forall (fun sl => (sl_min sl <= sl_value sl <= sl_max sl)%Z)
         (update_nth axis (fun s => slider_set s v) st).
Proof.
  intros H. revert axis. induction H as [|sl st Hsl Hst IH]; intros [|axis];
    simpl; constructor; auto.
  simpl. unfold clamp. lia.
Qed.

Lemma tracks_update (a : arraylike) (st : list slider) (axis : nat) (v : Z) :
  tracks a st -> tracks a (update_nth axis (fun s => slider_set s v) st).
Proof.
  intros [Hn Hr]. unfold tracks.
  rewrite !update_nth_map by reflexivity. now split.
Qed.

(** The state a move leaves. *)
Lemma set_index_state (a : arraylike) (st : list slider) (axis : nat)
  (v : Z) :
  axis < length st ->
  exists out,
    set_index a st axis v
    = Some (update_nth axis (fun s => slider_set s v) st, out).
Proof.
  intros H. unfold set_index.
  destruct (nth_error st axis) as [sl|] eqn:E.
  - eexists. reflexivity.
  - apply nth_error_None in E. lia.
Qed.

Lemma set_index_none (a : arraylike) (st : list slider) (axis : nat)
  (v : Z) :
  length st <= axis -> set_index a st axis v = None.
Proof.
  intros H. unfold set_index.
  destruct (nth_error st axis) as [sl|] eqn:E; [|reflexivity].
  assert (axis < length st) by (apply nth_error_Some; congruence). lia.
Qed.

Lemma browse_invariant (a : arraylike) (moves : list (nat * Z))
  (st : list slider) :
  tracks a st ->
  Forall (fun sl => (sl_min sl <= sl_value sl <= sl_max sl)%Z) st ->
  tracks a (browse a st moves) /\
  Forall (fun sl => (sl_min sl <= sl_value sl <= sl_max sl)%Z)
         (browse a st moves).
Proof.
  revert st. induction moves as [|[axis v] moves IH]; intros st Ht Hr;
    simpl; [now split|].
  destruct (Nat.lt_ge_cases axis (length st)) as [Hlt|Hge].
  - destruct (set_index_state a st axis v Hlt) as [out ->].
    apply IH; [now apply tracks_update|now apply well_ranged_update].
  - rewrite (set_index_none a st axis v Hge). now apply IH.
Qed.

Lemma tracks_in_range (a : arraylike) (st : list slider) :
  tracks a st ->
  Forall (fun sl => (sl_min sl <= sl_value sl <= sl_max sl)%Z) st ->
  in_range a st.
Proof.
  intros [_ Hr] Hw. unfold in_range, positions.
  revert Hr. generalize (scroll_shape a) as scroll.
  induction Hw as [|sl st Hsl _ IH]; intros [|s scroll] Hr; simpl in *;
    try discriminate; constructor.
  - injection Hr as Hmin Hmax _. lia.
  - apply IH. now injection Hr.
Qed.

(** The states the browser reaches: its sliders stay those of the axes and
    hold a value of their range. *)
Lemma reached_state (a : arraylike) (st0 : list slider)
  (moves : list (nat * Z)) :
  attach a = Ok st0 ->
  tracks a (browse a st0 moves) /\
  Forall (fun sl => (sl_min sl <= sl_value sl <= sl_max sl)%Z)
         (browse a st0 moves).
Proof.
  intros H. apply browse_invariant;
    [now apply attach_tracks|now apply (well_ranged_attach a)].
Qed.

Lemma Forall2_two {A B} (R : A -> B -> Prop) (a1 a2 : A) (l : list B) :
  Forall2 R [a1; a2] l -> exists b1 b2, l = [b1; b2] /\ R a1 b1 /\ R a2 b2.
Proof.
  intros H. inversion H as [|? b1 ? l1 H1 H']; subst.
  inversion H' as [|? b2 ? l2 H2 H'']; subst.
  inversion H''; subst. now exists b1, b2.
Qed.

(** Over a dataset of stacks of one shape the volume has a plane at every
    index pair within its bounds: the page of that depth of the file of
    that time point, at the cost of one read. *)
Lemma volume_plane_at (w : world) (pattern : string) (idx : frame_index)
  (a : darr (list (list task))) (nz Y X : nat) (v0 v1 : Z) :
  world_ok w -> scan w pattern = Ok idx -> ims idx = Ok a ->
  1 <= Y -> uniform_dataset w pattern nz Y X ->
  (0 <= v0 <= Z.of_nat (N_t idx) - 1)%Z ->
  (0 <= v1 <= Z.of_nat (N_z idx) - 1)%Z ->
  exists p f img,
    nth_error (files idx) (Z.to_nat v0) = Some p /\
    lookup p (w_files w) = Some f /\
    nth_error (tif_pages f) (Z.to_nat v1) = Some img /\
    plane_at (volume_view w (files idx) a) [v0; v1]
    = (Ok img, [PageRead p (Z.to_nat v1)]).
Proof.
  intros Hw Hs Ha HY HU Hv0 Hv1.
  destruct (scan_uniform _ _ _ _ _ _ Hw Hs HY HU)
    as [H2 [Hfl [ET [EZ [EY [EX HZ1]]]]]].
  assert (Ht : Z.to_nat v0 < N_t idx) by lia.
  assert (Hz : Z.to_nat v1 < N_z idx) by lia.
  destruct (scan_files_nth _ _ _ _ Hs H2 Ht) as [_ [p [f [Hp Hf]]]].
  assert (Hinp : In p (glob w pattern)).
  { eapply Permutation_in; [apply sorted_perm|].
    rewrite <- Hfl. eapply nth_error_In; eauto. }
  destruct (HU _ _ Hinp Hf) as [_ [HZf _]].
  destruct (nth_error (tif_pages f) (Z.to_nat v1)) as [img|] eqn:Eimg.
  2:{ apply nth_error_None in Eimg. exfalso.
      apply (Nat.lt_irrefl (Z.to_nat v1)).
      eapply Nat.lt_le_trans; [exact Hz|]. rewrite EZ, <- HZf. exact Eimg. }
  exists p, f, img. repeat split; try assumption.
  cbn [plane_at volume_view].
  assert (E0 : Z.of_nat (Z.to_nat v0) = v0) by lia.
  assert (E1 : Z.of_nat (Z.to_nat v1) = v1) by lia.
  rewrite <- E0, <- E1, !Nat2Z.id.
  rewrite (ims_getitem idx a _ _ Ha Ht Hz).
  unfold io_bind, compute. simpl.
  rewrite (load_2d_run _ _ _ _ _ _ Hp Hf), Eimg. reflexivity.
Qed.

Lemma volume_scroll_shape (idx : frame_index)
  (a : darr (list (list task))) (w : world) (fl : list string) :
  ims idx = Ok a ->
  scroll_shape (volume_view w fl a) = [N_t idx; N_z idx].
Proof.
  intros Ha. destruct (ims_extents _ _ Ha) as [HT HZ].
  rewrite ims_ok in Ha by assumption. injection Ha as <-. reflexivity.
Qed.

Lemma volume_view_answers (w : world) (pattern : string)
  (idx : frame_index) (a : darr (list (list task))) (nz Y X : nat) :
  world_ok w -> scan w pattern = Ok idx -> ims idx = Ok a ->
  1 <= Y -> uniform_dataset w pattern nz Y X ->
  answers (volume_view w (files idx) a).
Proof.
  intros Hw Hs Ha HY HU pos Hpos.
  rewrite (volume_scroll_shape idx a w (files idx) Ha) in Hpos.
  destruct (Forall2_two _ _ _ _ Hpos) as [v0 [v1 [-> [Hv0 Hv1]]]].
  destruct (volume_plane_at w pattern idx a nz Y X v0 v1 Hw Hs Ha HY HU
              Hv0 Hv1) as [p [f [img [_ [_ [_ E]]]]]].
  eauto.
Qed.

(** C8, as the code has it.  The browser checks no value and reports no
    error of its own.  On an array with at most ten leading axes that
    materializes every plane within its bounds, in every state the browser
    reaches and for every value, in range or not, moving the slider of an
    axis of extent [s] sets the position of that axis to the value clamped
    to [0 .. s-1] (the value itself when it is in range) and leaves the
    other positions; every position is then on its axis, the index tuple
    handed to the array is the tuple of the positions, and the plane there
    materializes.  When the position has changed the display receives the
    transpose of that one plane; when it has not, nothing is displayed. *)
Theorem set_index_clamps (a : arraylike) (st0 : list slider)
  (moves : list (nat * Z)) (axis s : nat) (v : Z) :
  attach a = Ok st0 -> length (scroll_shape a) <= 10 -> answers a ->
  nth_error (scroll_shape a) axis = Some s ->
  exists old st' img log,
    nth_error (positions (browse a st0 moves)) axis = Some old /\
    set_index a (browse a st0 moves) axis v
    = Some (st',
            if (clamp 0 (Z.of_nat s - 1) v =? old)%Z then None
            else Some (Ok (transpose img), log)) /\
    nth_error (positions st') axis = Some (clamp 0 (Z.of_nat s - 1) v) /\
    (forall k, k <> axis ->
       nth_error (positions st') k
       = nth_error (positions (browse a st0 moves)) k) /\
    in_range a st' /\
    view_pos (slider_kwargs st') = positions st' /\
    plane_at a (positions st') = (Ok img, log) /\
    ((0 <= v <= Z.of_nat s - 1)%Z ->
       nth_error (positions st') axis = Some v).
Proof.
  intros Hatt Hn Hans Hs.
  set (st := browse a st0 moves).
  destruct (reached_state a st0 moves Hatt) as [Ht Hw]. fold st in Ht, Hw.
  destruct (tracks_bounds _ _ _ _ Ht Hs) as [sl [Hsl [Hmin Hmax]]].
  set (st' := update_nth axis (fun s => slider_set s v) st).
  assert (Ht' : tracks a st') by now apply tracks_update.
  assert (Hw' : Forall (fun sl => (sl_min sl <= sl_value sl <= sl_max sl)%Z)
                       st') by now apply well_ranged_update.
  pose proof (tracks_in_range a st' Ht' Hw') as Hin.
  destruct (Hans _ Hin) as [img [log Hplane]].
  assert (Hpos : nth_error (positions st') axis
                 = Some (clamp 0 (Z.of_nat s - 1) v)).
  { unfold positions, st'. rewrite nth_error_map.
    rewrite (update_nth_same _ _ _ _ Hsl). simpl. now rewrite Hmin, Hmax. }
  pose proof (tracks_view_pos a st' Ht' Hn) as Hview.
  exists (sl_value sl), st', img, log.
  split; [unfold positions; now rewrite nth_error_map, Hsl|].
  split.
  { unfold set_index. rewrite Hsl. fold st'. f_equal. f_equal.
    simpl. rewrite Hmin, Hmax.
    destruct (clamp 0 (Z.of_nat s - 1) v =? sl_value sl)%Z; [reflexivity|].
    unfold view_image. rewrite Hview, Hplane.
    unfold io_bind. simpl. now rewrite app_nil_r. }
  split; [exact Hpos|]. split.
  { intros k Hk. unfold positions, st'.
    rewrite !nth_error_map. now rewrite update_nth_other. }
  split; [exact Hin|]. split; [exact Hview|]. split; [exact Hplane|].
  intros Hv. rewrite Hpos. now rewrite clamp_in_range.
Qed.

Lemma demo_attach : attach demo_view = Ok demo_sliders.
Proof. vm_compute. reflexivity. Qed.

Lemma set_index_clamps_witness :
  exists old st' img log,
    nth_error (positions (browse demo_view demo_sliders [(1, 0%Z)])) 0
    = Some old /\
    set_index demo_view (browse demo_view demo_sliders [(1, 0%Z)]) 0 3
    = Some (st',
            if (clamp 0 (Z.of_nat 5 - 1) 3 =? old)%Z then None
            else Some (Ok (transpose img), log)) /\
    nth_error (positions st') 0 = Some (clamp 0 (Z.of_nat 5 - 1) 3) /\
    (forall k, k <> 0 ->
       nth_error (positions st') k
       = nth_error (positions (browse demo_view demo_sliders [(1, 0%Z)])) k)
    /\
    in_range demo_view st' /\
    view_pos (slider_kwargs st') = positions st' /\
    plane_at demo_view (positions st') = (Ok img, log) /\
    ((0 <= 3 <= Z.of_nat 5 - 1)%Z -> nth_error (positions st') 0 = Some 3%Z).
Proof.
  apply (set_index_clamps demo_view demo_sliders [(1, 0%Z)] 0 5 3).
  - exact demo_attach.
  - vm_compute. lia.
  - apply (volume_view_answers demo_world file_pattern demo_index demo_ims
             3 10 10).
    + exact demo_world_ok.
    + vm_compute. reflexivity.
    + vm_compute. reflexivity.
    + lia.
    + exact demo_uniform.
  - vm_compute. reflexivity.
Defined.

(** C8, as the claim has it, fails: on the time axis of extent 5 the value
    7 lies outside [0 .. 4], yet moving the slider there reports no error;
    the position changes from 2 to 4 and a plane of the last file is read
    and displayed.  The callback itself checks nothing either: called with
    -1 for the time axis it displays a plane of the last file. *)
Lemma set_index_out_of_range_accepted :
  attach demo_view = Ok demo_sliders /\
  nth_error (scroll_shape demo_view) 0 = Some 5 /\
  positions demo_sliders = [2; 1]%Z /\
  (exists st' shown,
     set_index demo_view demo_sliders 0 7
     = Some (st', Some (Ok shown, [PageRead (path_of 4) 1])) /\
     positions st' = [4; 1]%Z) /\
  exists shown,
    view_image demo_view [("dim 0", (-1)%Z); ("dim 1", 1%Z)]
    = (Ok shown, [PageRead (path_of 4) 1]).
Proof.
  split; [vm_compute; reflexivity|].
  split; [reflexivity|]. split; [reflexivity|]. split.
  - do 2 eexists. split; vm_compute; reflexivity.
  - eexists. vm_compute. reflexivity.
Qed.

(** ** Arrays of a given shape *)

Lemma has_shape_row (Y X : nat) (a : image) (y : nat) :
  has_shape Y X a -> y < Y -> length (nth y a []) = X.
Proof.
  intros [HL HR] Hy. rewrite Forall_forall in HR. apply HR.
  apply nth_In. lia.
Qed.

(** An array is the table of its entries. *)
Lemma has_shape_tabulate (Y X : nat) (a : image) :
  has_shape Y X a -> a = tabulate Y X (pix a).
Proof.
  intros Hs. pose proof Hs as [HL HR].
  apply (nth_ext _ _ [] []).
  - unfold tabulate. now rewrite length_map, length_seq.
  - intros y Hy. rewrite HL in Hy.
    apply (nth_ext _ _ 0%Z 0%Z).
    + rewrite (has_shape_row Y X a y Hs Hy).
      destruct (tabulate_shape Y X (pix a)) as [_ HT].
      rewrite Forall_forall in HT. symmetry. apply HT, nth_In.
      unfold tabulate. now rewrite length_map, length_seq.
    + intros x Hx. rewrite (has_shape_row Y X a y Hs Hy) in Hx.
      change (nth x (nth y (tabulate Y X (pix a)) []) 0%Z)
        with (pix (tabulate Y X (pix a)) y x).
      now rewrite pix_tabulate.
Qed.

Lemma tabulate_ext (R C : nat) (f g : nat -> nat -> Z) :
  (forall r c, r < R -> c < C -> f r c = g r c) ->
  tabulate R C f = tabulate R C g.
Proof.
  intros H. unfold tabulate. apply map_ext_in. intros r Hr.
  apply in_seq in Hr. apply map_ext_in. intros c Hc. apply in_seq in Hc.
  apply H; lia.
Qed.

Lemma has_shape_ext (Y X : nat) (a b : image) :
  has_shape Y X a -> has_shape Y X b ->
  (forall y x, y < Y -> x < X -> pix a y x = pix b y x) -> a = b.
Proof.
  intros Ha Hb H.
  rewrite (has_shape_tabulate _ _ _ Ha), (has_shape_tabulate _ _ _ Hb).
  now apply tabulate_ext.
Qed.

Lemma nth_window {A} (l : list A) (lo hi i : nat) (d : A) :
  i < hi - lo -> nth i (firstn (hi - lo) (skipn lo l)) d = nth (lo + i) l d.
Proof.
  intros H. rewrite nth_firstn.
  destruct (Nat.ltb_spec i (hi - lo)); [|lia]. apply nth_skipn.
Qed.

Lemma length_window {A} (l : list A) (lo hi : nat) :
  hi <= length l -> length (firstn (hi - lo) (skipn lo l)) = hi - lo.
Proof. intros H. rewrite length_firstn, length_skipn. lia. Qed.

(** Cropping inside the array reads the entries of the window. *)
Lemma crop_tabulate (Y X : nat) (a : image) (y0 y1 x0 x1 : nat) :
  has_shape Y X a -> y1 <= Y -> x1 <= X ->
  crop a y0 y1 x0 x1
  = tabulate (y1 - y0) (x1 - x0) (fun y x => pix a (y0 + y) (x0 + x)).
Proof.
  intros Hs Hy Hx. pose proof Hs as [HL HR].
  unfold crop, tabulate.
  apply (nth_ext _ _ [] []).
  - rewrite !length_map, length_seq. apply length_window. lia.
  - intros y Hlt. rewrite length_map, length_window in Hlt by lia.
    rewrite (nth_indep _ [] ((fun row => firstn (x1 - x0) (skipn x0 row)) []))
      by (rewrite length_map, length_window; lia).
    rewrite (map_nth (fun row => firstn (x1 - x0) (skipn x0 row))).
    rewrite nth_window by assumption.
    rewrite nth_map_seq by assumption.
    assert (Hrow : length (nth (y0 + y) a []) = X)
      by (apply (has_shape_row Y X); [assumption|lia]).
    apply (nth_ext _ _ 0%Z 0%Z).
    + rewrite length_map, length_seq. apply length_window. lia.
    + intros x Hxl. rewrite length_window in Hxl by lia.
      rewrite nth_window by assumption.
      now rewrite nth_tabulate_row.
Qed.

(** ** Maxima *)

Lemma zip_with_length {A} (f : A -> A -> A) (l1 l2 : list A) :
  length l1 = length l2 -> length (zip_with f l1 l2) = length l1.
Proof.
  revert l2; induction l1 as [|x l1 IH]; intros [|y l2]; simpl;
    try discriminate; auto.
Qed.

Lemma zip_with_nth {A} (f : A -> A -> A) (l1 l2 : list A) (i : nat)
  (d1 d2 d : A) :
  length l1 = length l2 -> i < length l1 ->
  nth i (zip_with f l1 l2) d = f (nth i l1 d1) (nth i l2 d2).
Proof.
  revert l2 i; induction l1 as [|x l1 IH]; intros [|y l2] [|i]; simpl;
    try discriminate; try lia; auto.
  intros HL Hi. apply IH; lia.
Qed.

Lemma maximum_shape (Y X : nat) (a b : image) :
  has_shape Y X a -> has_shape Y X b -> has_shape Y X (maximum a b).
Proof.
  intros [HLa HRa] [HLb HRb]. unfold maximum. split.
  - rewrite zip_with_length; congruence.
  - subst Y.
    revert b HLb HRb. induction HRa as [|ra a Hra _ IH];
      intros [|rb b] HLb HRb; simpl in *; try discriminate; constructor.
    + inversion HRb; subst. rewrite zip_with_length; congruence.
    + inversion HRb; subst. apply IH; [lia|assumption].
Qed.

Lemma maximum_pix (Y X : nat) (a b : image) (y x : nat) :
  has_shape Y X a -> has_shape Y X b -> y < Y -> x < X ->
  pix (maximum a b) y x = Z.max (pix a y x) (pix b y x).
Proof.
  intros Ha Hb Hy Hx. unfold pix, maximum.
  pose proof (has_shape_row _ _ _ _ Ha Hy) as Ra.
  pose proof (has_shape_row _ _ _ _ Hb Hy) as Rb.
  destruct Ha as [HLa _], Hb as [HLb _].
  rewrite (zip_with_nth _ a b y [] [] []) by lia.
  apply zip_with_nth; lia.
Qed.

Lemma same_shape_true (Y X : nat) (a b : image) :
  1 <= Y -> has_shape Y X a -> has_shape Y X b -> same_shape a b = true.
Proof.
  intros HY Ha Hb.
  destruct (has_shape_ncols _ _ _ HY Ha) as [_ Hc].
  destruct Ha as [HLa HRa], Hb as [HLb HRb].
  unfold same_shape. rewrite Hc.
  rewrite !andb_true_iff. repeat split.
  - apply Nat.eqb_eq. congruence.
  - apply forallb_forall. intros r Hr. apply Nat.eqb_eq.
    rewrite Forall_forall in HRa. now apply HRa.
  - apply forallb_forall. intros r Hr. apply Nat.eqb_eq.
    rewrite Forall_forall in HRb. now apply HRb.
Qed.

Lemma fold_maximum (Y X : nat) (rest : list image) (acc : image) :
  has_shape Y X acc -> Forall (has_shape Y X) rest ->
  has_shape Y X (fold_left maximum rest acc) /\
  forall y x, y < Y -> x < X ->
    pix (fold_left maximum rest acc) y x
    = fold_left Z.max (map (fun p => pix p y x) rest) (pix acc y x).
Proof.
  intros Hacc Hrest. revert acc Hacc.
  induction Hrest as [|b rest Hb _ IH]; intros acc Hacc; simpl.
  - split; [assumption|reflexivity].
  - destruct (IH (maximum acc b) (maximum_shape _ _ _ _ Hacc Hb)) as [Hs Hp].
    split; [assumption|].
    intros y x Hy Hx. rewrite Hp by assumption.
    now rewrite (maximum_pix Y X).
Qed.

Lemma fold_max_is_max (l : list Z) (x : Z) :
  is_max (fold_left Z.max l x) (x :: l).
Proof.
  revert x; induction l as [|y l IH]; intros x; simpl.
  - split; [now left|]. intros z [<-|[]]. lia.
  - destruct (IH (Z.max x y)) as [Hin Hub]. split.
    + destruct Hin as [E|Hin].
      * rewrite <- E. destruct (Z.max_spec x y) as [[_ ->]|[_ ->]]; simpl; auto.
      * simpl. auto.
    + intros z Hz.
      assert (Hm : (Z.max x y <= fold_left Z.max l (Z.max x y))%Z)
        by (apply Hub; now left).
      destruct Hz as [<-|[<-|Hz]]; try lia.
      apply Hub. now right.
Qed.

Lemma is_max_unique (m m' : Z) (l : list Z) :
  is_max m l -> is_max m' l -> m = m'.
Proof.
  intros [Hin Hub] [Hin' Hub'].
  pose proof (Hub _ Hin'). pose proof (Hub' _ Hin). lia.
Qed.

(** The greatest of the greatest values of the groups is the greatest
    value of all. *)
Lemma is_max_concat (m : Z) (ms : list Z) (groups : list (list Z)) :
  Forall2 is_max ms groups -> is_max m ms -> is_max m (concat groups).
Proof.
  intros HF [Hin Hub]. split.
  - clear Hub. induction HF as [|m0 g ms groups [Hg _] _ IH]; simpl in *;
      [contradiction|].
    apply in_or_app. destruct Hin as [<-|Hin]; [now left|right; auto].
  - intros x Hx. clear Hin.
    induction HF as [|m0 g ms groups [_ Hg] _ IH]; simpl in *;
      [contradiction|].
    apply in_app_or in Hx. destruct Hx as [Hx|Hx].
    + pose proof (Hg _ Hx). pose proof (Hub m0 (or_introl eq_refl)). lia.
    + apply IH; [|assumption]. intros z Hz. apply Hub. now right.
Qed.

(** [np.max] over blocks of one shape: the block of the greatest values. *)
Lemma amax_is_max (Y X : nat) (planes : list image) :
  1 <= Y -> planes <> [] -> Forall (has_shape Y X) planes ->
  exists img,
    amax planes = Ok img /\ has_shape Y X img /\
    forall y x, y < Y -> x < X ->
                is_max (pix img y x) (map (fun p => pix p y x) planes).
Proof.
  intros HY Hne HF. destruct planes as [|a rest]; [congruence|].
  inversion HF as [|? ? Ha Hrest]; subst.
  destruct (fold_maximum Y X rest a Ha Hrest) as [Hs Hp].
  exists (fold_left maximum rest a). unfold amax.
  replace (forallb (same_shape a) rest) with true.
  - split; [reflexivity|]. split; [assumption|].
    intros y x Hy Hx. rewrite Hp by assumption. simpl.
    apply fold_max_is_max.
  - symmetry. apply forallb_forall. intros b Hb.
    rewrite Forall_forall in Hrest.
    apply (same_shape_true Y X); auto.
Qed.

(** ** Running groups of tasks *)

Lemma io_mapM_fst {A B} (f : A -> io B) (l : list A) (bs : list B) :
  Forall2 (fun a b => fst (f a) = Ok b) l bs ->
  fst (io_mapM f l) = Ok bs.
Proof.
  induction 1 as [|a b l bs Hab _ IH]; simpl; [reflexivity|].
  unfold io_bind at 1. rewrite Hab. simpl.
  unfold io_bind at 1. rewrite IH. reflexivity.
Qed.

Lemma run_amax_blocks (w : world) (fl : list string) (group : list task)
  (imgs : list image) :
  Forall2 (fun k img => fst (run_task w fl k) = Ok img) group imgs ->
  fst (run_task w fl (amax_blocks group)) = amax imgs.
Proof.
  intros H. simpl.
  assert (E : (fix run_all (l : list task) : io (list image) :=
                 match l with
                 | [] => io_ret []
                 | a :: l' =>
                     b <- run_task w fl a ;;
                     bs <- run_all l' ;;
                     io_ret (b :: bs)
                 end) group = io_mapM (run_task w fl) group).
  { clear H. induction group as [|k group IH]; [reflexivity|].
    simpl. now rewrite IH. }
  rewrite E. unfold io_bind. rewrite (io_mapM_fst _ _ _ H). reflexivity.
Qed.

(** ** The tree of the reduction *)

Lemma yields_max_group (w : world) (fl : list string) (Y X : nat)
  (group : list task) (covers : list (list image)) :
  1 <= Y -> group <> [] ->
  Forall2 (yields_max w fl Y X) group covers ->
  yields_max w fl Y X (amax_blocks group) (concat covers).
Proof.
  intros HY Hne HF.
  assert (Himgs : exists imgs,
             Forall2 (fun k img => fst (run_task w fl k) = Ok img) group imgs /\
             Forall (has_shape Y X) imgs /\
             Forall2 (fun img c =>
                        forall y x, y < Y -> x < X ->
                          is_max (pix img y x) (map (fun p => pix p y x) c))
                     imgs covers).
  { clear Hne. induction HF as [|k c group covers [img [Hr [Hs Hm]]] _ IH].
    - exists []. repeat constructor.
    - destruct IH as [imgs [H1 [H2 H3]]].
      exists (img :: imgs). repeat split; constructor; assumption. }
  destruct Himgs as [imgs [Hrun [Hshape Hmax]]].
  assert (Hne' : imgs <> []).
  { destruct Hrun; [congruence|discriminate]. }
  destruct (amax_is_max Y X imgs HY Hne' Hshape) as [img [Ha [Hs Hm]]].
  exists img. split; [|split; [assumption|]].
  - rewrite (run_amax_blocks _ _ _ _ Hrun). exact Ha.
  - intros y x Hy Hx. rewrite concat_map.
    apply (is_max_concat _ (map (fun p => pix p y x) imgs)).
    + clear Hm Ha Hne' Hrun Hshape HF Hne.
      induction Hmax; simpl; constructor; auto.
    + now apply Hm.
Qed.

Lemma concat_groups {A} (ll : list (list (list A))) :
  concat (map (@concat A) ll) = concat (concat ll).
Proof.
  induction ll as [|l ll IH]; simpl; [reflexivity|].
  now rewrite concat_app, IH.
Qed.

Lemma partition_all_concat {A} (fuel n : nat) (l : list A) :
  1 <= n -> length l <= fuel -> concat (partition_all fuel n l) = l.
Proof.
  intros Hn. revert l; induction fuel as [|fuel IH]; intros l Hl.
  - destruct l; [reflexivity|simpl in Hl; lia].
  - destruct l as [|x l]; [reflexivity|].
    cbn [partition_all concat]. rewrite IH.
    + apply firstn_skipn.
    + rewrite length_skipn. cbn [length] in *. lia.
Qed.

Lemma partition_all_nonempty {A} (fuel n : nat) (l : list A) :
  1 <= n -> Forall (fun g => g <> []) (partition_all fuel n l).
Proof.
  intros Hn. revert l; induction fuel as [|fuel IH]; intros l; simpl;
    [constructor|].
  destruct l as [|x l]; constructor; [|apply IH].
  destruct n; [lia|]. simpl. discriminate.
Qed.

Lemma Forall2_firstn {A B} (R : A -> B -> Prop) (n : nat)
  (l : list A) (c : list B) :
  Forall2 R l c -> Forall2 R (firstn n l) (firstn n c).
Proof.
  intros H. revert n. induction H; intros [|n]; simpl; constructor; auto.
Qed.

Lemma Forall2_skipn {A B} (R : A -> B -> Prop) (n : nat)
  (l : list A) (c : list B) :
  Forall2 R l c -> Forall2 R (skipn n l) (skipn n c).
Proof.
  intros H. revert n. induction H; intros [|n]; simpl;
    try constructor; auto.
Qed.

Lemma partition_all_Forall2 {A B} (R : A -> B -> Prop) (fuel n : nat)
  (l : list A) (c : list B) :
  Forall2 R l c ->
  Forall2 (Forall2 R) (partition_all fuel n l) (partition_all fuel n c).
Proof.
  revert l c; induction fuel as [|fuel IH]; intros l c H; simpl;
    [constructor|].
  destruct H as [|x y l c Hxy H]; [constructor|].
  constructor.
  - apply Forall2_firstn. now constructor.
  - apply IH. apply Forall2_skipn. now constructor.
Qed.

Lemma partition_all_length {A} (fuel : nat) (l : list A) :
  length l <= fuel ->
  length (partition_all fuel split_every l) = ceil_div4 (length l).
Proof.
  unfold ceil_div4, split_every.
  revert l; induction fuel as [|fuel IH]; intros l Hl.
  - destruct l; [reflexivity|simpl in Hl; lia].
  - destruct l as [|x l]; [reflexivity|].
    cbn [partition_all length]. rewrite IH by (rewrite length_skipn; cbn [length] in *; lia).
    rewrite length_skipn. cbn [length].
    pose proof (Nat.div_mod_eq (S (length l) - 4 + 4 - 1) 4) as E1.
    pose proof (Nat.mod_upper_bound (S (length l) - 4 + 4 - 1) 4) as B1.
    pose proof (Nat.div_mod_eq (S (length l) + 4 - 1) 4) as E2.
    pose proof (Nat.mod_upper_bound (S (length l) + 4 - 1) 4) as B2.
    lia.
Qed.

(** One level of the tree keeps what the blocks stand for and groups them
    four by four. *)
Lemma partial_reduce_yields (w : world) (fl : list string) (Y X : nat)
  (l : list task) (C : list (list image)) :
  1 <= Y ->
  Forall2 (yields_max w fl Y X) l C ->
  exists C',
    Forall2 (yields_max w fl Y X) (partial_reduce l) C' /\
    concat C' = concat C.
Proof.
  intros HY HF.
  exists (map (@concat image) (partition_all (length l) split_every C)).
  split.
  - unfold partial_reduce.
    pose proof (partition_all_Forall2 _ (length l) split_every _ _ HF) as HG.
    assert (HN : Forall (fun g : list task => g <> [])
                        (partition_all (length l) split_every l))
      by (apply partition_all_nonempty; unfold split_every; lia).
    revert HN. induction HG as [|g cg G CG Hg _ IH]; intros HN; simpl;
      constructor.
    + inversion HN; subst. now apply yields_max_group.
    + apply IH. now inversion HN.
  - rewrite concat_groups. rewrite partition_all_concat.
    + reflexivity.
    + unfold split_every; lia.
    + rewrite (Forall2_length HF). lia.
Qed.

Lemma partial_reduce_length (l : list task) :
  length (partial_reduce l) = ceil_div4 (length l).
Proof.
  unfold partial_reduce. rewrite length_map.
  now apply partition_all_length.
Qed.

Lemma iter_partial_reduce_length (d : nat) (l : list task) :
  length (Nat.iter d partial_reduce l) = Nat.iter d ceil_div4 (length l).
Proof.
  induction d as [|d IH]; simpl; [reflexivity|].
  now rewrite partial_reduce_length, IH.
Qed.

Lemma iter_partial_reduce_yields (w : world) (fl : list string) (Y X : nat)
  (d : nat) (l : list task) (C : list (list image)) :
  1 <= Y ->
  Forall2 (yields_max w fl Y X) l C ->
  exists C',
    Forall2 (yields_max w fl Y X) (Nat.iter d partial_reduce l) C' /\
    concat C' = concat C.
Proof.
  intros HY HF. induction d as [|d [C1 [H1 E1]]]; simpl.
  - now exists C.
  - destruct (partial_reduce_yields _ _ _ _ _ _ HY H1) as [C2 [H2 E2]].
    exists C2. split; [assumption|congruence].
Qed.

Lemma ceil_div4_bounds (n : nat) : 2 <= n -> 1 <= ceil_div4 n < n.
Proof.
  intros H. unfold ceil_div4, split_every.
  pose proof (Nat.div_mod_eq (n + 4 - 1) 4).
  pose proof (Nat.mod_upper_bound (n + 4 - 1) 4).
  lia.
Qed.

Lemma iter_ceil_log (fuel n : nat) :
  n <= fuel -> 1 <= n ->
  Nat.iter (ceil_log fuel split_every n) ceil_div4 n = 1.
Proof.
  revert n; induction fuel as [|fuel IH]; intros n Hf Hn; [lia|].
  cbn [ceil_log]. destruct (Nat.leb_spec n 1) as [H1|H2].
  - simpl. lia.
  - rewrite Nat.iter_succ_r.
    change ((n + split_every - 1) / split_every) with (ceil_div4 n).
    pose proof (ceil_div4_bounds n H2).
    apply IH; lia.
Qed.

(** The planned number of levels brings any number of blocks down to
    one. *)
Lemma tree_depth_reaches_one (n : nat) :
  1 <= n -> Nat.iter (tree_depth n) ceil_div4 n = 1.
Proof.
  intros Hn. unfold tree_depth.
  pose proof (iter_ceil_log n n (Nat.le_refl n) Hn) as E.
  destruct (ceil_log n split_every n) as [|d] eqn:D.
  - simpl in E. subst n. reflexivity.
  - rewrite Nat.max_r by lia. exact E.
Qed.

Lemma concat_singletons {A} (l : list A) : concat (map (fun x => [x]) l) = l.
Proof. induction l as [|x l IH]; simpl; congruence. Qed.

(** The reduction over depth leaves one block per time point, and that
    block is the maximum over all planes of the time point. *)
Lemma reduce_depth_yields (w : world) (fl : list string) (Y X : nat)
  (leaves : list task) (planes : list image) :
  1 <= Y -> leaves <> [] ->
  Forall2 (fun k p => fst (run_task w fl k) = Ok p /\ has_shape Y X p)
          leaves planes ->
  exists k, reduce_depth leaves = [k] /\ yields_max w fl Y X k planes.
Proof.
  intros HY Hne HF.
  assert (H0 : Forall2 (yields_max w fl Y X)
                       (map (fun b => amax_blocks [b]) leaves)
                       (map (fun p => [p]) planes)).
  { clear Hne. induction HF as [|k p leaves planes [Hr Hs] _ IH]; simpl;
      constructor; [|assumption].
    change [p] with (concat [[p]]).
    apply yields_max_group; [assumption|discriminate|].
    constructor; [|constructor].
    exists p. split; [assumption|]. split; [assumption|].
    intros y x _ _. split; [now left|]. intros z [<-|[]]. lia. }
  destruct (iter_partial_reduce_yields w fl Y X
              (tree_depth (length leaves)) _ _ HY H0) as [C [HC EC]].
  rewrite concat_singletons in EC.
  assert (HL : length (reduce_depth leaves) = 1).
  { unfold reduce_depth. rewrite iter_partial_reduce_length, length_map.
    apply tree_depth_reaches_one.
    destruct leaves; [congruence|simpl; lia]. }
  fold (reduce_depth leaves) in HC.
  destruct (reduce_depth leaves) as [|k [|k' r]]; try discriminate.
  exists k. split; [reflexivity|].
  inversion HC as [|? c ? C' Hk HC']; subst. inversion HC'; subst.
  simpl. rewrite app_nil_r. exact Hk.
Qed.

Lemma Zmax_list_is_max (first : Z) (rest : list Z) :
  is_max (Zmax_list first rest) (first :: rest).
Proof.
  unfold Zmax_list. induction rest as [|x rest [Hin Hub]]; simpl.
  - split; [now left|]. intros z [<-|[]]. lia.
  - split.
    + destruct (Z.max_spec x (fold_right Z.max first rest)) as [[_ ->]|[_ ->]].
      * destruct Hin as [E|Hin]; [left; exact E|right; now right].
      * right. now left.
    + intros z [<-|[<-|Hz]].
      * pose proof (Hub first (or_introl eq_refl)). lia.
      * lia.
      * pose proof (Hub z (or_intror Hz)). lia.
Qed.

Lemma Forall2_map_seq {A B} (R : A -> B -> Prop) (f : nat -> A)
  (l : list B) (d : B) (s : nat) :
  (forall i, i < length l -> R (f (s + i)) (nth i l d)) ->
  Forall2 R (map f (seq s (length l))) l.
Proof.
  revert s; induction l as [|b l IH]; intros s H; simpl; constructor.
  - specialize (H 0). rewrite Nat.add_0_r in H. apply H. simpl. lia.
  - apply IH. intros i Hi. specialize (H (S i)).
    rewrite Nat.add_succ_r in H. apply H. simpl. lia.
Qed.

Lemma Forall2_map_both {A B C} (R : B -> C -> Prop) (f : A -> B)
  (g : A -> C) (l : list A) :
  (forall x, In x l -> R (f x) (g x)) -> Forall2 R (map f l) (map g l).
Proof.
  induction l as [|x l IH]; intros H; simpl; constructor.
  - apply H. now left.
  - apply IH. intros y Hy. apply H. now right.
Qed.

Lemma concat_map_singleton {A B} (g : A -> list B) (d : B) (l : list A) :
  (forall x, In x l -> length (g x) = 1) ->
  concat (map g l) = map (fun x => hd d (g x)) l.
Proof.
  induction l as [|x l IH]; intros H; simpl; [reflexivity|].
  rewrite IH by (intros y Hy; apply H; now right).
  pose proof (H x (or_introl eq_refl)) as Hx.
  destruct (g x) as [|b [|b' r]]; simpl in *; try discriminate. reflexivity.
Qed.

Lemma window_seq (n t0 t1 : nat) :
  t1 <= n -> firstn (t1 - t0) (skipn t0 (seq 0 n)) = seq t0 (t1 - t0).
Proof.
  intros H. rewrite skipn_seq. simpl.
  apply (nth_ext _ _ 0 0).
  - rewrite length_firstn, !length_seq. lia.
  - intros i Hi. rewrite length_firstn, length_seq in Hi.
    rewrite nth_firstn. destruct (Nat.ltb_spec i (t1 - t0)); [|lia].
    rewrite !seq_nth by lia. reflexivity.
Qed.

Lemma reduce_depth_length (leaves : list task) :
  leaves <> [] -> length (reduce_depth leaves) = 1.
Proof.
  intros Hne. unfold reduce_depth.
  rewrite iter_partial_reduce_length, length_map.
  apply tree_depth_reaches_one.
  destruct leaves; [congruence|simpl; lia].
Qed.

(** The projection has one block per time point. *)
Lemma projection_blocks (nt nz : nat) :
  1 <= nz ->
  concat (map reduce_depth
              (map (fun t => map (fun z => load_2d_call t z) (seq 0 nz))
                   (seq 0 nt)))
  = map (fun t => projection_block t nz) (seq 0 nt).
Proof.
  intros Hnz. rewrite map_map. apply concat_map_singleton.
  intros t _. apply reduce_depth_length. now apply seq_not_nil.
Qed.

(** The block of one time point of the projection holds, on every window,
    the pointwise maximum over the planes of that time point, when all of
    them are read with one shape. *)
Lemma projection_block_slab (w : world) (fl : list string) (Y X nz t : nat)
  (planes : nat -> image) :
  1 <= Y -> 1 <= nz ->
  (forall z, z < nz ->
     fst (load_2d w fl t z) = Ok (planes z) /\ has_shape Y X (planes z)) ->
  exists img,
    fst (run_task w fl (projection_block t nz)) = Ok img /\
    has_shape Y X img /\
    forall y0 y1 x0 x1, y1 <= Y -> x1 <= X ->
      crop img y0 y1 x0 x1
      = slab_max (planes 0) (map planes (seq 1 (nz - 1))) y0 y1 x0 x1.
Proof.
  intros HY Hnz Hplanes.
  assert (Hleaves :
            Forall2 (fun k pl => fst (run_task w fl k) = Ok pl /\
                                 has_shape Y X pl)
                    (map (fun z => load_2d_call t z) (seq 0 nz))
                    (map planes (seq 0 nz))).
  { apply Forall2_map_both. intros z Hz. apply in_seq in Hz.
    cbn [run_task]. apply Hplanes. lia. }
  assert (Hne : map (fun z => load_2d_call t z) (seq 0 nz) <> [])
    by now apply seq_not_nil.
  destruct (reduce_depth_yields _ _ _ _ _ _ HY Hne Hleaves)
    as [k [Hk [img [Hrun [Hshape Hmax]]]]].
  exists img. unfold projection_block. rewrite Hk. simpl hd.
  split; [exact Hrun|]. split; [exact Hshape|].
  intros y0 y1 x0 x1 Hy1 Hx1.
  rewrite (crop_tabulate Y X) by assumption.
  unfold slab_max.
  assert (Eplanes : map planes (seq 0 nz)
                    = planes 0 :: map planes (seq 1 (nz - 1))).
  { destruct nz as [|n]; [lia|]. simpl. now rewrite Nat.sub_0_r. }
  destruct (le_lt_dec y0 y1) as [Hy|Hy], (le_lt_dec x0 x1) as [Hx|Hx].
  - apply tabulate_ext. intros r c Hr Hc.
    apply (is_max_unique _ _ (map (fun pl => pix pl (y0 + r) (x0 + c))
                                  (map planes (seq 0 nz)))).
    + apply Hmax; lia.
    + rewrite Eplanes. apply Zmax_list_is_max.
  - replace (x1 - x0) with 0 by lia. reflexivity.
  - replace (y1 - y0) with 0 by lia. reflexivity.
  - replace (y1 - y0) with 0 by lia. reflexivity.
Qed.

(** C4, as the code has it.  For every sub-region [t0:t1, y0:y1, x0:x1]
    of the depth projection [ims.max(1)] (the axis [ims.max(-3)] names too)
    whose input slab materializes, that is, every plane [ims[t, z]] of the
    time points it covers computes to a buffer [slab t z] of the declared
    plane shape, the computed result is, time point by time point, the
    pointwise maximum over the full depth range [0 .. N_z - 1] of the
    volume of the corresponding window of these planes; and so is the
    whole plane the viewer materializes at such a time point. *)
Theorem depth_projection_region (w : world) (idx : frame_index)
  (a : darr (list (list task))) (slab : nat -> nat -> image)
  (t0 t1 y0 y1 x0 x1 : nat) :
  ims idx = Ok a -> 1 <= N_x idx ->
  t1 <= N_t idx -> y1 <= N_x idx -> x1 <= N_y idx ->
  (forall t z, t0 <= t < t1 -> z < N_z idx ->
     exists b,
       rbind (da_getitem a (Z.of_nat t)) (fun r => da_getitem r (Z.of_nat z))
         = Ok b /\
       fst (compute w (files idx) b) = Ok (slab t z) /\
       has_shape (N_x idx) (N_y idx) (slab t z)) ->
  normalize_axis (-3) 4 = normalize_axis 1 4 /\
  shape (da_max_axis1 a) = [N_t idx; N_x idx; N_y idx] /\
  fst (compute_stack w (files idx)
         (da_getitem_tyx (da_max_axis1 a) t0 t1 y0 y1 x0 x1))
  = Ok (map (fun t => slab_max (slab t 0)
                               (map (slab t) (seq 1 (N_z idx - 1)))
                               y0 y1 x0 x1)
            (seq t0 (t1 - t0))) /\
  forall t, t0 <= t < t1 ->
    fst (plane_at (projection_view w (files idx) (da_max_axis1 a))
                  [Z.of_nat t])
    = Ok (slab_max (slab t 0) (map (slab t) (seq 1 (N_z idx - 1)))
                   0 (N_x idx) 0 (N_y idx)).
Proof.
  intros Ha HY Ht1 Hy1 Hx1 Hslab.
  split; [reflexivity|].
  destruct (ims_extents _ _ Ha) as [HT HZ].
  assert (Hblock : forall t, t0 <= t < t1 ->
            exists img,
              fst (run_task w (files idx) (projection_block t (N_z idx)))
              = Ok img /\
              has_shape (N_x idx) (N_y idx) img /\
              forall u0 u1 v0 v1, u1 <= N_x idx -> v1 <= N_y idx ->
                crop img u0 u1 v0 v1
                = slab_max (slab t 0) (map (slab t) (seq 1 (N_z idx - 1)))
                           u0 u1 v0 v1).
  { intros t Ht.
    apply (projection_block_slab w (files idx) (N_x idx) (N_y idx)
                                 (N_z idx) t (slab t) HY HZ).
    intros z Hz. destruct (Hslab t z Ht Hz) as [b [Hb [Hc Hsh]]].
    rewrite (ims_getitem idx a t z Ha) in Hb by lia.
    injection Hb as <-. split; [exact Hc|exact Hsh]. }
  rewrite (ims_ok idx HT HZ) in Ha. injection Ha as <-.
  split; [reflexivity|].
  split.
  - unfold compute_stack, da_getitem_tyx, da_max_axis1. cbn [blocks].
    rewrite (projection_blocks _ _ HZ).
    rewrite skipn_map, firstn_map, (window_seq _ _ _ Ht1), map_map.
    apply io_mapM_fst. apply Forall2_map_both.
    intros t Hin. apply in_seq in Hin.
    destruct (Hblock t) as [img [Hrun [_ Hcrop]]]; [lia|].
    cbn [run_task]. unfold io_bind. rewrite Hrun. simpl.
    now rewrite Hcrop.
  - intros t Ht.
    destruct (Hblock t Ht) as [img [Hrun [Hshape Hcrop]]].
    cbn [plane_at projection_view]. unfold da_getitem, da_max_axis1.
    cbn [blocks]. rewrite (projection_blocks _ _ HZ).
    erewrite getitem_nat
      by (rewrite nth_error_map_seq by lia; reflexivity).
    unfold io_bind, compute. simpl. rewrite Hrun.
    rewrite <- (Hcrop 0 (N_x idx) 0 (N_y idx)) by lia.
    now rewrite crop_full.
Qed.

Lemma depth_projection_region_witness :
  normalize_axis (-3) 4 = normalize_axis 1 4 /\
  shape (da_max_axis1 demo_ims)
  = [N_t demo_index; N_x demo_index; N_y demo_index] /\
  fst (compute_stack demo_world (files demo_index)
         (da_getitem_tyx (da_max_axis1 demo_ims) 1 3 2 4 5 8))
  = Ok (map (fun t =>
               slab_max
                 (tabulate 10 10
                    (fun y x => Z.of_nat (1000 * t + 100 * 0 + 10 * y + x)))
                 (map (fun z =>
                         tabulate 10 10
                           (fun y x =>
                              Z.of_nat (1000 * t + 100 * z + 10 * y + x)))
                      (seq 1 (N_z demo_index - 1)))
                 2 4 5 8)
            (seq 1 (3 - 1))) /\
  forall t, 1 <= t < 3 ->
    fst (plane_at (projection_view demo_world (files demo_index)
                                   (da_max_axis1 demo_ims))
                  [Z.of_nat t])
    = Ok (slab_max
            (tabulate 10 10
               (fun y x => Z.of_nat (1000 * t + 100 * 0 + 10 * y + x)))
            (map (fun z =>
                    tabulate 10 10
                      (fun y x => Z.of_nat (1000 * t + 100 * z + 10 * y + x)))
                 (seq 1 (N_z demo_index - 1)))
            0 (N_x demo_index) 0 (N_y demo_index)).
Proof.
  apply (depth_projection_region demo_world demo_index demo_ims
           (fun t z =>
              tabulate 10 10
                (fun y x => Z.of_nat (1000 * t + 100 * z + 10 * y + x)))
           1 3 2 4 5 8).
  - vm_compute. reflexivity.
  - simpl. lia.
  - simpl. lia.
  - simpl. lia.
  - simpl. lia.
  - intros t z Ht Hz. simpl in Hz.
    assert (Et : t = 1 \/ t = 2) by lia.
    assert (Ez : z = 0 \/ z = 1 \/ z = 2) by lia.
    destruct Et as [->| ->]; destruct Ez as [->|[->| ->]];
      (eexists; split; [vm_compute; reflexivity|];
       split; [vm_compute; reflexivity|apply tabulate_shape]).
Defined.

(** C4, as the claim has it, fails: over a first file of six planes and a
    second file of five the projection has shape (2, 10, 10); the region
    [1:2, 0:10, 0:10] lies within it, and computing it raises where the
    claim has a result. *)
Lemma projection_short_file :
  scan short_world file_pattern = Ok short_index /\
  ims short_index = Ok short_ims /\
  shape (da_max_axis1 short_ims) = [2; 10; 10] /\
  exists e,
    fst (compute_stack short_world (files short_index)
           (da_getitem_tyx (da_max_axis1 short_ims) 1 2 0 10 0 10))
    = Raise e.
Proof.
  split; [vm_compute; reflexivity|]. split; [vm_compute; reflexivity|].
  split; [vm_compute; reflexivity|]. eexists. vm_compute. reflexivity.
Qed.

(** ** Filtering a region with an overlap margin *)

Lemma map_seq_from {A} (g : nat -> A) (s n : nat) :
  map g (seq s n) = map (fun i => g (s + i)) (seq 0 n).
Proof.
  revert s; induction n as [|n IH]; intros s; simpl; [reflexivity|].
  rewrite Nat.add_0_r. f_equal.
  rewrite IH, <- seq_shift, map_map.
  apply map_ext. intros i. now rewrite Nat.add_succ_r.
Qed.

(** A window of a table is the table of the window. *)
Lemma window_table {B} (f : nat -> nat -> B) (H W a0 a1 b0 b1 : nat) :
  a1 <= H -> b1 <= W ->
  Overlap.window (map (fun i => map (fun j => f i j) (seq 0 W)) (seq 0 H))
                 a0 a1 b0 b1
  = map (fun i => map (fun j => f (a0 + i) (b0 + j)) (seq 0 (b1 - b0)))
        (seq 0 (a1 - a0)).
Proof.
  intros Ha Hb. unfold Overlap.window.
  rewrite skipn_map, firstn_map, (window_seq _ _ _ Ha), map_map.
  rewrite map_seq_from. apply map_ext. intros i.
  rewrite skipn_map, firstn_map, (window_seq _ _ _ Hb).
  apply map_seq_from.
Qed.

Lemma nth_error_window {A} (l : list A) (lo hi i : nat) :
  nth_error (firstn (hi - lo) (skipn lo l)) i
  = if i <? hi - lo then nth_error l (lo + i) else None.
Proof.
  rewrite nth_error_firstn. destruct (i <? hi - lo); [|reflexivity].
  apply nth_error_skipn.
Qed.

(** Looking into a window of an array is looking into the array, as long
    as the position is inside the window. *)
Lemma at_pos_window {A} (a : list (list A)) (ylo yhi xlo xhi : nat)
  (r c : Z) :
  (0 <= r < Z.of_nat (yhi - ylo))%Z -> (0 <= c < Z.of_nat (xhi - xlo))%Z ->
  Overlap.at_pos (Overlap.window a ylo yhi xlo xhi) r c
  = Overlap.at_pos a (Z.of_nat ylo + r) (Z.of_nat xlo + c).
Proof.
  intros Hr Hc. unfold Overlap.at_pos, Overlap.window.
  destruct (Z.leb_spec 0 r); [|lia]. destruct (Z.leb_spec 0 c); [|lia].
  destruct (Z.leb_spec 0 (Z.of_nat ylo + r)); [|lia].
  destruct (Z.leb_spec 0 (Z.of_nat xlo + c)); [|lia].
  simpl. rewrite nth_error_map, nth_error_window.
  destruct (Nat.ltb_spec (Z.to_nat r) (yhi - ylo)); [|lia].
  replace (Z.to_nat (Z.of_nat ylo + r)) with (ylo + Z.to_nat r) by lia.
  destruct (nth_error a (ylo + Z.to_nat r)) as [row|]; simpl; [|reflexivity].
  rewrite nth_error_window.
  destruct (Nat.ltb_spec (Z.to_nat c) (xhi - xlo)); [|lia].
  now replace (Z.to_nat (Z.of_nat xlo + c)) with (xlo + Z.to_nat c) by lia.
Qed.

Lemma at_pos_outside {A} (a : list (list A)) (R C : nat) (r c : Z) :
  length a = R -> Forall (fun row => length row = C) a ->
  (r < 0 \/ Z.of_nat R <= r \/ c < 0 \/ Z.of_nat C <= c)%Z ->
  Overlap.at_pos a r c = None.
Proof.
  intros HR HC Hout. unfold Overlap.at_pos.
  destruct (Z.leb_spec 0 r); [|reflexivity].
  destruct (Z.leb_spec 0 c); [|reflexivity]. simpl.
  destruct (nth_error a (Z.to_nat r)) as [row|] eqn:E; [|reflexivity].
  assert (Hrow : length row = C).
  { rewrite Forall_forall in HC. apply HC. eapply nth_error_In; eauto. }
  assert (Hr : Z.to_nat r < R).
  { rewrite <- HR. apply nth_error_Some. congruence. }
  apply nth_error_None. lia.
Qed.

Lemma Forall_window {A} (P : A -> Prop) (l : list A) (lo hi : nat) :
  Forall P l -> Forall P (firstn (hi - lo) (skipn lo l)).
Proof.
  intros H. generalize (hi - lo) as n. revert lo.
  induction H as [|x l Hx H IH]; intros lo n.
  - rewrite skipn_nil, firstn_nil. constructor.
  - destruct lo as [|lo]; [|apply IH].
    simpl. destruct n as [|n]; simpl; constructor; [assumption|].
    apply (IH 0).
Qed.

Lemma window_shape {A} (a : list (list A)) (R C ylo yhi xlo xhi : nat) :
  length a = R -> Forall (fun row => length row = C) a ->
  yhi <= R -> xhi <= C ->
  length (Overlap.window a ylo yhi xlo xhi) = yhi - ylo /\
  Forall (fun row => length row = xhi - xlo)
         (Overlap.window a ylo yhi xlo xhi).
Proof.
  intros HR HC Hy Hx. unfold Overlap.window. split.
  - rewrite length_map. apply length_window. lia.
  - apply Forall_map. apply Forall_window.
    apply Forall_forall. intros row Hin. rewrite Forall_forall in HC.
    apply length_window. rewrite (HC row Hin). exact Hx.
Qed.

(** Along one axis: an offset within the support, taken from a position
    of the requested range, either falls inside the padded range, at the
    same place of the array, or falls off both the padded range and the
    array. *)
Lemma margin_index (r m n p0 p1 i : nat) (d : Z) :
  r <= m -> p1 <= n -> i < p1 - p0 -> (Z.abs d <= Z.of_nat r)%Z ->
  let lo := p0 - m in
  let hi := Nat.min n (p1 + m) in
  let q := (Z.of_nat (p0 - lo + i) + d)%Z in
  let g := (Z.of_nat (p0 + i) + d)%Z in
  ((0 <= q < Z.of_nat (hi - lo))%Z /\ (Z.of_nat lo + q)%Z = g) \/
  ((q < 0 \/ Z.of_nat (hi - lo) <= q)%Z /\ (g < 0 \/ Z.of_nat n <= g)%Z).
Proof.
  intros Hrm Hp1 Hi Hd lo hi q g.
  apply Z.abs_le in Hd.
  assert (Hlo : lo + m = p0 \/ (lo = 0 /\ p0 < m)) by (unfold lo; lia).
  assert (Hhi : (hi = n /\ n <= p1 + m) \/ (hi = p1 + m /\ p1 + m <= n))
    by (unfold hi; lia).
  assert (Hle : lo <= p0) by (unfold lo; lia).
  assert (Hlh : lo <= hi) by lia.
  assert (Eq : (q = Z.of_nat p0 - Z.of_nat lo + Z.of_nat i + d)%Z)
    by (unfold q; lia).
  assert (Eg : (g = Z.of_nat p0 + Z.of_nat i + d)%Z) by (unfold g; lia).
  assert (Eh : (Z.of_nat (hi - lo) = Z.of_nat hi - Z.of_nat lo)%Z) by lia.
  assert (Hi' : (Z.of_nat p0 + Z.of_nat i < Z.of_nat p1)%Z) by lia.
  clearbody lo hi q g. rewrite Eh. clear Eh.
  destruct Hlo as [Hlo|[Hlo Hm]], Hhi as [[Hhi Hn]|[Hhi Hn]]; lia.
Qed.

(** Inside the requested region and within the support, the padded block
    shows the transform the same values as the whole array. *)
Lemma padded_view {A} (a : list (list A)) (r m R C y0 y1 x0 x1 i j : nat)
  (dy dx : Z) :
  r <= m -> length a = R -> Forall (fun row => length row = C) a ->
  y1 <= R -> x1 <= C -> i < y1 - y0 -> j < x1 - x0 ->
  (Z.abs dy <= Z.of_nat r)%Z -> (Z.abs dx <= Z.of_nat r)%Z ->
  Overlap.at_pos
    (Overlap.window a (y0 - m) (Nat.min R (y1 + m))
                    (x0 - m) (Nat.min C (x1 + m)))
    (Z.of_nat (y0 - (y0 - m) + i) + dy) (Z.of_nat (x0 - (x0 - m) + j) + dx)
  = Overlap.at_pos a (Z.of_nat (y0 + i) + dy) (Z.of_nat (x0 + j) + dx).
Proof.
  intros Hrm HR HC Hy1 Hx1 Hi Hj Hdy Hdx.
  pose proof (margin_index r m R y0 y1 i dy Hrm Hy1 Hi Hdy) as My.
  pose proof (margin_index r m C x0 x1 j dx Hrm Hx1 Hj Hdx) as Mx.
  cbv zeta in My, Mx.
  destruct (window_shape a R C (y0 - m) (Nat.min R (y1 + m))
                         (x0 - m) (Nat.min C (x1 + m)) HR HC) as [HL HF];
    [apply Nat.le_min_l | apply Nat.le_min_l |].
  destruct My as [[Hr Er]|[Hr Gr]].
  - destruct Mx as [[Hc Ec]|[Hc Gc]].
    + rewrite (at_pos_window a _ _ _ _ _ _ Hr Hc). now rewrite Er, Ec.
    + rewrite (at_pos_outside _ _ _ _ _ HL HF) by tauto.
      symmetry. apply (at_pos_outside a R C); tauto.
  - rewrite (at_pos_outside _ _ _ _ _ HL HF) by tauto.
    symmetry. apply (at_pos_outside a R C); tauto.
Qed.

(** C3.  For a neighbourhood transform whose support lies within the
    margin, a region evaluated through the overlap mechanism (fetch the
    region with the margin on every side as far as the array goes, run the
    transform, trim the margin) is the same buffer as that region of the
    transform run on the whole array. *)
Theorem map_overlap_matches_whole {A B} (k : Overlap.stencil A B)
  (r m R C : nat) (a : list (list A)) (y0 y1 x0 x1 : nat) :
  Overlap.support_within k r -> r <= m ->
  length a = R -> Forall (fun row => length row = C) a ->
  y1 <= R -> x1 <= C ->
  Overlap.map_overlap_region k m R C a y0 y1 x0 x1
  = Overlap.window (Overlap.apply_filter k R C a) y0 y1 x0 x1.
Proof.
  intros Hk Hrm HR HC Hy1 Hx1.
  unfold Overlap.map_overlap_region, Overlap.apply_filter.
  rewrite !window_table by lia.
  replace (y1 - (y0 - m) - (y0 - (y0 - m))) with (y1 - y0) by lia.
  replace (x1 - (x0 - m) - (x0 - (x0 - m))) with (x1 - x0) by lia.
  apply map_ext_in. intros i Hi. apply in_seq in Hi.
  apply map_ext_in. intros j Hj. apply in_seq in Hj.
  apply Hk. intros dy dx Hdy Hdx.
  apply (padded_view a r m R C y0 y1 x0 x1 i j dy dx); try assumption; lia.
Qed.

Lemma max3x3_support : Overlap.support_within Overlap.max3x3 1.
Proof.
  intros v v' H. unfold Overlap.max3x3. f_equal.
  apply map_ext_in. intros [dy dx] Hin. simpl in Hin. simpl.
  f_equal. apply H;
    repeat (destruct Hin as [E|Hin]; [inversion E; subst; simpl; lia|]);
    contradiction.
Qed.

Lemma map_overlap_matches_whole_witness :
  Overlap.map_overlap_region Overlap.max3x3 1 4 5
    (tabulate 4 5 (fun y x => Z.of_nat (7 * y + 3 * x) mod 11)%Z) 1 3 2 5
  = Overlap.window
      (Overlap.apply_filter Overlap.max3x3 4 5
         (tabulate 4 5 (fun y x => Z.of_nat (7 * y + 3 * x) mod 11)%Z))
      1 3 2 5.
Proof.
  apply (map_overlap_matches_whole Overlap.max3x3 1 1 4 5).
  - exact max3x3_support.
  - lia.
  - reflexivity.
  - repeat constructor.
  - lia.
  - lia.
Defined.

(** With a margin smaller than the support the two evaluations part: the
    3 x 3 maximum run without margin misses the neighbours across the
    region's edge. *)
Example map_overlap_small_margin_differs :
  Overlap.map_overlap_region Overlap.max3x3 0 4 5
    (tabulate 4 5 (fun y x => Z.of_nat (7 * y + 3 * x) mod 11)%Z) 1 3 2 5
  <> Overlap.window
       (Overlap.apply_filter Overlap.max3x3 4 5
          (tabulate 4 5 (fun y x => Z.of_nat (7 * y + 3 * x) mod 11)%Z))
       1 3 2 5.
Proof. intros H. vm_compute in H. discriminate. Qed.

(** * Further properties of the notebook code *)

(** ** The sorted file list does not depend on the listing order *)

Lemma lex_lt_irrefl (a : string) : ~ lex_lt a a.
Proof.
  induction a as [|c a IH]; intros H; inversion H; subst.
  - lia.
  - now apply IH.
Qed.

Lemma lex_le_antisym (a b : string) : lex_le a b -> lex_le b a -> a = b.
Proof.
  intros [E|Hab] [E'|Hba]; auto.
  exfalso. apply (lex_lt_irrefl a). eapply lex_lt_trans; eauto.
Qed.

(** Two sorted lists with the same entries are the same list. *)
Lemma sorted_lists_equal (l l' : list string) :
  StronglySorted lex_le l -> StronglySorted lex_le l' ->
  Permutation l l' -> l = l'.
Proof.
  intros Hl. revert l'. induction Hl as [|x l Hs IH Hx]; intros l' Hl' HP.
  - apply Permutation_nil in HP. now subst.
  - destruct l' as [|y l'].
    { symmetry in HP. apply Permutation_nil in HP. discriminate. }
    inversion Hl' as [|? ? Hs' Hy]; subst.
    assert (Exy : x = y).
    { apply lex_le_antisym.
      - assert (Hin : In y (x :: l))
          by (eapply Permutation_in; [symmetry; exact HP|now left]).
        destruct Hin as [->|Hin]; [now left|].
        rewrite Forall_forall in Hx. now apply Hx.
      - assert (Hin : In x (y :: l'))
          by (eapply Permutation_in; [exact HP|now left]).
        destruct Hin as [->|Hin]; [now left|].
        rewrite Forall_forall in Hy. now apply Hy. }
    subst y. f_equal. apply IH; [assumption|].
    eapply Permutation_cons_inv; eauto.
Qed.

Lemma sorted_of_perm (l l' : list string) :
  Permutation l l' -> sorted l = sorted l'.
Proof.
  intros HP. apply sorted_lists_equal; try apply sorted_is_sorted.
  rewrite sorted_perm, HP. symmetry. apply sorted_perm.
Qed.

Lemma filter_perm {A} (f : A -> bool) (l l' : list A) :
  Permutation l l' -> Permutation (filter f l) (filter f l').
Proof.
  induction 1 as [|x l l' _ IH|x y l|l l' l'' _ IH1 _ IH2]; simpl.
  - constructor.
  - destruct (f x); [now constructor|assumption].
  - destruct (f x), (f y); try reflexivity. apply perm_swap.
  - now transitivity (filter f l').
Qed.

(** X1.  The path list of the scan depends on which files the directory
    holds, not on the order the directory lists them in: two listings of
    the same files give the same sorted list, and sorting again changes
    nothing. *)
Theorem scan_files_listing_independent (w w' : world) (pattern : string) :
  Permutation (w_files w) (w_files w') ->
  w_fnmatch w = w_fnmatch w' ->
  sorted (glob w pattern) = sorted (glob w' pattern) /\
  sorted (sorted (glob w pattern)) = sorted (glob w pattern) /\
  forall idx idx',
    scan w pattern = Ok idx -> scan w' pattern = Ok idx' ->
    files idx = files idx'.
Proof.
  intros HP Hm.
  assert (E : sorted (glob w pattern) = sorted (glob w' pattern)).
  { apply sorted_of_perm. unfold glob. rewrite Hm.
    apply filter_perm. now apply Permutation_map. }
  split; [exact E|]. split.
  - apply sorted_of_perm, sorted_perm.
  - intros idx idx' Hs Hs'.
    now rewrite (scan_files _ _ _ Hs), (scan_files _ _ _ Hs').
Qed.

Lemma scan_files_listing_independent_witness :
  sorted (glob demo_world file_pattern)
  = sorted (glob (mkWorld (rev (w_files demo_world)) fnmatch (fun l => l))
                 file_pattern) /\
  sorted (sorted (glob demo_world file_pattern))
  = sorted (glob demo_world file_pattern) /\
  forall idx idx',
    scan demo_world file_pattern = Ok idx ->
    scan (mkWorld (rev (w_files demo_world)) fnmatch (fun l => l))
         file_pattern = Ok idx' ->
    files idx = files idx'.
Proof.
  apply (scan_files_listing_independent
           demo_world
           (mkWorld (rev (w_files demo_world)) fnmatch (fun l => l))
           file_pattern).
  - apply Permutation_rev.
  - reflexivity.
Defined.

(** ** Zero-padded names sort in time order *)

Lemma tp_name_adjacent :
  forallb (fun t => str_lt (tp_name t) (tp_name (S t))) (seq 0 999) = true.
Proof. vm_compute. reflexivity. Qed.

Lemma tp_name_next (t : nat) :
  t < 999 -> lex_lt (tp_name t) (tp_name (S t)).
Proof.
  intros H. apply str_lt_lex.
  pose proof tp_name_adjacent as A. rewrite forallb_forall in A.
  apply A. apply in_seq. lia.
Qed.

Lemma tp_name_lt (t1 t2 : nat) :
  t1 < t2 -> t2 < 1000 -> lex_lt (tp_name t1) (tp_name t2).
Proof.
  intros H12 H2. induction t2 as [|t2 IH]; [lia|].
  destruct (Nat.eq_dec t1 t2) as [->|Hne].
  - apply tp_name_next. lia.
  - eapply lex_lt_trans; [apply IH; lia|apply tp_name_next; lia].
Qed.

Lemma tp_name_inj (t1 t2 : nat) :
  t1 < 1000 -> t2 < 1000 -> tp_name t1 = tp_name t2 -> t1 = t2.
Proof.
  intros H1 H2 E.
  destruct (Nat.lt_trichotomy t1 t2) as [Hlt|[Heq|Hgt]]; [|assumption|].
  - exfalso. apply (lex_lt_irrefl (tp_name t2)).
    rewrite <- E at 1. now apply tp_name_lt.
  - exfalso. apply (lex_lt_irrefl (tp_name t1)).
    rewrite E at 1. now apply tp_name_lt.
Qed.

Lemma tp_names_sorted (n : nat) :
  n <= 1000 -> StronglySorted lex_le (map tp_name (seq 0 n)).
Proof.
  intros Hn. apply Sorted_StronglySorted.
  { intros a b c. apply lex_le_trans. }
  assert (G : forall len s, s + len <= 1000 ->
                            Sorted lex_le (map tp_name (seq s len))).
  { induction len as [|len IH]; intros s Hs; simpl; constructor.
    - apply IH. lia.
    - destruct len as [|len]; simpl; constructor.
      right. apply tp_name_next. lia. }
  apply G. lia.
Qed.

(** X2.  The names [file_pattern % t] of up to 1000 time points sort in
    time order: however the directory lists them, the sorted list has the
    file of time point [t] at index [t]; different time points have
    different names.  From the 1001st file on this is lost: the name of
    time point 1000 sorts before that of time point 999. *)
Theorem padded_names_sort_by_time (n : nat) (l : list string) :
  n <= 1000 -> Permutation l (map tp_name (seq 0 n)) ->
  sorted l = map tp_name (seq 0 n) /\
  (forall t, t < n -> nth_error (sorted l) t = Some (tp_name t)) /\
  (forall t1 t2, t1 < n -> t2 < n -> tp_name t1 = tp_name t2 -> t1 = t2) /\
  str_lt (tp_name 1000) (tp_name 999) = true.
Proof.
  intros Hn HP.
  assert (E : sorted l = map tp_name (seq 0 n)).
  { apply sorted_lists_equal.
    - apply sorted_is_sorted.
    - now apply tp_names_sorted.
    - now rewrite sorted_perm. }
  split; [exact E|]. split; [|split].
  - intros t Ht. rewrite E. now apply nth_error_map_seq.
  - intros t1 t2 H1 H2. apply tp_name_inj; lia.
  - vm_compute. reflexivity.
Qed.

Lemma padded_names_sort_by_time_witness :
  sorted (rev (map tp_name (seq 0 20))) = map tp_name (seq 0 20) /\
  (forall t, t < 20 ->
     nth_error (sorted (rev (map tp_name (seq 0 20)))) t
     = Some (tp_name t)) /\
  (forall t1 t2, t1 < 20 -> t2 < 20 -> tp_name t1 = tp_name t2 -> t1 = t2) /\
  str_lt (tp_name 1000) (tp_name 999) = true.
Proof.
  apply (padded_names_sort_by_time 20 (rev (map tp_name (seq 0 20)))).
  - lia.
  - symmetry. apply Permutation_rev.
Defined.

(** ** What one call of the reader can do *)

(** X3.  A call [load_2d(t, z)] either raises without having decoded any
    page, or returns page [z] of [files[t]] having decoded exactly that
    page; it raises exactly when [t] is past the file list, the file is
    gone, or the file has no page [z]. *)
Theorem load_2d_reads_one_page_or_none (w : world) (fl : list string)
  (t z : nat) :
  (exists e, load_2d w fl t z = (Raise e, []) /\
             (nth_error fl t = None \/
              exists p, nth_error fl t = Some p /\
                        (lookup p (w_files w) = None \/
                         exists f, lookup p (w_files w) = Some f /\
                                   length (tif_pages f) <= z))) \/
  (exists p f img,
      nth_error fl t = Some p /\ lookup p (w_files w) = Some f /\
      nth_error (tif_pages f) z = Some img /\
      load_2d w fl t z = (Ok img, [PageRead p z])).
Proof.
  destruct (nth_error fl t) as [p|] eqn:Ep.
  - destruct (lookup p (w_files w)) as [f|] eqn:Ef.
    + pose proof (load_2d_run w fl t z p f Ep Ef) as R.
      destruct (nth_error (tif_pages f) z) as [img|] eqn:Ez.
      * right. exists p, f, img. auto.
      * left. eexists. split; [exact R|]. right. exists p. split; [auto|].
        right. exists f. split; [auto|]. now apply nth_error_None.
    + left. exists (FileNotFoundError p). split.
      * unfold load_2d. rewrite (getitem_nat _ _ _ Ep).
        unfold io_bind at 1. simpl. unfold open_tiff. rewrite Ef. reflexivity.
      * right. exists p. auto.
  - left. exists (IndexError "index out of range"). split; [|now left].
    unfold load_2d. rewrite getitem_out_of_range; [reflexivity|].
    apply nth_error_None in Ep. lia.
Qed.

(** ** A single matching file *)

Lemma scan_single (w : world) (pattern p : string) (f : tiff) :
  glob w pattern = [p] -> lookup p (w_files w) = Some f ->
  scan w pattern =
  match tif_axes f with
  | [nt; nz] =>
      Ok (mkIndex [p] nt nz (nrows (tif_page0 f)) (ncols (tif_page0 f))
                  (tif_dtype f))
  | _ => Raise (ValueError "wrong number of values to unpack")
  end.
Proof.
  intros G Hf. unfold scan, imread_aszarr. rewrite G. unfold open_tiff.
  rewrite Hf. simpl. unfold series_shape.
  destruct (tif_axes f) as [|a [|b [|c [|d [|e l]]]]]; reflexivity.
Qed.





(** ** The reads of the depth projection *)

Lemma io_mapM_snd {A B} (f : A -> io B) (l : list A) (bs : list B) :
  Forall2 (fun a b => fst (f a) = Ok b) l bs ->
  snd (io_mapM f l) = concat (map (fun a => snd (f a)) l).
Proof.
  induction 1 as [|a b l bs Hab HF IH]; simpl; [reflexivity|].
  unfold io_bind at 1. rewrite Hab. simpl. f_equal.
  unfold io_bind at 1. rewrite (io_mapM_fst _ _ _ HF). simpl.
  now rewrite IH, app_nil_r.
Qed.

(** The log of a group is the logs of its members, one after the other. *)
Lemma amax_blocks_log (w : world) (fl : list string) (group : list task)
  (imgs : list image) :
  Forall2 (fun k img => fst (run_task w fl k) = Ok img) group imgs ->
  snd (run_task w fl (amax_blocks group))
  = concat (map (fun k => snd (run_task w fl k)) group).
Proof.
  intros H. simpl.
  assert (E : (fix run_all (l : list task) : io (list image) :=
                 match l with
                 | [] => io_ret []
                 | a :: l' =>
                     b <- run_task w fl a ;;
                     bs <- run_all l' ;;
                     io_ret (b :: bs)
                 end) group = io_mapM (run_task w fl) group).
  { clear H. induction group as [|k group IH]; [reflexivity|].
    simpl. now rewrite IH. }
  rewrite E. unfold io_bind. rewrite (io_mapM_fst _ _ _ H). simpl.
  now rewrite app_nil_r, (io_mapM_snd _ _ _ H).
Qed.

Lemma yields_max_runs (w : world) (fl : list string) (Y X : nat)
  (l : list task) (C : list (list image)) :
  Forall2 (yields_max w fl Y X) l C ->
  exists imgs, Forall2 (fun k img => fst (run_task w fl k) = Ok img) l imgs.
Proof.
  induction 1 as [|k c l C [img [Hr _]] _ [imgs IH]].
  - exists []. constructor.
  - exists (img :: imgs). now constructor.
Qed.

Lemma Forall2_partition {A B} (R : A -> B -> Prop) (fuel n : nat)
  (l : list A) (c : list B) (g : list A) :
  Forall2 R l c -> In g (partition_all fuel n l) ->
  exists d, Forall2 R g d.
Proof.
  intros HF Hin.
  pose proof (partition_all_Forall2 R fuel n l c HF) as HG.
  induction HG as [|g0 d0 G D Hgd _ IH]; [contradiction|].
  destruct Hin as [<-|Hin]; [now exists d0|now apply IH].
Qed.

(** One level of the tree reads what the blocks below it read. *)
Lemma partial_reduce_log (w : world) (fl : list string) (Y X : nat)
  (l : list task) (C : list (list image)) :
  Forall2 (yields_max w fl Y X) l C ->
  concat (map (fun k => snd (run_task w fl k)) (partial_reduce l))
  = concat (map (fun k => snd (run_task w fl k)) l).
Proof.
  intros HF. destruct (yields_max_runs _ _ _ _ _ _ HF) as [imgs Himgs].
  unfold partial_reduce. rewrite map_map.
  rewrite (map_ext_in _ (fun g => concat (map (fun k => snd (run_task w fl k))
                                              g))).
  - rewrite <- (map_map (map (fun k => snd (run_task w fl k)))
                        (@concat event)).
    rewrite concat_groups, <- concat_map.
    rewrite partition_all_concat; [reflexivity|unfold split_every; lia|lia].
  - intros g Hg.
    destruct (Forall2_partition _ _ _ _ _ _ Himgs Hg) as [d Hd].
    now apply (amax_blocks_log w fl g d).
Qed.

Lemma iter_partial_reduce_log (w : world) (fl : list string) (Y X : nat)
  (d : nat) (l : list task) (C : list (list image)) :
  1 <= Y ->
  Forall2 (yields_max w fl Y X) l C ->
  concat (map (fun k => snd (run_task w fl k)) (Nat.iter d partial_reduce l))
  = concat (map (fun k => snd (run_task w fl k)) l).
Proof.
  intros HY HF. induction d as [|d IH]; [reflexivity|].
  destruct (iter_partial_reduce_yields w fl Y X d l C HY HF) as [C' [HC' _]].
  cbn [Nat.iter nat_rect]. change (nat_rect _ l (fun _ => partial_reduce) d)
    with (Nat.iter d partial_reduce l).
  now rewrite (partial_reduce_log _ _ _ _ _ _ HC').
Qed.

Lemma Forall2_of_exists {A B} (R : A -> B -> Prop) (l : list A) :
  (forall x, In x l -> exists b, R x b) -> exists bs, Forall2 R l bs.
Proof.
  induction l as [|x l IH]; intros H.
  - exists []. constructor.
  - destruct (H x (or_introl eq_refl)) as [b Hb].
    destruct IH as [bs Hbs]; [intros y Hy; apply H; now right|].
    exists (b :: bs). now constructor.
Qed.

(** Over stacks of one shape the block of one time point of the projection
    is computed, and its log holds the pages of that time point's file,
    each once, in the order of the graph. *)
Lemma projection_block_log (w : world) (pattern : string)
  (idx : frame_index) (nz Y X t : nat) :
  world_ok w -> scan w pattern = Ok idx ->
  1 <= Y -> uniform_dataset w pattern nz Y X ->
  t < N_t idx ->
  (exists img,
      fst (run_task w (files idx) (projection_block t (N_z idx))) = Ok img) /\
  snd (run_task w (files idx) (projection_block t (N_z idx)))
  = map (PageRead (nth t (files idx) EmptyString)) (seq 0 (N_z idx)).
Proof.
  intros Hw Hs HY HU Ht.
  destruct (scan_uniform _ _ _ _ _ _ Hw Hs HY HU)
    as [H2 [Hfl [ET [EZ [EY [EX HZ1]]]]]].
  destruct (scan_files_nth _ _ _ _ Hs H2 Ht) as [_ [p [f [Hp Hf]]]].
  assert (Hin : In p (glob w pattern)).
  { eapply Permutation_in; [apply sorted_perm|].
    rewrite <- Hfl. eapply nth_error_In; eauto. }
  destruct (HU _ _ Hin Hf) as [_ [HZ HP]].
  rewrite (nth_error_nth _ _ EmptyString Hp).
  set (leaves := map (fun z => load_2d_call t z) (seq 0 (N_z idx))).
  assert (Hrun : forall z, z < N_z idx ->
                   run_task w (files idx) (load_2d_call t z)
                   = (Ok (nth z (tif_pages f) []), [PageRead p z])).
  { intros z Hz. cbn [run_task]. rewrite (load_2d_run _ _ _ _ _ _ Hp Hf).
    rewrite (nth_error_nth' (tif_pages f) []) by lia. reflexivity. }
  assert (Hleaves :
            Forall2 (fun k pl => fst (run_task w (files idx) k) = Ok pl /\
                                 has_shape Y X pl)
                    leaves (tif_pages f)).
  { unfold leaves. rewrite EZ, <- HZ. apply (Forall2_map_seq _ _ _ []).
    intros z Hz. change (0 + z) with z.
    rewrite Hrun by (rewrite EZ, <- HZ; exact Hz).
    split; [reflexivity|].
    rewrite Forall_forall in HP. apply HP. now apply nth_In. }
  assert (H0 : Forall2 (yields_max w (files idx) Y X)
                       (map (fun b => amax_blocks [b]) leaves)
                       (map (fun pl => [pl]) (tif_pages f))).
  { clear - HY Hleaves.
    induction Hleaves as [|k pl lv pls [Hr Hsh] _ IH]; simpl;
      constructor; [|assumption].
    change [pl] with (concat [[pl]]).
    apply yields_max_group; [assumption|discriminate|].
    constructor; [|constructor].
    exists pl. split; [assumption|]. split; [assumption|].
    intros y x _ _. split; [now left|]. intros v [<-|[]]. lia. }
  assert (Hne : leaves <> []).
  { apply seq_not_nil. lia. }
  destruct (reduce_depth_yields _ _ _ _ _ _ HY Hne Hleaves)
    as [k [Hk [img [Hok _]]]].
  unfold projection_block. fold leaves. rewrite Hk. simpl hd.
  split; [now exists img|].
  assert (L : concat (map (fun k => snd (run_task w (files idx) k))
                          (reduce_depth leaves))
              = concat (map (fun k => snd (run_task w (files idx) k))
                            (map (fun b => amax_blocks [b]) leaves))).
  { unfold reduce_depth.
    apply (iter_partial_reduce_log w (files idx) Y X _ _ _ HY H0). }
  rewrite Hk in L. simpl in L. rewrite app_nil_r in L. rewrite L.
  rewrite map_map.
  rewrite (map_ext_in _ (fun b => snd (run_task w (files idx) b))).
  - unfold leaves. rewrite map_map.
    rewrite (map_ext_in _ (fun z => [PageRead p z])).
    + clear. induction (seq 0 (N_z idx)) as [|z zs IH]; simpl; congruence.
    + intros z Hz. apply in_seq in Hz. rewrite Hrun by lia. reflexivity.
  - intros b Hb.
    assert (Hok' : exists pl, fst (run_task w (files idx) b) = Ok pl).
    { unfold leaves in Hb. apply in_map_iff in Hb.
      destruct Hb as [z [<- Hz]]. apply in_seq in Hz.
      eexists. rewrite Hrun by lia. reflexivity. }
    destruct Hok' as [pl Hpl].
    rewrite (amax_blocks_log w (files idx) [b] [pl])
      by (constructor; [assumption|constructor]).
    simpl. apply app_nil_r.
Qed.



(** ** A plane that cannot be read *)

Lemma io_mapM_raises {A B} (f : A -> io B) (l : list A) :
  Exists (fun a => exists e, fst (f a) = Raise e) l ->
  exists e, fst (io_mapM f l) = Raise e.
Proof.
  induction 1 as [a l [e He]|a l _ [e He]]; simpl; unfold io_bind at 1.
  - rewrite He. simpl. eauto.
  - destruct (fst (f a)) as [b|e'] eqn:E; simpl; [|eauto].
    unfold io_bind at 1. rewrite He. simpl. eauto.
Qed.

Lemma run_group (w : world) (fl : list string) (group : list task) :
  run_task w fl (amax_blocks group)
  = (imgs <- io_mapM (run_task w fl) group ;; io_lift (amax imgs)).
Proof.
  simpl. f_equal.
  induction group as [|k group IH]; [reflexivity|]. now rewrite IH.
Qed.

(** A group fails with any of its members. *)
Lemma amax_blocks_fails (w : world) (fl : list string) (group : list task) :
  Exists (fails w fl) group -> fails w fl (amax_blocks group).
Proof.
  intros H. destruct (io_mapM_raises _ _ H) as [e He].
  exists e. rewrite run_group. unfold io_bind. now rewrite He.
Qed.

Lemma partial_reduce_fails (w : world) (fl : list string) (l : list task) :
  Exists (fails w fl) l -> Exists (fails w fl) (partial_reduce l).
Proof.
  intros H. unfold partial_reduce. apply Exists_map.
  rewrite <- (partition_all_concat (length l) split_every l) in H
    by (unfold split_every; lia).
  apply Exists_concat in H.
  eapply Exists_impl; [|exact H].
  intros g Hg. now apply amax_blocks_fails.
Qed.

Lemma iter_partial_reduce_fails (w : world) (fl : list string) (d : nat)
  (l : list task) :
  Exists (fails w fl) l -> Exists (fails w fl) (Nat.iter d partial_reduce l).
Proof.
  intros H. induction d as [|d IH]; [exact H|].
  cbn [Nat.iter nat_rect]. now apply partial_reduce_fails.
Qed.

(** The block of a time point fails when one of its planes cannot be
    read. *)
Lemma projection_block_fails (w : world) (fl : list string) (nz t z : nat) :
  z < nz -> fails w fl (load_2d_call t z) ->
  fails w fl (projection_block t nz).
Proof.
  intros Hz Hf.
  set (leaves := map (fun z => load_2d_call t z) (seq 0 nz)).
  assert (Hne : leaves <> []) by (apply seq_not_nil; lia).
  assert (H0 : Exists (fails w fl) (map (fun b => amax_blocks [b]) leaves)).
  { apply Exists_map. unfold leaves. apply Exists_map.
    apply Exists_exists. exists z. split; [apply in_seq; lia|].
    apply amax_blocks_fails. now constructor. }
  pose proof (iter_partial_reduce_fails w fl (tree_depth (length leaves))
                _ H0) as H1.
  fold (reduce_depth leaves) in H1.
  pose proof (reduce_depth_length leaves Hne) as HL.
  unfold projection_block. fold leaves.
  destruct (reduce_depth leaves) as [|k [|k' r]]; try discriminate.
  simpl. inversion H1 as [? ? Hk|? ? Hk]; subst; [exact Hk|inversion Hk].
Qed.

(** X15.  One plane that cannot be read fails every region of the
    projection that covers its time point, however small the window asked
    for: the reduction needs all planes of the time point. *)
Theorem projection_fails_with_plane (w : world) (idx : frame_index)
  (a : darr (list (list task))) (b : darr task) (e : pyexn)
  (t0 t1 y0 y1 x0 x1 t z : nat) :
  ims idx = Ok a -> t1 <= N_t idx ->
  t0 <= t -> t < t1 -> z < N_z idx ->
  rbind (da_getitem a (Z.of_nat t)) (fun r => da_getitem r (Z.of_nat z))
    = Ok b ->
  fst (compute w (files idx) b) = Raise e ->
  exists e',
    fst (compute_stack w (files idx)
           (da_getitem_tyx (da_max_axis1 a) t0 t1 y0 y1 x0 x1))
    = Raise e'.
Proof.
  intros Ha Ht1 Ht0 Ht Hz Hb Hc.
  rewrite (ims_getitem idx a t z Ha) in Hb by lia. injection Hb as <-.
  destruct (ims_extents _ _ Ha) as [HT HZ].
  rewrite (ims_ok idx HT HZ) in Ha. injection Ha as <-.
  unfold compute_stack, da_getitem_tyx, da_max_axis1. cbn [blocks].
  rewrite (projection_blocks _ _ HZ).
  rewrite skipn_map, firstn_map, (window_seq _ _ _ Ht1), map_map.
  apply io_mapM_raises. apply Exists_map. apply Exists_exists.
  exists t. split; [apply in_seq; lia|].
  destruct (projection_block_fails w (files idx) (N_z idx) t z Hz)
    as [e' He']; [now exists e|].
  exists e'. cbn [run_task]. unfold io_bind. now rewrite He'.
Qed.

Lemma projection_fails_with_plane_witness :
  exists e',
    fst (compute_stack short_world (files short_index)
           (da_getitem_tyx (da_max_axis1 short_ims) 0 2 2 4 5 8))
    = Raise e'.
Proof.
  apply (projection_fails_with_plane short_world short_index short_ims
           (mkDarr (load_2d_call 1 5) [10; 10] uint16)
           (IndexError "index out of range") 0 2 2 4 5 8 1 5).
  - vm_compute. reflexivity.
  - simpl. lia.
  - lia.
  - lia.
  - simpl. lia.
  - vm_compute. reflexivity.
  - vm_compute. reflexivity.
Defined.

(** ** Sessions with the viewer *)

(** X6.  Where the browser attaches, which needs every leading axis to
    have an entry, and the array has at most ten leading axes, every
    position the browser holds stays on its axis, from the first display on
    and whatever the sliders are moved to, in whatever order; and the index
    tuple handed to the array is the tuple of these positions, so it is
    never out of bounds. *)
Theorem browse_stays_in_range (a : arraylike) (st0 : list slider)
  (moves : list (nat * Z)) :
  attach a = Ok st0 -> length (scroll_shape a) <= 10 ->
  Forall (fun s => 1 <= s) (scroll_shape a) /\
  in_range a st0 /\
  in_range a (browse a st0 moves) /\
  view_pos (slider_kwargs (browse a st0 moves))
  = positions (browse a st0 moves) /\
  Forall2 (fun s v => (0 <= v <= Z.of_nat s - 1)%Z)
          (scroll_shape a) (view_pos (slider_kwargs (browse a st0 moves))).
Proof.
  intros H Hn.
  destruct (reached_state a st0 moves H) as [Ht Hw].
  pose proof (tracks_in_range a _ Ht Hw) as Hin.
  pose proof (tracks_view_pos a _ Ht Hn) as Hview.
  split; [apply attach_ok_iff; eauto|].
  split.
  { apply tracks_in_range;
      [now apply attach_tracks|now apply (well_ranged_attach a)]. }
  split; [exact Hin|]. split; [exact Hview|].
  rewrite Hview. exact Hin.
Qed.

Lemma browse_stays_in_range_witness :
  Forall (fun s => 1 <= s) (scroll_shape demo_view) /\
  in_range demo_view demo_sliders /\
  in_range demo_view
           (browse demo_view demo_sliders
                   [(0, 7%Z); (1, (-3)%Z); (5, 1%Z); (0, 3%Z)]) /\
  view_pos (slider_kwargs
              (browse demo_view demo_sliders
                      [(0, 7%Z); (1, (-3)%Z); (5, 1%Z); (0, 3%Z)]))
  = positions (browse demo_view demo_sliders
                      [(0, 7%Z); (1, (-3)%Z); (5, 1%Z); (0, 3%Z)]) /\
  Forall2 (fun s v => (0 <= v <= Z.of_nat s - 1)%Z)
          (scroll_shape demo_view)
          (view_pos (slider_kwargs
                       (browse demo_view demo_sliders
                               [(0, 7%Z); (1, (-3)%Z); (5, 1%Z); (0, 3%Z)]))).
Proof.
  apply (browse_stays_in_range demo_view demo_sliders
           [(0, 7%Z); (1, (-3)%Z); (5, 1%Z); (0, 3%Z)]).
  - exact demo_attach.
  - vm_compute. lia.
Defined.

Lemma update_nth_comm {X} (i j : nat) (f g : X -> X) (l : list X) :
  i <> j ->
  update_nth i f (update_nth j g l) = update_nth j g (update_nth i f l).
Proof.
  revert i j; induction l as [|x l IH]; intros [|i] [|j] H; simpl;
    try reflexivity; try congruence.
  f_equal. apply IH. congruence.
Qed.

Lemma update_nth_twice {X} (i : nat) (f g : X -> X) (l : list X) :
  update_nth i g (update_nth i f l) = update_nth i (fun x => g (f x)) l.
Proof.
  revert i; induction l as [|x l IH]; intros [|i]; simpl;
    try reflexivity. now rewrite IH.
Qed.

(** One move of a session. *)
Lemma browse_step (a : arraylike) (st : list slider) (axis : nat) (v : Z)
  (rest : list (nat * Z)) :
  browse a st ((axis, v) :: rest)
  = browse a (if axis <? length st
              then update_nth axis (fun s => slider_set s v) st
              else st) rest.
Proof.
  simpl. destruct (Nat.ltb_spec axis (length st)) as [Hlt|Hge].
  - destruct (set_index_state a st axis v Hlt) as [out ->]. reflexivity.
  - now rewrite (set_index_none a st axis v Hge).
Qed.

(** X7.  Moves of different sliders can be made in either order, and of
    two moves of one slider only the last counts: the state after a
    session is the same. *)
Theorem moves_commute (a : arraylike) (st : list slider)
  (i j : nat) (u v : Z) :
  i <> j ->
  browse a st [(i, u); (j, v)] = browse a st [(j, v); (i, u)] /\
  browse a st [(i, u); (i, v)] = browse a st [(i, v)].
Proof.
  intros Hij. rewrite !browse_step. cbn [browse]. split.
  - destruct (Nat.ltb_spec i (length st)), (Nat.ltb_spec j (length st));
      rewrite ?update_nth_length;
      repeat match goal with
             | |- context [?x <? ?y] =>
                 destruct (Nat.ltb_spec x y); try lia
             end; try reflexivity.
    now apply update_nth_comm.
  - destruct (Nat.ltb_spec i (length st)); rewrite ?update_nth_length;
      repeat match goal with
             | |- context [?x <? ?y] =>
                 destruct (Nat.ltb_spec x y); try lia
             end; try reflexivity.
    apply update_nth_twice.
Qed.

Lemma moves_commute_witness :
  browse demo_view demo_sliders [(0, 4%Z); (1, 0%Z)]
  = browse demo_view demo_sliders [(1, 0%Z); (0, 4%Z)] /\
  browse demo_view demo_sliders [(0, 4%Z); (0, 0%Z)]
  = browse demo_view demo_sliders [(0, 0%Z)].
Proof.
  apply (moves_commute demo_view demo_sliders 0 1 4 0). lia.
Defined.

(** X8.  Browsing a volume built over a dataset of uniform files never
    fails: the browser attaches, and after any session the positions name
    a time point [t] and a depth [z] of the volume, and the display of that
    state is the transpose of plane [z] of file [t], obtained by one read
    of that page and no other. *)
Theorem browsing_reads_one_page (w : world) (pattern : string)
  (idx : frame_index) (a : darr (list (list task))) (nz Y X : nat)
  (moves : list (nat * Z)) :
  world_ok w -> scan w pattern = Ok idx -> ims idx = Ok a ->
  1 <= Y -> uniform_dataset w pattern nz Y X ->
  exists st0 t z p f img,
    attach (volume_view w (files idx) a) = Ok st0 /\
    positions (browse (volume_view w (files idx) a) st0 moves)
    = [Z.of_nat t; Z.of_nat z] /\
    t < N_t idx /\ z < N_z idx /\
    nth_error (files idx) t = Some p /\
    lookup p (w_files w) = Some f /\
    nth_error (tif_pages f) z = Some img /\
    view_image (volume_view w (files idx) a)
               (slider_kwargs
                  (browse (volume_view w (files idx) a) st0 moves))
    = (Ok (transpose img), [PageRead p z]).
Proof.
  intros Hw Hs Ha HY HU.
  set (V := volume_view w (files idx) a).
  destruct (ims_extents _ _ Ha) as [HT HZ].
  pose proof (volume_scroll_shape idx a w (files idx) Ha) as Hscroll.
  fold V in Hscroll.
  destruct (proj2 (attach_ok_iff V)) as [st0 Hatt].
  { rewrite Hscroll. repeat constructor; lia. }
  set (st := browse V st0 moves).
  destruct (reached_state V st0 moves Hatt) as [Ht' Hw']. fold st in Ht', Hw'.
  pose proof (tracks_in_range V st Ht' Hw') as Hin.
  unfold in_range in Hin. rewrite Hscroll in Hin.
  destruct (Forall2_two _ _ _ _ Hin) as [v0 [v1 [Hpos [Hv0 Hv1]]]].
  destruct (volume_plane_at w pattern idx a nz Y X v0 v1 Hw Hs Ha HY HU
              Hv0 Hv1) as [p [f [img [Hp [Hf [Himg Hplane]]]]]].
  exists st0, (Z.to_nat v0), (Z.to_nat v1), p, f, img.
  assert (E0 : Z.of_nat (Z.to_nat v0) = v0) by lia.
  assert (E1 : Z.of_nat (Z.to_nat v1) = v1) by lia.
  rewrite E0, E1. fold st.
  split; [exact Hatt|]. split; [exact Hpos|].
  split; [lia|]. split; [lia|].
  split; [exact Hp|]. split; [exact Hf|]. split; [exact Himg|].
  unfold view_image.
  rewrite (tracks_view_pos V st Ht') by (rewrite Hscroll; simpl; lia).
  rewrite Hpos. fold V in Hplane. rewrite Hplane. reflexivity.
Qed.

Lemma browsing_reads_one_page_witness :
  exists st0 t z p f img,
    attach (volume_view demo_world (files demo_index) demo_ims) = Ok st0 /\
    positions (browse (volume_view demo_world (files demo_index) demo_ims)
                      st0 [(0, 7%Z); (1, (-3)%Z)])
    = [Z.of_nat t; Z.of_nat z] /\
    t < N_t demo_index /\ z < N_z demo_index /\
    nth_error (files demo_index) t = Some p /\
    lookup p (w_files demo_world) = Some f /\
    nth_error (tif_pages f) z = Some img /\
    view_image (volume_view demo_world (files demo_index) demo_ims)
               (slider_kwargs
                  (browse (volume_view demo_world (files demo_index) demo_ims)
                          st0 [(0, 7%Z); (1, (-3)%Z)]))
    = (Ok (transpose img), [PageRead p z]).
Proof.
  apply (browsing_reads_one_page demo_world file_pattern demo_index demo_ims
           3 10 10 [(0, 7%Z); (1, (-3)%Z)]).
  - exact demo_world_ok.
  - vm_compute. reflexivity.
  - vm_compute. reflexivity.
  - lia.
  - exact demo_uniform.
Defined.

(** ** Local background subtraction *)

Lemma reflect_lt (i : Z) (n : nat) : 1 <= n -> reflect i n < n.
Proof.
  intros Hn. unfold reflect.
  pose proof (Z.mod_pos_bound i (2 * Z.of_nat n) ltac:(lia)) as B.
  destruct (Z.ltb_spec (i mod (2 * Z.of_nat n)) (Z.of_nat n)); lia.
Qed.

Lemma reflect_inside (i n : nat) : i < n -> reflect (Z.of_nat i) n = i.
Proof.
  intros Hi. unfold reflect.
  rewrite Z.mod_small by lia.
  destruct (Z.ltb_spec (Z.of_nat i) (Z.of_nat n)); lia.
Qed.

Lemma fold_min_is_min (l : list Z) (x : Z) :
  In (fold_left Z.min l x) (x :: l) /\
  forall v, In v (x :: l) -> (fold_left Z.min l x <= v)%Z.
Proof.
  revert x; induction l as [|y l IH]; intros x; simpl.
  - split; [now left|]. intros v [<-|[]]. lia.
  - destruct (IH (Z.min x y)) as [Hin Hlb]. split.
    + destruct Hin as [E|Hin].
      * rewrite <- E. destruct (Z.min_spec x y) as [[_ ->]|[_ ->]]; auto.
      * auto.
    + intros v Hv.
      assert (Hm : (fold_left Z.min l (Z.min x y) <= Z.min x y)%Z)
        by (apply Hlb; now left).
      destruct Hv as [<-|[<-|Hv]]; try lia.
      apply Hlb. now right.
Qed.

Lemma zip2_shape (f : Z -> Z -> Z) (Y X : nat) (a b : image) :
  has_shape Y X a -> has_shape Y X b ->
  has_shape Y X (zip_with (zip_with f) a b).
Proof.
  intros [HLa HRa] [HLb HRb]. split.
  - rewrite zip_with_length; congruence.
  - subst Y.
    revert b HLb HRb. induction HRa as [|ra a Hra _ IH];
      intros [|rb b] HLb HRb; simpl in *; try discriminate; constructor.
    + inversion HRb; subst. rewrite zip_with_length; congruence.
    + inversion HRb; subst. apply IH; [lia|assumption].
Qed.

Lemma zip2_pix (f : Z -> Z -> Z) (Y X : nat) (a b : image) (y x : nat) :
  has_shape Y X a -> has_shape Y X b -> y < Y -> x < X ->
  pix (zip_with (zip_with f) a b) y x = f (pix a y x) (pix b y x).
Proof.
  intros Ha Hb Hy Hx. unfold pix.
  pose proof (has_shape_row _ _ _ _ Ha Hy) as Ra.
  pose proof (has_shape_row _ _ _ _ Hb Hy) as Rb.
  destruct Ha as [HLa _], Hb as [HLb _].
  rewrite (zip_with_nth _ a b y [] [] []) by lia.
  apply zip_with_nth; lia.
Qed.

Lemma map2_shape (g : Z -> Z) (Y X : nat) (a : image) :
  has_shape Y X a -> has_shape Y X (map (map g) a).
Proof.
  intros [HL HR]. split; [now rewrite length_map|].
  apply Forall_map. eapply Forall_impl; [|exact HR].
  intros row Hrow. now rewrite length_map.
Qed.

Lemma map2_pix (g : Z -> Z) (Y X : nat) (a : image) (y x : nat) :
  has_shape Y X a -> y < Y -> x < X ->
  pix (map (map g) a) y x = g (pix a y x).
Proof.
  intros Ha Hy Hx. unfold pix.
  pose proof (has_shape_row _ _ _ _ Ha Hy) as Ra. destruct Ha as [HL _].
  rewrite (nth_indep _ [] (map g [])) by (rewrite length_map; lia).
  rewrite (map_nth (map g)).
  rewrite (nth_indep _ 0%Z (g 0%Z)) by (rewrite length_map; lia).
  apply map_nth.
Qed.

(** The filtered value is one of the plane's values and does not exceed
    the value at the centre of the window. *)
Lemma minimum_filter_pix (sy sx R C : nat) (a : image) (y x : nat) :
  1 <= sy -> 1 <= sx -> 1 <= R -> has_shape R C a -> y < R -> x < C ->
  (pix (minimum_filter sy sx a) y x <= pix a y x)%Z /\
  exists y' x', y' < R /\ x' < C /\
                pix (minimum_filter sy sx a) y x = pix a y' x'.
Proof.
  intros Hsy Hsx HR Hs Hy Hx.
  destruct (has_shape_ncols _ _ _ HR Hs) as [Er Ec].
  unfold minimum_filter. rewrite Er, Ec.
  rewrite pix_tabulate by assumption.
  set (vals := flat_map _ _).
  assert (Hc : In (pix a y x) vals).
  { unfold vals. apply in_flat_map. exists (sy / 2). split.
    - apply in_seq. pose proof (Nat.div_lt sy 2). lia.
    - apply in_map_iff. exists (sx / 2). split.
      + replace (Z.of_nat y + Z.of_nat (sy / 2) - Z.of_nat (sy / 2))%Z
          with (Z.of_nat y) by lia.
        replace (Z.of_nat x + Z.of_nat (sx / 2) - Z.of_nat (sx / 2))%Z
          with (Z.of_nat x) by lia.
        now rewrite !reflect_inside.
      + apply in_seq. pose proof (Nat.div_lt sx 2). lia. }
  assert (Hall : forall v, In v vals ->
                           exists y' x', y' < R /\ x' < C /\ v = pix a y' x').
  { intros v Hv. unfold vals in Hv. apply in_flat_map in Hv.
    destruct Hv as [i [_ Hv]]. apply in_map_iff in Hv.
    destruct Hv as [j [<- _]].
    do 2 eexists. split; [|split; [|reflexivity]]; apply reflect_lt; lia. }
  destruct vals as [|v vs]; [contradiction|]. simpl Zmin_list.
  destruct (fold_min_is_min vs v) as [Hin Hlb].
  split; [now apply Hlb|now apply Hall].
Qed.

(** X9.  On a plane of 16-bit values the background subtraction never
    leaves the range of the values: each result is the exact difference
    between the value and the least value of its window, lies between 0
    and the value itself, and so neither the [int32] arithmetic wraps nor
    the final [np.clip] changes anything. *)
Theorem background_subtraction_in_range (R C : nat) (a : image) :
  15 <= R -> 15 <= C -> has_shape R C a ->
  (forall y x, y < R -> x < C -> (0 <= pix a y x <= 65535)%Z) ->
  has_shape R C (background_subtracted a) /\
  forall y x, y < R -> x < C ->
    pix (background_subtracted a) y x
    = (pix a y x - pix (minimum_filter 30 30 a) y x)%Z /\
    (0 <= pix (background_subtracted a) y x <= pix a y x)%Z.
Proof.
  intros HR HC Hs Hv.
  assert (HR1 : 1 <= R) by lia.
  destruct (has_shape_ncols _ _ _ HR1 Hs) as [Er Ec].
  assert (Hm : has_shape R C (minimum_filter 30 30 a)).
  { unfold minimum_filter. rewrite Er, Ec. apply tabulate_shape. }
  assert (Hd : has_shape R C (sub_int32 a (minimum_filter 30 30 a)))
    by now apply zip2_shape.
  split; [now apply map2_shape|].
  intros y x Hy Hx. unfold background_subtracted, np_clip.
  rewrite (map2_pix _ R C) by assumption.
  unfold sub_int32. rewrite (zip2_pix _ R C) by assumption.
  destruct (minimum_filter_pix 30 30 R C a y x) as [Hle [y' [x' [Hy' [Hx' E]]]]];
    try assumption; try lia.
  pose proof (Hv y x Hy Hx) as B. pose proof (Hv y' x' Hy' Hx') as B'.
  rewrite E in *.
  assert (W1 : wrap_int32 (pix a y x) = pix a y x).
  { unfold wrap_int32. rewrite Z.mod_small; lia. }
  rewrite W1.
  assert (W2 : wrap_int32 (pix a y x - pix a y' x')
               = (pix a y x - pix a y' x')%Z).
  { unfold wrap_int32. rewrite Z.mod_small; lia. }
  rewrite W2. rewrite clamp_in_range by lia. lia.
Qed.

Lemma background_subtraction_in_range_witness :
  has_shape 16 17
    (background_subtracted
       (tabulate 16 17 (fun y x => Z.of_nat (1000 + 37 * y + 11 * x)))) /\
  forall y x, y < 16 -> x < 17 ->
    pix (background_subtracted
           (tabulate 16 17 (fun y x => Z.of_nat (1000 + 37 * y + 11 * x))))
        y x
    = (pix (tabulate 16 17 (fun y x => Z.of_nat (1000 + 37 * y + 11 * x)))
           y x
       - pix (minimum_filter 30 30
                (tabulate 16 17
                   (fun y x => Z.of_nat (1000 + 37 * y + 11 * x)))) y x)%Z /\
    (0 <= pix (background_subtracted
                 (tabulate 16 17
                    (fun y x => Z.of_nat (1000 + 37 * y + 11 * x)))) y x
     <= pix (tabulate 16 17 (fun y x => Z.of_nat (1000 + 37 * y + 11 * x)))
            y x)%Z.
Proof.
  apply (background_subtraction_in_range 16 17
           (tabulate 16 17 (fun y x => Z.of_nat (1000 + 37 * y + 11 * x)))).
  - lia.
  - lia.
  - apply tabulate_shape.
  - intros y x Hy Hx. rewrite pix_tabulate by assumption. lia.
Defined.

(** ** Chunk-wise filtering of a whole array *)

Lemma overlap_region_window {A B} (k : Overlap.stencil A B)
  (r m R C : nat) (a : list (list A)) (y0 y1 x0 x1 : nat) :
  Overlap.support_within k r -> r <= m ->
  length a = R -> Forall (fun row => length row = C) a ->
  y1 <= R -> x1 <= C ->
  Overlap.map_overlap_region k m R C a y0 y1 x0 x1
  = Overlap.window (Overlap.apply_filter k R C a) y0 y1 x0 x1.
Proof.
  intros Hk Hrm HR HC Hy1 Hx1.
  unfold Overlap.map_overlap_region, Overlap.apply_filter.
  rewrite !window_table by lia.
  replace (y1 - (y0 - m) - (y0 - (y0 - m))) with (y1 - y0) by lia.
  replace (x1 - (x0 - m) - (x0 - (x0 - m))) with (x1 - x0) by lia.
  apply map_ext_in. intros i Hi. apply in_seq in Hi.
  apply map_ext_in. intros j Hj. apply in_seq in Hj.
  apply Hk. intros dy dx Hdy Hdx.
  apply (padded_view a r m R C y0 y1 x0 x1 i j dy dx); try assumption; lia.
Qed.

Lemma chunk_bounds_le (fuel c lo n : nat) (b : nat * nat) :
  In b (Blocks.chunk_bounds fuel c lo n) -> snd b <= n.
Proof.
  revert lo; induction fuel as [|fuel IH]; intros lo; simpl; [tauto|].
  destruct (lo <? n); [|simpl; tauto].
  intros [<-|Hin]; [simpl; lia|eauto].
Qed.

Lemma zip_with_maps {X Y} (f : Y -> Y -> Y) (g h : X -> Y) (l : list X) :
  zip_with f (map g l) (map h l) = map (fun x => f (g x) (h x)) l.
Proof. induction l as [|x l IH]; simpl; congruence. Qed.

Lemma skipn_to_end {X} (l : list X) (lo n : nat) :
  length l = n -> firstn (n - lo) (skipn lo l) = skipn lo l.
Proof.
  intros H. apply firstn_all2. rewrite length_skipn. lia.
Qed.

Lemma skipn_piece {X} (l : list X) (lo c : nat) :
  firstn c (skipn lo l) ++ skipn (lo + c) l = skipn lo l.
Proof.
  rewrite (Nat.add_comm lo c), <- skipn_skipn. apply firstn_skipn.
Qed.

(** The chunks of one row of chunks, side by side, are the rows they were
    cut from. *)
Lemma hstack_windows {X} (rows : list (list X)) (fuel c lo n : nat) :
  1 <= c -> Forall (fun row => length row = n) rows ->
  lo < n -> n - lo <= fuel ->
  Blocks.hstack
    (map (fun xs => map (fun row => firstn (snd xs - fst xs)
                                           (skipn (fst xs) row)) rows)
         (Blocks.chunk_bounds fuel c lo n))
  = map (skipn lo) rows.
Proof.
  intros Hc Hrows. revert lo.
  induction fuel as [|fuel IH]; intros lo Hlo Hf; [lia|].
  cbn [Blocks.chunk_bounds]. destruct (Nat.ltb_spec lo n); [|lia].
  cbn [map fst snd].
  destruct (le_lt_dec n (lo + c)) as [Hend|Hmore].
  - assert (E : Blocks.chunk_bounds fuel c (lo + c) n = []).
    { destruct fuel; [reflexivity|]. simpl.
      destruct (Nat.ltb_spec (lo + c) n); [lia|reflexivity]. }
    rewrite E. simpl. rewrite Nat.min_r by lia.
    apply map_ext_in. intros row Hrow.
    rewrite Forall_forall in Hrows. now apply skipn_to_end, Hrows.
  - specialize (IH (lo + c) Hmore ltac:(lia)).
    destruct (Blocks.chunk_bounds fuel c (lo + c) n) as [|b bs] eqn:E.
    { destruct fuel; [lia|]. simpl in E.
      destruct (Nat.ltb_spec (lo + c) n); [discriminate|lia]. }
    cbn [map] in IH |- *. cbn [Blocks.hstack].
    change (match map (fun xs => map (fun row => firstn (snd xs - fst xs)
                                                (skipn (fst xs) row)) rows) bs
            with
            | [] => map (fun row => firstn (snd b - fst b)
                                           (skipn (fst b) row)) rows
            | _ :: _ =>
                zip_with (@app X)
                  (map (fun row => firstn (snd b - fst b)
                                          (skipn (fst b) row)) rows)
                  (Blocks.hstack
                     (map (fun xs => map (fun row => firstn (snd xs - fst xs)
                                                  (skipn (fst xs) row)) rows)
                          bs))
            end)
      with (Blocks.hstack
              (map (fun row => firstn (snd b - fst b) (skipn (fst b) row))
                   rows
               :: map (fun xs => map (fun row => firstn (snd xs - fst xs)
                                                    (skipn (fst xs) row))
                                     rows) bs)).
    rewrite IH, zip_with_maps. rewrite Nat.min_l by lia.
    apply map_ext. intros row.
    replace (lo + c - lo) with c by lia. apply skipn_piece.
Qed.

(** The rows of chunks, one below the other, are the array. *)
Lemma vstack_windows {X} (T : list X) (fuel c lo n : nat) :
  1 <= c -> length T = n -> n - lo <= fuel ->
  concat (map (fun ys => firstn (snd ys - fst ys) (skipn (fst ys) T))
              (Blocks.chunk_bounds fuel c lo n))
  = skipn lo T.
Proof.
  intros Hc HT. revert lo.
  induction fuel as [|fuel IH]; intros lo Hf.
  - simpl. symmetry. apply skipn_all2. lia.
  - cbn [Blocks.chunk_bounds]. destruct (Nat.ltb_spec lo n).
    + cbn [map concat fst snd]. rewrite IH by lia.
      destruct (le_lt_dec n (lo + c)).
      * rewrite Nat.min_r by lia. rewrite (skipn_all2 (n := lo + c)) by lia.
        rewrite app_nil_r. now apply skipn_to_end.
      * rewrite Nat.min_l by lia.
        replace (lo + c - lo) with c by lia. apply skipn_piece.
    + simpl. symmetry. apply skipn_all2. lia.
Qed.

(** Cutting a table into chunks and putting the chunks together again
    gives the table back. *)
Lemma assemble_windows {X} (T : list (list X)) (R C cy cx : nat) :
  length T = R -> Forall (fun row => length row = C) T ->
  1 <= C -> 1 <= cy -> 1 <= cx ->
  Blocks.assemble (Overlap.window T) R C cy cx = T.
Proof.
  intros HR HC HC1 Hcy Hcx. unfold Blocks.assemble.
  rewrite (map_ext _ (fun ys => firstn (snd ys - fst ys) (skipn (fst ys) T))).
  - rewrite (vstack_windows T R cy 0 R) by lia. reflexivity.
  - intros ys. unfold Overlap.window.
    rewrite (hstack_windows _ C cx 0 C); try lia.
    + apply map_id.
    + now apply Forall_window.
Qed.

Lemma assemble_ext {X} (f g : nat -> nat -> nat -> nat -> list (list X))
  (R C cy cx : nat) :
  (forall y0 y1 x0 x1, y1 <= R -> x1 <= C ->
                       f y0 y1 x0 x1 = g y0 y1 x0 x1) ->
  Blocks.assemble f R C cy cx = Blocks.assemble g R C cy cx.
Proof.
  intros H. unfold Blocks.assemble. f_equal.
  apply map_ext_in. intros ys Hys. f_equal.
  apply map_ext_in. intros xs Hxs.
  apply H; eapply chunk_bounds_le; eassumption.
Qed.

Lemma apply_filter_shape {A B} (k : Overlap.stencil A B) (R C : nat)
  (a : list (list A)) :
  length (Overlap.apply_filter k R C a) = R /\
  Forall (fun row => length row = C) (Overlap.apply_filter k R C a).
Proof.
  unfold Overlap.apply_filter. split.
  - now rewrite length_map, length_seq.
  - apply Forall_map, Forall_forall. intros i _.
    now rewrite length_map, length_seq.
Qed.



(** ** Chunk-wise filtering without a margin *)

(** Along one axis: from a position of a chunk that keeps the support away
    from the chunk's inner edges, an offset within the support either
    stays in the chunk, at the same place of the array, or falls off both
    the chunk and the array. *)
Lemma interior_index (r n p0 p1 i : nat) (d : Z) :
  p1 <= n -> i < p1 - p0 -> (Z.abs d <= Z.of_nat r)%Z ->
  (p0 = 0 \/ r <= i) -> (p1 = n \/ i + r < p1 - p0) ->
  let q := (Z.of_nat i + d)%Z in
  let g := (Z.of_nat (p0 + i) + d)%Z in
  ((0 <= q < Z.of_nat (p1 - p0))%Z /\ (Z.of_nat p0 + q)%Z = g) \/
  ((q < 0 \/ Z.of_nat (p1 - p0) <= q)%Z /\ (g < 0 \/ Z.of_nat n <= g)%Z).
Proof.
  intros Hp1 Hi Hd Hlo Hhi q g.
  apply Z.abs_le in Hd.
  assert (Eq : (Z.of_nat (p1 - p0) = Z.of_nat p1 - Z.of_nat p0)%Z) by lia.
  assert (Eg : (g = Z.of_nat p0 + Z.of_nat i + d)%Z) by (unfold g; lia).
  assert (Hi' : (Z.of_nat p0 + Z.of_nat i < Z.of_nat p1)%Z) by lia.
  assert (Hlo' : p0 = 0 \/ (Z.of_nat r <= Z.of_nat i)%Z) by lia.
  assert (Hhi' : p1 = n \/
                 (Z.of_nat i + Z.of_nat r < Z.of_nat p1 - Z.of_nat p0)%Z)
    by lia.
  unfold q. clearbody g. rewrite Eq. clear Eq Hlo Hhi Hi.
  destruct Hlo' as [Hlo|Hlo], Hhi' as [Hhi|Hhi]; lia.
Qed.

Lemma chunk_view {A} (a : list (list A)) (r R C y0 y1 x0 x1 i j : nat)
  (dy dx : Z) :
  length a = R -> Forall (fun row => length row = C) a ->
  y1 <= R -> x1 <= C -> i < y1 - y0 -> j < x1 - x0 ->
  (y0 = 0 \/ r <= i) -> (y1 = R \/ i + r < y1 - y0) ->
  (x0 = 0 \/ r <= j) -> (x1 = C \/ j + r < x1 - x0) ->
  (Z.abs dy <= Z.of_nat r)%Z -> (Z.abs dx <= Z.of_nat r)%Z ->
  Overlap.at_pos (Overlap.window a y0 y1 x0 x1)
                 (Z.of_nat i + dy) (Z.of_nat j + dx)
  = Overlap.at_pos a (Z.of_nat (y0 + i) + dy) (Z.of_nat (x0 + j) + dx).
Proof.
  intros HR HC Hy1 Hx1 Hi Hj Hyl Hyh Hxl Hxh Hdy Hdx.
  pose proof (interior_index r R y0 y1 i dy Hy1 Hi Hdy Hyl Hyh) as My.
  pose proof (interior_index r C x0 x1 j dx Hx1 Hj Hdx Hxl Hxh) as Mx.
  cbv zeta in My, Mx.
  destruct (window_shape a R C y0 y1 x0 x1 HR HC Hy1 Hx1) as [HL HF].
  destruct My as [[Hr Er]|[Hr Gr]].
  - destruct Mx as [[Hc Ec]|[Hc Gc]].
    + rewrite (at_pos_window a _ _ _ _ _ _ Hr Hc). now rewrite Er, Ec.
    + rewrite (at_pos_outside _ _ _ _ _ HL HF) by tauto.
      symmetry. apply (at_pos_outside a R C); tauto.
  - rewrite (at_pos_outside _ _ _ _ _ HL HF) by tauto.
    symmetry. apply (at_pos_outside a R C); tauto.
Qed.

Lemma at_pos_table {B} (f : nat -> nat -> B) (H W i j : nat) :
  i < H -> j < W ->
  Overlap.at_pos (map (fun i => map (fun j => f i j) (seq 0 W)) (seq 0 H))
                 (Z.of_nat i) (Z.of_nat j)
  = Some (f i j).
Proof.
  intros Hi Hj. unfold Overlap.at_pos.
  destruct (Z.leb_spec 0 (Z.of_nat i)); [|lia].
  destruct (Z.leb_spec 0 (Z.of_nat j)); [|lia].
  simpl. rewrite !Nat2Z.id.
  rewrite nth_error_map_seq by assumption.
  now rewrite nth_error_map_seq.
Qed.

(** X11.  Without a margin ([da.map_blocks]) the result of a chunk is
    still that of the whole array at every position that keeps the support
    of the transform away from the chunk's inner edges (edges that are
    edges of the array do not count): the border artefacts sit within the
    support radius of the seams between chunks.  [da.map_overlap] with
    depth 0 is [da.map_blocks]. *)
Theorem map_blocks_exact_inside {A B} (k : Overlap.stencil A B)
  (r R C : nat) (a : list (list A)) (y0 y1 x0 x1 i j : nat) :
  Overlap.support_within k r ->
  length a = R -> Forall (fun row => length row = C) a ->
  y1 <= R -> x1 <= C -> i < y1 - y0 -> j < x1 - x0 ->
  (y0 = 0 \/ r <= i) -> (y1 = R \/ i + r < y1 - y0) ->
  (x0 = 0 \/ r <= j) -> (x1 = C \/ j + r < x1 - x0) ->
  Overlap.at_pos (Blocks.map_blocks_region k a y0 y1 x0 x1)
                 (Z.of_nat i) (Z.of_nat j)
  = Overlap.at_pos (Overlap.apply_filter k R C a)
                   (Z.of_nat (y0 + i)) (Z.of_nat (x0 + j)) /\
  Overlap.at_pos (Blocks.map_blocks_region k a y0 y1 x0 x1)
                 (Z.of_nat i) (Z.of_nat j) <> None /\
  Overlap.map_overlap_region k 0 R C a y0 y1 x0 x1
  = Blocks.map_blocks_region k a y0 y1 x0 x1.
Proof.
  intros Hk HR HC Hy1 Hx1 Hi Hj Hyl Hyh Hxl Hxh.
  unfold Blocks.map_blocks_region, Overlap.apply_filter.
  rewrite !at_pos_table by lia.
  split; [|split; [discriminate|]].
  - f_equal. apply Hk. intros dy dx Hdy Hdx.
    now apply (chunk_view a r R C y0 y1 x0 x1 i j dy dx).
  - unfold Overlap.map_overlap_region.
    rewrite !Nat.sub_0_r, !Nat.add_0_r, !Nat.sub_diag.
    rewrite (Nat.min_r R y1) by lia. rewrite (Nat.min_r C x1) by lia.
    unfold Overlap.apply_filter. rewrite window_table by lia.
    rewrite !Nat.sub_0_r. reflexivity.
Qed.

Lemma map_blocks_exact_inside_witness :
  Overlap.at_pos
    (Blocks.map_blocks_region Overlap.max3x3
       (tabulate 5 7 (fun y x => Z.of_nat (7 * y + 3 * x) mod 11)%Z)
       0 3 2 6)
    (Z.of_nat 1) (Z.of_nat 1)
  = Overlap.at_pos
      (Overlap.apply_filter Overlap.max3x3 5 7
         (tabulate 5 7 (fun y x => Z.of_nat (7 * y + 3 * x) mod 11)%Z))
      (Z.of_nat (0 + 1)) (Z.of_nat (2 + 1)) /\
  Overlap.at_pos
    (Blocks.map_blocks_region Overlap.max3x3
       (tabulate 5 7 (fun y x => Z.of_nat (7 * y + 3 * x) mod 11)%Z)
       0 3 2 6)
    (Z.of_nat 1) (Z.of_nat 1) <> None /\
  Overlap.map_overlap_region Overlap.max3x3 0 5 7
    (tabulate 5 7 (fun y x => Z.of_nat (7 * y + 3 * x) mod 11)%Z) 0 3 2 6
  = Blocks.map_blocks_region Overlap.max3x3
      (tabulate 5 7 (fun y x => Z.of_nat (7 * y + 3 * x) mod 11)%Z) 0 3 2 6.
Proof.
  apply (map_blocks_exact_inside Overlap.max3x3 1 5 7
           (tabulate 5 7 (fun y x => Z.of_nat (7 * y + 3 * x) mod 11)%Z)
           0 3 2 6 1 1).
  - exact max3x3_support.
  - reflexivity.
  - repeat constructor.
  - lia.
  - lia.
  - lia.
  - lia.
  - left. reflexivity.
  - right. lia.
  - right. lia.
  - right. lia.
Defined.

(** ** The frames of the timelapse *)

Lemma nth_map_default {X Y} (g : X -> Y) (l : list X) (n : nat)
  (dx : X) (dy : Y) :
  g dx = dy -> nth n (map g l) dy = g (nth n l dx).
Proof. intros <-. apply map_nth. Qed.

Lemma pix_slice_columns (img : list image) (a b z y x : nat) :
  x < b - a ->
  pix (nth z (slice_columns img a b) []) y x = pix (nth z img []) y (a + x).
Proof.
  intros Hx. unfold slice_columns, pix. unfold image in *.
  rewrite (@nth_map_default (list (list Z)) (list (list Z))
             (map (fun row : list Z => firstn (b - a) (skipn a row)))
             img z [] []) by reflexivity.
  rewrite (@nth_map_default (list Z) (list Z)
             (fun row : list Z => firstn (b - a) (skipn a row))
             (nth z img []) y [] [])
    by (now rewrite skipn_nil, firstn_nil).
  now apply nth_window.
Qed.

Lemma slice_columns_shape (img : list image) (Y W a b : nat) :
  Forall (has_shape Y W) img -> b <= W ->
  Forall (has_shape Y (b - a)) (slice_columns img a b).
Proof.
  intros H Hb. unfold slice_columns. apply Forall_map.
  eapply Forall_impl; [|exact H].
  intros plane [HL HR]. split; [now rewrite length_map|].
  apply Forall_map. eapply Forall_impl; [|exact HR].
  intros row Hrow. cbv beta in Hrow. apply length_window. lia.
Qed.

(** X12.  Every time point of the synthetic timelapse is a window of
    [N_xy] columns of the one generated volume, starting [dx] columns
    further right per time point: a frame shows the entry of the volume
    [dx * t] columns to the right, and the next frame shows what this frame
    shows [dx] columns to the right.  As long as the window fits the
    volume every frame has the full width. *)
Theorem frames_are_shifted_windows (img : list image)
  (dx N_xy Y W t z y x : nat) :
  Forall (has_shape Y W) img -> dx * t + N_xy <= W ->
  Forall (has_shape Y N_xy) (curr_tp img dx N_xy t) /\
  length (curr_tp img dx N_xy t) = length img /\
  (x < N_xy ->
   pix (nth z (curr_tp img dx N_xy t) []) y x
   = pix (nth z img []) y (dx * t + x)) /\
  (x + dx < N_xy ->
   pix (nth z (curr_tp img dx N_xy (S t)) []) y x
   = pix (nth z (curr_tp img dx N_xy t) []) y (x + dx)).
Proof.
  intros Himg Hfit. unfold curr_tp. split; [|split; [|split]].
  - replace N_xy with (dx * t + N_xy - dx * t) at 1 by lia.
    now apply (slice_columns_shape img Y W).
  - unfold slice_columns. apply length_map.
  - intros Hx. apply pix_slice_columns. lia.
  - intros Hx. rewrite !pix_slice_columns by lia.
    f_equal. lia.
Qed.

Lemma frames_are_shifted_windows_witness :
  Forall (has_shape 2 9)
         (curr_tp [tabulate 2 12 (fun y x => Z.of_nat (20 * y + x));
                   tabulate 2 12 (fun y x => Z.of_nat (100 + 20 * y + x))]
                  1 9 2) /\
  length (curr_tp [tabulate 2 12 (fun y x => Z.of_nat (20 * y + x));
                   tabulate 2 12 (fun y x => Z.of_nat (100 + 20 * y + x))]
                  1 9 2)
  = length [tabulate 2 12 (fun y x => Z.of_nat (20 * y + x));
            tabulate 2 12 (fun y x => Z.of_nat (100 + 20 * y + x))] /\
  (3 < 9 ->
   pix (nth 1 (curr_tp [tabulate 2 12 (fun y x => Z.of_nat (20 * y + x));
                        tabulate 2 12
                          (fun y x => Z.of_nat (100 + 20 * y + x))]
                       1 9 2) []) 1 3
   = pix (nth 1 [tabulate 2 12 (fun y x => Z.of_nat (20 * y + x));
                 tabulate 2 12 (fun y x => Z.of_nat (100 + 20 * y + x))] [])
         1 (1 * 2 + 3)) /\
  (3 + 1 < 9 ->
   pix (nth 1 (curr_tp [tabulate 2 12 (fun y x => Z.of_nat (20 * y + x));
                        tabulate 2 12
                          (fun y x => Z.of_nat (100 + 20 * y + x))]
                       1 9 3) []) 1 3
   = pix (nth 1 (curr_tp [tabulate 2 12 (fun y x => Z.of_nat (20 * y + x));
                          tabulate 2 12
                            (fun y x => Z.of_nat (100 + 20 * y + x))]
                         1 9 2) []) 1 (3 + 1)).
Proof.
  apply (frames_are_shifted_windows
           [tabulate 2 12 (fun y x => Z.of_nat (20 * y + x));
            tabulate 2 12 (fun y x => Z.of_nat (100 + 20 * y + x))]
           1 9 2 12 2 1 1 3).
  - repeat constructor; apply tabulate_shape.
  - lia.
Defined.

(** ** Writing the timelapse and reading it back *)

Lemma list_ascii_app (a b : string) :
  list_ascii_of_string (String.append a b)
  = list_ascii_of_string a ++ list_ascii_of_string b.
Proof. induction a as [|c a IH]; simpl; congruence. Qed.

Lemma wildcard_star (pat s1 s2 : list ascii) :
  wildcard pat s2 = true -> wildcard ("*"%char :: pat) (s1 ++ s2) = true.
Proof.
  intros H. induction s1 as [|c s1 IH].
  - simpl. destruct s2; simpl; rewrite H; reflexivity.
  - simpl in IH |- *. rewrite IH. apply orb_true_r.
Qed.

Lemma wildcard_prefix (pre pat s : list ascii) :
  Forall (fun c => Ascii.eqb c "*"%char = false) pre ->
  wildcard (pre ++ pat) (pre ++ s) = wildcard pat s.
Proof.
  induction 1 as [|c pre Hc _ IH]; [reflexivity|].
  cbn [app wildcard]. rewrite Hc, Ascii.eqb_refl, orb_true_r. exact IH.
Qed.

Lemma tp_name_matches (t : nat) : fnmatch file_pattern (tp_name t) = true.
Proof.
  unfold fnmatch, tp_name, file_pattern.
  rewrite !list_ascii_app.
  change (list_ascii_of_string "data/large_3d_dataset_tp*.tif")
    with (list_ascii_of_string "data/large_3d_dataset_tp"
          ++ "*"%char :: list_ascii_of_string ".tif").
  rewrite wildcard_prefix by (repeat constructor).
  apply wildcard_star. reflexivity.
Qed.

Lemma put_file_fresh (p : string) (f : tiff) (fs : list (string * tiff)) :
  ~ In p (map fst fs) -> put_file p f fs = fs ++ [(p, f)].
Proof.
  induction fs as [|[q g] fs IH]; simpl; intros H; [reflexivity|].
  destruct (String.eqb_spec p q) as [->|Hne]; [tauto|].
  rewrite IH by tauto. reflexivity.
Qed.

Lemma lookup_not_in (p : string) (fs : list (string * tiff)) :
  ~ In p (map fst fs) -> lookup p fs = None.
Proof.
  induction fs as [|[q g] fs IH]; simpl; intros H; [reflexivity|].
  destruct (String.eqb_spec p q) as [->|Hne]; [tauto|]. apply IH. tauto.
Qed.

Lemma lookup_app (p : string) (fs gs : list (string * tiff)) :
  lookup p fs = None -> lookup p (fs ++ gs) = lookup p gs.
Proof.
  induction fs as [|[q g] fs IH]; simpl; [reflexivity|].
  destruct (String.eqb p q); [discriminate|exact IH].
Qed.

Lemma lookup_frames (F : nat -> tiff) (ts : list nat) (t : nat) :
  In t ts ->
  (forall t', In t' ts -> tp_name t' = tp_name t -> t' = t) ->
  lookup (tp_name t) (map (fun t' => (tp_name t', F t')) ts) = Some (F t).
Proof.
  induction ts as [|t0 ts IH]; cbn [map lookup In]; intros Hin Hinj;
    [tauto|].
  destruct (String.eqb_spec (tp_name t) (tp_name t0)) as [E|Hne].
  - rewrite (Hinj t0 (or_introl eq_refl)); [reflexivity|now symmetry].
  - destruct Hin as [->|Hin]; [congruence|]. apply IH; auto.
Qed.

Lemma filter_all {X} (f : X -> bool) (l : list X) :
  (forall x, In x l -> f x = true) -> filter f l = l.
Proof.
  induction l as [|x l IH]; simpl; intros H; [reflexivity|].
  rewrite (H x (or_introl eq_refl)). f_equal. apply IH. auto.
Qed.

(** In a directory without the names to be written, the loop appends one
    file per time point. *)
Lemma write_frames_fresh (img : list image) (dt : dtype) (dx N_xy : nat)
  (ts : list nat) (w : world) :
  img <> [] -> NoDup (map tp_name ts) ->
  (forall t, In t ts -> ~ In (tp_name t) (map fst (w_files w))) ->
  write_frames w img dt dx N_xy ts
  = Ok (mkWorld (w_files w
                 ++ map (fun t => (tp_name t, frame_file img dt dx N_xy t)) ts)
                (w_fnmatch w) (w_seq_order w)).
Proof.
  intros Himg. revert w. induction ts as [|t ts IH]; intros w Hnd Hfresh.
  - simpl. rewrite app_nil_r. now destruct w.
  - cbn [write_frames]. unfold imwrite.
    assert (Hff : mkTiff dt [length (curr_tp img dx N_xy t)]
                         (hd [] (curr_tp img dx N_xy t))
                         (tl (curr_tp img dx N_xy t))
                  = frame_file img dt dx N_xy t).
    { unfold frame_file, curr_tp, slice_columns. now rewrite length_map. }
    destruct (curr_tp img dx N_xy t) as [|p0 more] eqn:Ec.
    { unfold curr_tp, slice_columns in Ec.
      destruct img; [congruence|discriminate]. }
    cbn [hd tl] in Hff. cbn [rbind]. rewrite Hff.
    rewrite put_file_fresh by (apply Hfresh; now left).
    inversion Hnd as [|? ? Hnotin Hnd']; subst.
    rewrite IH.
    + cbn [w_files w_fnmatch w_seq_order map].
      now rewrite <- app_assoc.
    + assumption.
    + intros t' Hin. cbn [w_files]. rewrite map_app, in_app_iff.
      intros [H|[H|[]]].
      * apply (Hfresh t'); [now right|assumption].
      * apply Hnotin. simpl in H. rewrite H. now apply in_map.
Qed.

Lemma NoDup_map_on {X Y} (f : X -> Y) (l : list X) :
  (forall x y, In x l -> In y l -> f x = f y -> x = y) ->
  NoDup l -> NoDup (map f l).
Proof.
  intros Hinj Hnd. induction Hnd as [|x l Hx Hnd IH]; simpl; constructor.
  - intros Hin. apply in_map_iff in Hin. destruct Hin as [y [E Hy]].
    assert (y = x) by (apply Hinj; simpl; auto). now subst.
  - apply IH. intros a b Ha Hb. apply Hinj; simpl; auto.
Qed.

Lemma frame_file_pages (img : list image) (dt : dtype) (dx N_xy t : nat) :
  img <> [] ->
  tif_pages (frame_file img dt dx N_xy t) = curr_tp img dx N_xy t.
Proof.
  intros H. unfold tif_pages, frame_file, curr_tp, slice_columns. simpl.
  destruct img; [congruence|reflexivity].
Qed.

(** What the directory holds after the loop, and what the scan makes of
    it. *)
Lemma written_world (w0 : world) (img : list image) (dt : dtype)
  (dx N_xy N_t nz Y W : nat) :
  world_ok w0 -> w_fnmatch w0 = fnmatch -> glob w0 file_pattern = [] ->
  2 <= N_t -> N_t <= 1000 ->
  length img = nz -> 2 <= nz -> 1 <= Y ->
  Forall (has_shape Y W) img -> dx * (N_t - 1) + N_xy <= W ->
  let w1 := mkWorld
              (w_files w0
               ++ map (fun t => (tp_name t, frame_file img dt dx N_xy t))
                      (seq 0 N_t))
              (w_fnmatch w0) (w_seq_order w0) in
  write_timelapse w0 img dt dx N_xy N_t = Ok w1 /\
  glob w1 file_pattern = map tp_name (seq 0 N_t) /\
  (forall t, t < N_t ->
     lookup (tp_name t) (w_files w1) = Some (frame_file img dt dx N_xy t) /\
     Forall (has_shape Y N_xy) (curr_tp img dx N_xy t)) /\
  scan w1 file_pattern
  = Ok (mkIndex (map tp_name (seq 0 N_t)) N_t nz Y N_xy dt).
Proof.
  intros Hw Hm Hg HN2 HN Himg Hnz HY Hshape Hfit w1.
  assert (Hne : img <> []) by (destruct img; simpl in *; [lia|discriminate]).
  assert (Hfresh : forall t, ~ In (tp_name t) (map fst (w_files w0))).
  { intros t Hin.
    assert (Hin' : In (tp_name t) (glob w0 file_pattern)).
    { unfold glob. apply filter_In. split; [assumption|].
      rewrite Hm. apply tp_name_matches. }
    rewrite Hg in Hin'. contradiction. }
  assert (Hinj : forall t t', In t (seq 0 N_t) -> In t' (seq 0 N_t) ->
                              tp_name t = tp_name t' -> t = t').
  { intros t t' Ht Ht'. apply in_seq in Ht. apply in_seq in Ht'.
    apply tp_name_inj; lia. }
  assert (Hwrite : write_timelapse w0 img dt dx N_xy N_t = Ok w1).
  { unfold write_timelapse. apply write_frames_fresh; [assumption| |].
    - apply NoDup_map_on; [exact Hinj|apply seq_NoDup].
    - intros t _. apply Hfresh. }
  assert (Hglob : glob w1 file_pattern = map tp_name (seq 0 N_t)).
  { unfold glob, w1. cbn [w_files w_fnmatch].
    rewrite map_app, filter_app.
    change (filter (w_fnmatch w0 file_pattern) (map fst (w_files w0)))
      with (glob w0 file_pattern).
    rewrite Hg, map_map. cbn [fst app].
    apply filter_all. intros p Hp. apply in_map_iff in Hp.
    destruct Hp as [t [<- _]]. rewrite Hm. apply tp_name_matches. }
  assert (Hfiles : forall t, t < N_t ->
            lookup (tp_name t) (w_files w1)
            = Some (frame_file img dt dx N_xy t) /\
            Forall (has_shape Y N_xy) (curr_tp img dx N_xy t)).
  { intros t Ht. split.
    - unfold w1. cbn [w_files].
      rewrite lookup_app by (apply lookup_not_in, Hfresh).
      apply (lookup_frames (frame_file img dt dx N_xy)).
      + apply in_seq. lia.
      + intros t' Hin E. apply Hinj; [assumption|apply in_seq; lia|assumption].
    - unfold curr_tp.
      replace N_xy with (dx * t + N_xy - dx * t) at 1 by lia.
      apply (slice_columns_shape img Y W); [assumption|].
      assert (dx * t <= dx * (N_t - 1)) by (apply Nat.mul_le_mono_l; lia).
      lia. }
  split; [exact Hwrite|]. split; [exact Hglob|]. split; [exact Hfiles|].
  assert (Href : In (hd EmptyString (w_seq_order w1 (glob w1 file_pattern)))
                    (glob w1 file_pattern)).
  { assert (Hw1 : world_ok w1) by exact Hw.
    eapply Permutation_in; [apply Hw1|].
    pose proof (Permutation_length (Hw1 (glob w1 file_pattern))) as HL.
    assert (HG : length (glob w1 file_pattern) = N_t)
      by (rewrite Hglob, length_map, length_seq; reflexivity).
    rewrite HG in HL.
    destruct (w_seq_order w1 (glob w1 file_pattern));
      cbn [length hd] in *; [lia|now left]. }
  assert (Href' : In (hd EmptyString
                         (w_seq_order w1 (glob w1 file_pattern)))
                     (map tp_name (seq 0 N_t)))
    by (rewrite <- Hglob; exact Href).
  apply in_map_iff in Href'.
  destruct Href' as [t0 [E0 Ht0]]. apply in_seq in Ht0.
  destruct (Hfiles t0 ltac:(lia)) as [Hl0 Hs0].
  pose proof (frame_file_pages img dt dx N_xy t0 Hne) as Hp0.
  assert (Hlen0 : length (curr_tp img dx N_xy t0) = nz).
  { unfold curr_tp, slice_columns. now rewrite length_map. }
  rewrite (scan_ok_intro w1 file_pattern (frame_file img dt dx N_xy t0) nz).
  - rewrite Hglob, length_map, length_seq.
    assert (Hsorted : sorted (map tp_name (seq 0 N_t))
                      = map tp_name (seq 0 N_t)).
    { apply sorted_lists_equal.
      - apply sorted_is_sorted.
      - now apply tp_names_sorted.
      - apply sorted_perm. }
    rewrite Hsorted.
    assert (Hpage : has_shape Y N_xy
                      (tif_page0 (frame_file img dt dx N_xy t0))).
    { unfold frame_file. cbn [tif_page0].
      destruct (curr_tp img dx N_xy t0) as [|p0 more];
        [simpl in Hlen0; lia|]. now inversion Hs0. }
    destruct (has_shape_ncols _ _ _ HY Hpage) as [-> ->].
    reflexivity.
  - rewrite Hglob, length_map, length_seq. exact HN2.
  - rewrite <- E0. exact Hl0.
  - unfold frame_file. cbn [tif_axes]. now rewrite Himg.
Qed.

(** X13.  Writing the timelapse (2 to 1000 time points, stacks of at
    least five planes and five columns, the window within the volume) into
    a directory that holds no matching file and loading it back gives the
    volume the loop wrote: the scan
    finds the files in time order, the lazy volume has one time point per
    file with the planes and the height of the generated volume and the
    width of the window, and computing [ims[t, z]] reads page [z] of the
    file of time point [t] only and returns plane [z] of the generated
    volume shifted by [dx * t] columns. *)
Theorem timelapse_round_trip (w0 : world) (img : list image) (dt : dtype)
  (dx N_xy N_t nz Y W : nat) :
  world_ok w0 -> w_fnmatch w0 = fnmatch -> glob w0 file_pattern = [] ->
  2 <= N_t -> N_t <= 1000 ->
  length img = nz -> 5 <= nz -> 5 <= N_xy -> 1 <= Y ->
  Forall (has_shape Y W) img -> dx * (N_t - 1) + N_xy <= W ->
  exists w1 idx a,
    write_timelapse w0 img dt dx N_xy N_t = Ok w1 /\
    scan w1 file_pattern = Ok idx /\ ims idx = Ok a /\
    files idx = map tp_name (seq 0 N_t) /\
    shape a = [N_t; nz; Y; N_xy] /\ da_dtype a = dt /\
    forall t z, t < N_t -> z < nz ->
      exists b plane,
        rbind (da_getitem a (Z.of_nat t))
              (fun r => da_getitem r (Z.of_nat z)) = Ok b /\
        compute w1 (files idx) b = (Ok plane, [PageRead (tp_name t) z]) /\
        has_shape Y N_xy plane /\
        forall y x, x < N_xy ->
                    pix plane y x = pix (nth z img []) y (dx * t + x).
Proof.
  intros Hw Hm Hg HN2 HN Himg Hnz Hxy HY Hshape Hfit.
  destruct (written_world w0 img dt dx N_xy N_t nz Y W)
    as [Hwrite [Hglob [Hfiles Hscan]]]; try assumption; try lia.
  set (w1 := mkWorld
               (w_files w0
                ++ map (fun t => (tp_name t, frame_file img dt dx N_xy t))
                       (seq 0 N_t))
               (w_fnmatch w0) (w_seq_order w0)) in *.
  set (idx := mkIndex (map tp_name (seq 0 N_t)) N_t nz Y N_xy dt) in *.
  assert (Ha := ims_ok idx ltac:(unfold idx; simpl; lia)
                           ltac:(unfold idx; simpl; lia)).
  assert (Hne : img <> []) by (destruct img; simpl in *; [lia|discriminate]).
  exists w1, idx. eexists.
  split; [exact Hwrite|]. split; [exact Hscan|]. split; [exact Ha|].
  split; [reflexivity|]. split; [reflexivity|]. split; [reflexivity|].
  intros t z Ht Hz.
  destruct (Hfiles t Ht) as [Hl Hs].
  assert (Hp : nth_error (files idx) t = Some (tp_name t))
    by (unfold idx; cbn [files]; now apply nth_error_map_seq).
  assert (Hlen : length (curr_tp img dx N_xy t) = nz)
    by (unfold curr_tp, slice_columns; now rewrite length_map).
  assert (Hpage : nth_error (tif_pages (frame_file img dt dx N_xy t)) z
                  = Some (nth z (curr_tp img dx N_xy t) [])).
  { rewrite frame_file_pages by assumption. apply nth_error_nth'. lia. }
  exists (mkDarr (load_2d_call t z) [Y; N_xy] dt).
  exists (nth z (curr_tp img dx N_xy t) []).
  split; [|split; [|split]].
  - apply (ims_getitem idx); [exact Ha | exact Ht | exact Hz].
  - unfold compute. cbn [blocks run_task].
    rewrite (load_2d_run _ _ _ _ _ _ Hp Hl), Hpage. reflexivity.
  - rewrite Forall_forall in Hs. apply Hs. apply nth_In. lia.
  - intros y x Hx. unfold curr_tp. apply pix_slice_columns. lia.
Qed.

Lemma timelapse_round_trip_witness :
  exists w1 idx a,
    write_timelapse (mkWorld [] fnmatch (fun l => l))
      (map (fun z => tabulate 1 6 (fun y x => Z.of_nat (10 * z + x)))
           (seq 0 5))
      uint16 1 5 2 = Ok w1 /\
    scan w1 file_pattern = Ok idx /\ ims idx = Ok a /\
    files idx = map tp_name (seq 0 2) /\
    shape a = [2; 5; 1; 5] /\ da_dtype a = uint16 /\
    forall t z, t < 2 -> z < 5 ->
      exists b plane,
        rbind (da_getitem a (Z.of_nat t))
              (fun r => da_getitem r (Z.of_nat z)) = Ok b /\
        compute w1 (files idx) b = (Ok plane, [PageRead (tp_name t) z]) /\
        has_shape 1 5 plane /\
        forall y x, x < 5 ->
          pix plane y x
          = pix (nth z (map (fun z => tabulate 1 6
                                        (fun y x => Z.of_nat (10 * z + x)))
                            (seq 0 5)) [])
                y (1 * t + x).
Proof.
  apply (timelapse_round_trip (mkWorld [] fnmatch (fun l => l))
           (map (fun z => tabulate 1 6 (fun y x => Z.of_nat (10 * z + x)))
                (seq 0 5))
           uint16 1 5 2 5 1 6).
  - intro l. apply Permutation_refl.
  - reflexivity.
  - reflexivity.
  - lia.
  - lia.
  - reflexivity.
  - lia.
  - lia.
  - lia.
  - apply Forall_forall. intros p Hp. apply in_map_iff in Hp.
    destruct Hp as [z [<- _]]. apply tabulate_shape.
  - simpl. lia.
Defined.
